(** * HandyTable: the sketch-rendering and merged-cell geometry engine

    A shallow embedding of the TypeScript sources
      - [components/HandDrawnTable.tsx]  (wrapText, colWidths, rowHeights,
        xPositions, yPositions, getCellAt, paths, textElements),
      - [components/DataEditor.tsx]      (getRange, mergeCells, unmergeCells,
        removeRow, removeCol, addRow, addCol, handleCellChange, the
        selection and resize handlers, canMerge, canUnmerge),
      - [utils/sketchUtils.ts]           (getRoughPath),
      - [services/geminiService.ts]      (the conversion of the answer),
      - [types.ts]                       (TableCell, TableConfig),
    together with the properties of the specification that were checked
    against them.

    Conventions of the embedding.
      - A JavaScript number that takes part in the geometry is a [number]:
        an exact rational or [NaN].  Rounding of IEEE doubles is not
        modelled; [NaN] is, because it is what reading a missing array slot
        produces once arithmetic is applied to it.
      - Array indices, spans and owner coordinates are [nat].
      - An array of numbers that may have holes is a list of optional slots.
      - A thrown [TypeError] (property read on [undefined]) is [None] in the
        option monad.
      - [Math.random] is a stream of draws indexed by a counter that is
        threaded through the drawing code.

    The file has three parts: the embedding of the code, the vocabulary
    in which the specification speaks about it, and the results. *)

From Stdlib Require Import Ascii String QArith Qminmax Reals Lra Lia.
From stdpp Require Import base option list gmap strings.

Open Scope string_scope.
Open Scope list_scope.
Open Scope nat_scope.

(* ===================================================================== *)
(** * JavaScript numbers                                                  *)
(* ===================================================================== *)

Module JsNum.

Inductive number : Type :=
| Num (q : Q)
| NaN.

Definition ofNat (n : nat) : number := Num (inject_Z (Z.of_nat n)).

(** [undefined] coerced by an arithmetic operator or by [Math.max]. *)
Definition toNumber (o : option number) : number :=
  match o with
  | Some n => n
  | None => NaN
  end.

Definition add (a b : number) : number :=
  match a, b with
  | Num x, Num y => Num (x + y)
  | _, _ => NaN
  end.

Definition sub (a b : number) : number :=
  match a, b with
  | Num x, Num y => Num (x - y)
  | _, _ => NaN
  end.

Definition mul (a b : number) : number :=
  match a, b with
  | Num x, Num y => Num (x * y)
  | _, _ => NaN
  end.

(** [Math.max(a, b)] and [Math.min(a, b)]: [NaN] as soon as one argument
    is. *)
Definition Math_max (a b : number) : number :=
  match a, b with
  | Num x, Num y => Num (Qmax x y)
  | _, _ => NaN
  end.

Definition Math_min (a b : number) : number :=
  match a, b with
  | Num x, Num y => Num (Qmin x y)
  | _, _ => NaN
  end.

(** [a < b]: false as soon as one side is [NaN]. *)
Definition ltb (a b : number) : bool :=
  match a, b with
  | Num x, Num y => negb (Qle_bool y x)
  | _, _ => false
  end.

(** Truthiness of a number: [0] and [NaN] are falsy. *)
Definition truthyQ (q : Q) : bool := negb (Qeq_bool q 0).

(** Numeric equality of results (rationals are compared by value). *)
Definition eqv (a b : number) : Prop :=
  match a, b with
  | Num x, Num y => x == y
  | NaN, NaN => True
  | _, _ => False
  end.

End JsNum.
Export JsNum.

Infix "≈" := eqv (at level 70, no associativity).

(* ===================================================================== *)
(** * Strings                                                             *)
(* ===================================================================== *)

Definition newline : ascii := Ascii.ascii_of_nat 10.
Definition space : ascii := Ascii.ascii_of_nat 32.

Definition NL : string := String newline EmptyString.
Definition SP : string := String space EmptyString.

(** [s.split(sep)] for a one-character separator.  The result is never
    empty: the empty string splits into one empty piece. *)
Fixpoint split (sep : ascii) (s : string) : list string :=
  match s with
  | EmptyString => [EmptyString]
  | String ch rest =>
      if Ascii.eqb ch sep then EmptyString :: split sep rest
      else match split sep rest with
           | w :: ws => String ch w :: ws
           | [] => [String ch EmptyString]
           end
  end.

(** [parts.join(sep)]. *)
Definition join (sep : string) (parts : list string) : string :=
  String.concat sep parts.

(** Truthiness of a string: only the empty string is falsy. *)
Definition truthyS (s : string) : bool :=
  match s with
  | EmptyString => false
  | String _ _ => true
  end.

(* ===================================================================== *)
(** * Text wrapping engine (HandDrawnTable.tsx, wrapText)                 *)
(* ===================================================================== *)

Module Wrap.

(** [charWidth = fontSize * 0.55] *)
Definition charWidth (fontSize : number) : number :=
  mul fontSize (Num (55 # 100)).

(** The [for] loop over [words[1..]]; the value is the list of lines this
    paragraph pushes on [finalLines], the last one being the push after
    the loop. *)
Fixpoint wrapLoop (cw maxWidth : number) (currentLine : string)
         (words : list string) : list string :=
  match words with
  | [] => [currentLine]
  | word :: rest =>
      let width :=
        mul (ofNat (String.length currentLine + 1 + String.length word)) cw in
      if ltb width maxWidth
      then wrapLoop cw maxWidth (String.append currentLine (String.append SP word)) rest
      else currentLine :: wrapLoop cw maxWidth word rest
  end.

(** The body of [paragraphs.forEach]. *)
Definition wrapParagraph (cw maxWidth : number) (paragraph : string)
  : list string :=
  if truthyS paragraph then
    match split space paragraph with
    | first :: rest => wrapLoop cw maxWidth first rest
    | [] => []          (* unreachable: [split] is never empty *)
    end
  else [SP].

Definition wrapText (text : string) (maxWidth fontSize : number)
  : list string :=
  if truthyS text then
    flat_map (wrapParagraph (charWidth fontSize) maxWidth) (split newline text)
  else [].

End Wrap.
Export Wrap.


(* ===================================================================== *)
(** * Data model (types.ts)                                               *)
(* ===================================================================== *)

(** [hidden?: boolean]: the code only ever tests its truthiness, so a
    missing flag and [false] are one value here. *)
Record TableCell : Type := mkCell {
  id : string;
  value : string;
  rowSpan : nat;
  colSpan : nat;
  hidden : bool;
  ownerRow : option nat;
  ownerCol : option nat
}.

Abbreviation TableData := (list (list TableCell)).

Record TableConfig : Type := mkConfig {
  roughness : Q;
  bowing : Q;
  stroke : string;
  strokeWidth : Q;
  padding : Q;
  widthScale : Q;
  customColumnWidths : gmap nat Q;
  customRowHeights : gmap nat Q
}.

(** A plain visible cell, as [addRow] and the generation service build
    them. *)
Definition plainCell (i v : string) : TableCell :=
  mkCell i v 1 1 false None None.

(* ===================================================================== *)
(** * JavaScript arrays and loops                                         *)
(* ===================================================================== *)

(** [arr[i]] on an array with holes: [None] is [undefined]. *)
Definition aget {A} (arr : list (option A)) (i : nat) : option A :=
  match arr !! i with
  | Some slot => slot
  | None => None
  end.

(** [arr[i] = v]: JavaScript extends the array, leaving holes, when [i]
    is past the end. *)
Definition aset {A} (arr : list (option A)) (i : nat) (v : A)
  : list (option A) :=
  if decide (i < length arr) then <[i := Some v]> arr
  else arr ++ replicate (i - length arr) None ++ [Some v].

(** [l.forEach((x, i) => ...)] as a left fold that carries the state the
    callback mutates. *)
Fixpoint forEachFrom {A St} (i : nat) (f : St -> A -> nat -> St) (l : list A)
         (s : St) : St :=
  match l with
  | [] => s
  | x :: l' => forEachFrom (S i) f l' (f s x i)
  end.

Definition forEach {A St} (f : St -> A -> nat -> St) (l : list A) (s : St) : St :=
  forEachFrom 0 f l s.

(** [for (let i = lo; i < hi; i++) body], in the option monad: the loop
    stops with [None] as soon as one iteration throws. *)
Definition forUpTo {St} (lo hi : nat) (body : nat -> St -> option St) (s : St)
  : option St :=
  foldl (fun acc i => acc ≫= body i) (Some s) (seq lo (hi - lo)).

(* ===================================================================== *)
(** * Grid geometry resolver (HandDrawnTable.tsx)                         *)
(* ===================================================================== *)

Module Geometry.

Definition baseCellWidth : nat := 120.

(** [Math.max(...cell.value.split('\n').map(s => s.length))]; the list is
    never empty, so the [-Infinity] of an empty [Math.max] cannot occur. *)
Definition maxSegmentLen (v : string) : nat :=
  foldr Nat.max 0 (String.length <$> split newline v).

(** [Math.min(250, Math.max(baseCellWidth, maxSegmentLen * 9))] *)
Definition estimated (cell : TableCell) : nat :=
  Nat.min 250 (Nat.max baseCellWidth (maxSegmentLen (value cell) * 9)).

(** The nested [forEach] that fills [autoWidths]. *)
Definition autoWidthsStep (aw : list (option number)) (cell : TableCell)
           (i : nat) : list (option number) :=
  if (colSpan cell =? 1) && negb (hidden cell)
  then aset aw i (Math_max (toNumber (aget aw i)) (ofNat (estimated cell)))
  else aw.

Definition autoWidths (data : TableData) : list (option number) :=
  match data with
  | [] => []
  | row0 :: _ =>
      forEach (fun aw row _ => forEach autoWidthsStep row aw) data
              (replicate (length row0) (Some (ofNat baseCellWidth)))
  end.

(** [config.widthScale || 1] *)
Definition scaleFactor (config : TableConfig) : Q :=
  if truthyQ (widthScale config) then widthScale config else 1%Q.

(** The callback of [autoWidths.map((w, i) => ...)]. *)
Definition finalWidth (config : TableConfig) (i : nat) (w : number)
  : number :=
  let base :=
    match customColumnWidths config !! i with
    | Some custom => Num custom
    | None => w
    end in
  mul base (Num (scaleFactor config)).

(** [Array.prototype.map] keeps holes and does not call the callback on
    them. *)
Definition colWidths (data : TableData) (config : TableConfig)
  : list (option number) :=
  match data with
  | [] => []
  | _ :: _ => imap (fun i slot => finalWidth config i <$> slot) (autoWidths data)
  end.

Definition fontSizeOf (rowIndex : nat) : Q :=
  if rowIndex =? 0 then 20%Q else 16%Q.

(** Effective width of a cell: its column, plus the further columns it
    spans ([for (k = 1; k < cell.colSpan; k++)]). *)
Definition cellWidth (cw : list (option number)) (cell : TableCell)
           (colIndex : nat) : number :=
  let w0 := toNumber (aget cw colIndex) in
  if 1 <? colSpan cell
  then foldl (fun w k => add w (toNumber (aget cw (colIndex + k)))) w0
             (seq 1 (colSpan cell - 1))
  else w0.

Definition contentWidth (config : TableConfig) (cw : list (option number))
           (cell : TableCell) (colIndex : nat) : number :=
  Math_max (Num 0) (sub (cellWidth cw cell colIndex) (Num (padding config * 2))).

(** The callback of [row.forEach] in [rowHeights]. *)
Definition maxLinesStep (config : TableConfig) (cw : list (option number))
           (fontSize : Q) (maxLines : nat) (cell : TableCell)
           (colIndex : nat) : nat :=
  if hidden cell || (1 <? rowSpan cell) then maxLines
  else
    let lines :=
      wrapText (value cell) (contentWidth config cw cell colIndex) (Num fontSize) in
    Nat.max maxLines (length lines).

Definition autoHeight (config : TableConfig) (cw : list (option number))
           (rowIndex : nat) (row : list TableCell) : number :=
  let fontSize := fontSizeOf rowIndex in
  let maxLines := forEach (maxLinesStep config cw fontSize) row 1 in
  let calculatedHeight :=
    add (mul (ofNat maxLines) (Num (fontSize * (14 # 10))))
        (Num (padding config * 2)) in
  Math_max (Num 50) calculatedHeight.

(** The callback of [data.map((row, rowIndex) => ...)]; the guard
    [if (config.customRowHeights?.[rowIndex])] is a truthiness test. *)
Definition rowHeight (config : TableConfig) (cw : list (option number))
           (rowIndex : nat) (row : list TableCell) : number :=
  match customRowHeights config !! rowIndex with
  | Some h => if truthyQ h then Num h else autoHeight config cw rowIndex row
  | None => autoHeight config cw rowIndex row
  end.

Definition rowHeights (data : TableData) (config : TableConfig)
  : list number :=
  imap (rowHeight config (colWidths data config)) data.

(** [pos = [0]; sizes.forEach(w => pos.push(pos[pos.length - 1] + w))] *)
Definition pushNext (pos : list number) (w : number) : list number :=
  pos ++ [add (toNumber (last pos)) w].

Definition offsets (sizes : list number) : list number :=
  foldl pushNext [Num 0] sizes.

(** [forEach] skips the holes of [colWidths]. *)
Definition xPositions (data : TableData) (config : TableConfig)
  : list number :=
  offsets (omap (fun slot : option number => slot) (colWidths data config)).

Definition yPositions (data : TableData) (config : TableConfig)
  : list number :=
  offsets (rowHeights data config).

Definition totalWidth (data : TableData) (config : TableConfig) : number :=
  toNumber (last (xPositions data config)).

Definition totalHeight (data : TableData) (config : TableConfig) : number :=
  toNumber (last (yPositions data config)).

End Geometry.
Export Geometry.

(* ===================================================================== *)
(** * Path perturbation primitive (sketchUtils.ts)                        *)
(* ===================================================================== *)

(** The arithmetic and the [Math] functions [getRoughPath] uses, over a
    carrier of numbers. *)
Class JsMath (A : Type) : Type := {
  lit : Q -> A;
  plus : A -> A -> A;
  minus : A -> A -> A;
  times : A -> A -> A;
  over : A -> A -> A;
  Math_sqrt : A -> A;
  Math_atan2 : A -> A -> A;
  Math_cos : A -> A;
  Math_sin : A -> A;
  Math_PI : A
}.

(** The path string [M mx my Q qx qy ex ey], by its six numbers. *)
Record PathD (A : Type) : Type := mkPath {
  moveX : A; moveY : A;
  ctrlX : A; ctrlY : A;
  endX : A; endY : A
}.
Arguments mkPath {A}.
Arguments moveX {A}.
Arguments moveY {A}.
Arguments ctrlX {A}.
Arguments ctrlY {A}.
Arguments endX {A}.
Arguments endY {A}.

Module Sketch.
Section Sketch.

Context {A : Type} {M : JsMath A}.

(** The stream of values [Math.random()] returns, one per call. *)
Variable rnd : nat -> A.

(** A computation that draws random values: it takes the number of
    draws made so far and returns the new count with its result. *)
Definition Draw (X : Type) : Type := nat -> X * nat.

Definition ret {X} (x : X) : Draw X := fun n => (x, n).

Definition bind {X Y} (m : Draw X) (k : X -> Draw Y) : Draw Y :=
  fun n => let (x, n') := m n in k x n'.

Definition Math_random : Draw A := fun n => (rnd n, S n).

Local Notation "'draw' x <- m ; k" := (bind m (fun x => k))
  (at level 10, x name, m at level 100, k at level 200).

(** [Math.pow(v, 2)] *)
Definition pow2 (v : A) : A := times v v.

(** [(Math.random() - 0.5)] *)
Definition centred : Draw A :=
  draw u <- Math_random; ret (minus u (lit (1 # 2))).

Definition getRoughPath (x1 y1 x2 y2 roughness bowing : A) : Draw (PathD A) :=
  let len := Math_sqrt (plus (pow2 (minus x2 x1)) (pow2 (minus y2 y1))) in
  let midX := over (plus x1 x2) (lit 2) in
  let midY := over (plus y1 y2) (lit 2) in
  let bowOffset := times (times len (lit (5 # 100))) bowing in
  let angle := Math_atan2 (minus y2 y1) (minus x2 x1) in
  let perpAngle := plus angle (over Math_PI (lit 2)) in
  draw u0 <- centred;
  let randomBow := times u0 bowOffset in
  let controlX := plus midX (times (Math_cos perpAngle) randomBow) in
  let controlY := plus midY (times (Math_sin perpAngle) randomBow) in
  draw u1 <- centred;
  let r1 := times (times u1 roughness) (lit 2) in
  draw u2 <- centred;
  let r2 := times (times u2 roughness) (lit 2) in
  draw u3 <- centred;
  let r3 := times (times u3 roughness) (lit 2) in
  draw u4 <- centred;
  let r4 := times (times u4 roughness) (lit 2) in
  ret (mkPath (plus x1 r1) (plus y1 r2) controlX controlY
              (plus x2 r3) (plus y2 r4)).

End Sketch.
End Sketch.

(** The real numbers as a carrier: the exact functions the [Math] library
    approximates. *)
Module RealMath.

(** [Math.atan2(y, x)] *)
Definition atan2 (y x : R) : R :=
  if Rlt_dec 0 x then atan (y / x)
  else if Rlt_dec x 0 then
    (if Rle_dec 0 y then atan (y / x) + PI else atan (y / x) - PI)
  else if Rlt_dec 0 y then PI / 2
  else if Rlt_dec y 0 then - (PI / 2)
  else 0.

#[export] Instance R_JsMath : JsMath R := {|
  lit := Q2R;
  plus := Rplus;
  minus := Rminus;
  times := Rmult;
  over := Rdiv;
  Math_sqrt := sqrt;
  Math_atan2 := atan2;
  Math_cos := cos;
  Math_sin := sin;
  Math_PI := PI
|}.

End RealMath.

(* ===================================================================== *)
(** * Merge-aware line suppressor (HandDrawnTable.tsx)                    *)
(* ===================================================================== *)

Module Lines.

(** What [getCellAt] returns: [null], or an object made of the spread of
    a cell with its coordinates [r], [c].  The spread of [undefined]
    ([data[ownerR][ownerC]] past the end of its row) has no cell fields:
    the first component is then [None]. *)
Inductive found : Type :=
| Null
| At (cell : option TableCell) (r c : nat).

(** [None] is a thrown [TypeError]: [cell.hidden] on a missing cell, or
    [data[ownerR][ownerC]] on a missing row. *)
Definition getCellAt (data : TableData) (r c : nat) : option found :=
  if decide (length data ≤ r) then Some Null
  else
    match data !! 0 with
    | None => Some Null
    | Some row0 =>
        if decide (length row0 ≤ c) then Some Null
        else
          row ← data !! r;
          cell ← row !! c;
          if negb (hidden cell) then Some (At (Some cell) r c)
          else
            let ownerR := default r (ownerRow cell) in
            let ownerC := default c (ownerCol cell) in
            orow ← data !! ownerR;
            Some (At (orow !! ownerC) ownerR ownerC)
    end.

(** [cellAbove && (cellAbove.r + cellAbove.rowSpan) > r]; with a missing
    [rowSpan] the sum is [NaN] and the comparison is false. *)
Definition extendsPast (span : TableCell -> nat) (origin : found -> nat)
           (line : nat) (f : found) : bool :=
  match f with
  | Null => false
  | At None _ _ => false
  | At (Some cell) _ _ => line <? origin f + span cell
  end.

Definition foundR (f : found) : nat :=
  match f with Null => 0 | At _ r _ => r end.
Definition foundC (f : found) : nat :=
  match f with Null => 0 | At _ _ c => c end.

Definition rowCountOf (data : TableData) : nat := length data.

(** [data[0]?.length || 0] *)
Definition colCountOf (data : TableData) : nat :=
  match data !! 0 with
  | Some row0 => length row0
  | None => 0
  end.

(** [shouldDraw] for the horizontal segment on grid line [r], column [c]. *)
Definition shouldDrawH (data : TableData) (r c : nat) : option bool :=
  if (r =? 0) || (r =? rowCountOf data) then Some true
  else
    cellAbove ← getCellAt data (r - 1) c;
    Some (negb (extendsPast rowSpan foundR r cellAbove)).

(** [shouldDraw] for the vertical segment on grid line [c], row [r]. *)
Definition shouldDrawV (data : TableData) (c r : nat) : option bool :=
  if (c =? 0) || (c =? colCountOf data) then Some true
  else
    cellLeft ← getCellAt data r (c - 1);
    Some (negb (extendsPast colSpan foundC c cellLeft)).

Inductive dir : Type := Horizontal | Vertical.

(** The React key: [h-r-c], [v-c-r], with the suffix [-d] on the second,
    fainter stroke. *)
Record pathKey : Type := mkKey {
  kDir : dir;
  kLine : nat;
  kSeg : nat;
  kDouble : bool
}.

Record pathElem : Type := mkElem {
  key : pathKey;
  d : PathD number;
  eStroke : string;
  eStrokeWidth : Q;
  eOpacity : option Q
}.

Section Paths.

(** The [Math] functions on the numbers of the geometry. *)
Context {M : JsMath number}.
Variable rnd : nat -> number.
Variable data : TableData.
Variable config : TableConfig.

Let xs := xPositions data config.
Let ys := yPositions data config.

(** The one or two [lines.push] of a drawn segment. *)
Definition strokes (k : dir) (line seg : nat) (x1 y1 x2 y2 : number)
  : Sketch.Draw (list pathElem) :=
  Sketch.bind
    (Sketch.getRoughPath rnd x1 y1 x2 y2
       (Num (roughness config)) (Num (bowing config)))
    (fun p1 =>
       let e1 := mkElem (mkKey k line seg false) p1 (stroke config)
                        (strokeWidth config) None in
       if negb (Qle_bool (roughness config) (1 # 2)) then
         Sketch.bind
           (Sketch.getRoughPath rnd x1 y1 x2 y2
              (Num (roughness config)) (Num (bowing config)))
           (fun p2 =>
              Sketch.ret
                [e1; mkElem (mkKey k line seg true) p2 (stroke config)
                            (strokeWidth config * (1 # 2)) (Some (6 # 10))])
       else Sketch.ret [e1]).

(** The state of the loops: the [lines] pushed so far and the number of
    random draws made. *)
Definition drawState : Type := (list pathElem * nat)%type.

Definition horizontalBody (r c : nat) (st : drawState) : option drawState :=
  shouldDraw ← shouldDrawH data r c;
  if shouldDraw : bool then
    let x1 := toNumber (xs !! c) in
    let x2 := toNumber (xs !! (c + 1)) in
    let y := toNumber (ys !! r) in
    let (new, n') := strokes Horizontal r c x1 y x2 y st.2 in
    Some (st.1 ++ new, n')
  else Some st.

Definition verticalBody (c r : nat) (st : drawState) : option drawState :=
  shouldDraw ← shouldDrawV data c r;
  if shouldDraw : bool then
    let x := toNumber (xs !! c) in
    let y1 := toNumber (ys !! r) in
    let y2 := toNumber (ys !! (r + 1)) in
    let (new, n') := strokes Vertical c r x y1 x y2 st.2 in
    Some (st.1 ++ new, n')
  else Some st.

(** One render pass of the grid lines, started after [n] draws. *)
Definition paths (n : nat) : option drawState :=
  let rowCount := rowCountOf data in
  let colCount := colCountOf data in
  st ← forUpTo 0 (rowCount + 1)
         (fun r => forUpTo 0 colCount (horizontalBody r)) ([], n);
  forUpTo 0 (colCount + 1)
    (fun c => forUpTo 0 rowCount (verticalBody c)) st.

End Paths.

End Lines.
Export Lines.

(* ===================================================================== *)
(** * Editing operations (DataEditor.tsx)                                 *)
(* ===================================================================== *)

Module Editor.

Record coord : Type := mkCoord { cr : nat; cc : nat }.

Record Selection : Type := mkSel { selStart : coord; selEnd : coord }.

Record range : Type := mkRange {
  minR : nat; maxR : nat; minC : nat; maxC : nat
}.

(** The component state the operations read and replace. *)
Record state : Type := mkState {
  data : TableData;
  config : TableConfig;
  selection : option Selection
}.

Definition getRange (selection : option Selection) : option range :=
  match selection with
  | None => None
  | Some sel =>
      Some (mkRange (Nat.min (cr (selStart sel)) (cr (selEnd sel)))
                    (Nat.max (cr (selStart sel)) (cr (selEnd sel)))
                    (Nat.min (cc (selStart sel)) (cc (selEnd sel)))
                    (Nat.max (cc (selStart sel)) (cc (selEnd sel))))
  end.

(** [data[r][c]]; [None] when the row or the cell is missing, where a
    property read on the result throws. *)
Definition cellAt (data : TableData) (r c : nat) : option TableCell :=
  row ← data !! r; row !! c.

(** Assignment to fields of [newData[r][c]]. *)
Definition updCell (f : TableCell -> TableCell) (r c : nat)
           (data : TableData) : TableData :=
  alter (alter f c) r data.

(** The body of the first pair of loops of [mergeCells]. *)
Definition combineStep (newData : TableData) (r c : nat)
           (combinedValue : string) : option string :=
  cell ← cellAt newData r c;
  Some (if negb (hidden cell) && truthyS (value cell)
        then String.append combinedValue
               (String.append (if truthyS combinedValue then NL else "")
                              (value cell))
        else combinedValue).

Definition asMaster (combinedValue : string) (rg : range) (master : TableCell)
  : TableCell :=
  mkCell (id master) combinedValue
         (maxR rg - minR rg + 1) (maxC rg - minC rg + 1) false None None.

Definition asHidden (rg : range) (cell : TableCell) : TableCell :=
  mkCell (id cell) "" 1 1 true (Some (minR rg)) (Some (minC rg)).

(** The body of the second pair of loops of [mergeCells]. *)
Definition hideStep (rg : range) (r c : nat) (newData : TableData)
  : option TableData :=
  if (r =? minR rg) && (c =? minC rg) then Some newData
  else
    _ ← cellAt newData r c;
    Some (updCell (asHidden rg) r c newData).

Definition mergeCells (st : state) : option state :=
  match getRange (selection st) with
  | None => Some st
  | Some rg =>
      if (minR rg =? maxR rg) && (minC rg =? maxC rg) then Some st
      else
        let newData := data st in
        combinedValue ←
          forUpTo (minR rg) (maxR rg + 1)
            (fun r => forUpTo (minC rg) (maxC rg + 1) (combineStep newData r)) "";
        _ ← cellAt newData (minR rg) (minC rg);
        let newData :=
          updCell (asMaster combinedValue rg) (minR rg) (minC rg) newData in
        newData ←
          forUpTo (minR rg) (maxR rg + 1)
            (fun r => forUpTo (minC rg) (maxC rg + 1) (hideStep rg r)) newData;
        Some (mkState newData (config st)
                (Some (mkSel (mkCoord (minR rg) (minC rg))
                             (mkCoord (minR rg) (minC rg)))))
  end.

Definition withSpans1 (cell : TableCell) : TableCell :=
  mkCell (id cell) (value cell) 1 1 (hidden cell) (ownerRow cell) (ownerCol cell).

Definition asShown (cell : TableCell) : TableCell :=
  mkCell (id cell) (value cell) (rowSpan cell) (colSpan cell) false None None.

(** The body of the loops of [unmergeCells]. *)
Definition showStep (rg : range) (r c : nat) (newData : TableData)
  : option TableData :=
  if (r =? minR rg) && (c =? minC rg) then Some newData
  else
    _ ← cellAt newData r c;
    Some (updCell asShown r c newData).

Definition unmergeCells (st : state) : option state :=
  match getRange (selection st) with
  | None => Some st
  | Some rg =>
      cell ← cellAt (data st) (minR rg) (minC rg);
      if (rowSpan cell =? 1) && (colSpan cell =? 1) then Some st
      else
        let rSpan := rowSpan cell in
        let cSpan := colSpan cell in
        let newData := updCell withSpans1 (minR rg) (minC rg) (data st) in
        newData ←
          forUpTo (minR rg) (minR rg + rSpan)
            (fun r => forUpTo (minC rg) (minC rg + cSpan) (showStep rg r)) newData;
        Some (mkState newData (config st) (selection st))
  end.

(** [l.filter((_, i) => i !== index)] *)
Definition removeAt {A} (index : nat) (l : list A) : list A :=
  omap (fun o : option A => o)
       (imap (fun i x => if decide (i = index) then None else Some x) l).

(** The [Object.keys(overrides).forEach] of [removeRow] and [removeCol]:
    both [if]s are run for every key. *)
Definition shiftStep (index : nat) (k : nat) (v : Q) (acc : gmap nat Q)
  : gmap nat Q :=
  let acc := if k <? index then <[k := v]> acc else acc in
  if index <? k then <[k - 1 := v]> acc else acc.

Definition shiftOverrides (index : nat) (overrides : gmap nat Q)
  : gmap nat Q :=
  map_fold (shiftStep index) ∅ overrides.

Definition withRowHeights (cfg : TableConfig) (m : gmap nat Q) : TableConfig :=
  mkConfig (roughness cfg) (bowing cfg) (stroke cfg) (strokeWidth cfg)
           (padding cfg) (widthScale cfg) (customColumnWidths cfg) m.

Definition withColumnWidths (cfg : TableConfig) (m : gmap nat Q) : TableConfig :=
  mkConfig (roughness cfg) (bowing cfg) (stroke cfg) (strokeWidth cfg)
           (padding cfg) (widthScale cfg) m (customRowHeights cfg).

Definition removeRow (index : nat) (st : state) : state :=
  let newData := removeAt index (data st) in
  let newHeights := shiftOverrides index (customRowHeights (config st)) in
  mkState newData (withRowHeights (config st) newHeights) None.

Definition removeCol (index : nat) (st : state) : state :=
  let newData := removeAt index <$> data st in
  let newData :=
    match newData with
    | [] => []
    | row0 :: _ => if length row0 =? 0 then [] else newData
    end in
  let shiftedWidths := shiftOverrides index (customColumnWidths (config st)) in
  mkState newData (withColumnWidths (config st) shiftedWidths) None.

End Editor.
Export Editor.

(* ===================================================================== *)
(** * The component: one render pass                                    *)
(* ===================================================================== *)

(** What a render pass of the component computes before the text: the
    geometry and the grid lines.  The pass starts after [n] random draws. *)
Record rendered : Type := mkRendered {
  rColWidths : list (option number);
  rRowHeights : list number;
  rXPositions : list number;
  rYPositions : list number;
  rTotalWidth : number;
  rTotalHeight : number;
  rPaths : option drawState
}.

Definition renderPass {M : JsMath number} (rnd : nat → number)
           (data : TableData) (config : TableConfig) (n : nat) : rendered :=
  mkRendered (colWidths data config) (rowHeights data config)
             (xPositions data config) (yPositions data config)
             (totalWidth data config) (totalHeight data config)
             (paths rnd data config n).

(** The keys of the drawn paths of a pass, in order. *)
Definition drawnKeys (p : rendered) : option (list pathKey) :=
  (fun st : drawState => key <$> st.1) <$> rPaths p.

(* ===================================================================== *)
(** * Vocabulary of the specification: text                             *)
(* ===================================================================== *)

(** The character [ch] occurs in [s]. *)
Fixpoint hasChar (ch : ascii) (s : string) : bool :=
  match s with
  | EmptyString => false
  | String x rest => Ascii.eqb x ch || hasChar ch rest
  end.

(** The words of a text: every non-empty paragraph split on spaces.  An
    empty paragraph has no word (it yields the spacer line). *)
Definition wordsOf (text : string) : list string :=
  flat_map (fun paragraph => if truthyS paragraph then split space paragraph else [])
           (split newline text).

(** An output line and the words it carries: the spacer line of an empty
    paragraph carries none; any other line is its words joined by single
    spaces. *)
Definition lineOf (line : string) (g : list string) : Prop :=
  (g = [] ∧ line = SP) ∨ (g ≠ [] ∧ line = join SP g).

(** A line fits: its estimated width is under the maximum width. *)
Definition fits (cw maxWidth : number) (line : string) : bool :=
  ltb (mul (ofNat (String.length line)) cw) maxWidth.

(* ===================================================================== *)
(** * Vocabulary of the specification: column widths                    *)
(* ===================================================================== *)

(** The cells a column is measured on: column-span 1, not hidden. *)
Definition eligible (cell : TableCell) : bool :=
  (colSpan cell =? 1) && negb (hidden cell).

(** The slot of a column after one more row has been visited. *)
Definition slotAfter (m : nat) (o : option TableCell) : nat :=
  match o with
  | Some cell => if eligible cell then Nat.max m (estimated cell) else m
  | None => m
  end.

(** The cells of column [i], from the top row down. *)
Definition columnCells (data : TableData) (i : nat) : list TableCell :=
  omap (fun row : list TableCell => row !! i) data.

(** The column's automatic width in the words of the specification: the
    maximum, over the visible cells of the column that span one column,
    of the estimate of the cell, and of the base width. *)
Definition autoWidthSpec (data : TableData) (i : nat) : nat :=
  foldr Nat.max baseCellWidth
        (estimated <$> filter (fun c => eligible c = true) (columnCells data i)).

(** The base value chosen for column [i]: the override when there is one,
    the automatic width otherwise. *)
Definition chosenBase (data : TableData) (config : TableConfig) (i : nat) : Q :=
  match customColumnWidths config !! i with
  | Some custom => custom
  | None => inject_Z (Z.of_nat (autoWidthSpec data i))
  end.

(* ===================================================================== *)
(** * Vocabulary of the specification: row heights                      *)
(* ===================================================================== *)

Section RowHeightWords.

Variable config : TableConfig.
Variable cw : list (option number).

(** The widths of the columns a cell at [colIndex] spans, and their sum. *)
Definition spannedWidths (colIndex span : nat) : list number :=
  (fun k => toNumber (aget cw (colIndex + k))) <$> seq 0 span.

Definition sumWidths (ws : list number) : number := foldl add (Num 0) ws.

Definition effectiveWidth (cell : TableCell) (colIndex : nat) : number :=
  sumWidths (spannedWidths colIndex (colSpan cell)).

(** The number of lines of a cell: its text wrapped at its effective
    width minus twice the padding. *)
Definition lineCount (fontSize : Q) (colIndex : nat) (cell : TableCell) : nat :=
  length (wrapText (value cell)
            (sub (effectiveWidth cell colIndex) (Num (2 * padding config)))
            (Num fontSize)).

(** The cells a row is measured on: visible, with a row-span of 1. *)
Definition measured (cell : TableCell) : bool :=
  negb (hidden cell) && (rowSpan cell =? 1).

Definition measuredLinesFrom (fontSize : Q) (j0 : nat) (row : list TableCell)
  : list nat :=
  omap (fun ic : nat * TableCell =>
          if measured ic.2 then Some (lineCount fontSize ic.1 ic.2) else None)
       (imap (fun i cell => (j0 + i, cell)) row).

Definition maxLinesSpec (fontSize : Q) (row : list TableCell) : nat :=
  foldr Nat.max 1 (measuredLinesFrom fontSize 0 row).

Definition autoHeightSpec (rowIndex : nat) (row : list TableCell) : number :=
  let fontSize := if rowIndex =? 0 then 20%Q else 16%Q in
  Num (Qmax 50 (inject_Z (Z.of_nat (maxLinesSpec fontSize row))
                * fontSize * (14 # 10)
                + 2 * padding config)).

End RowHeightWords.

(* ===================================================================== *)
(** * Vocabulary of the specification: rectangles and merging           *)
(* ===================================================================== *)

(** The positions [rlo ≤ r < rhi], [clo ≤ c < chi], row by row. *)
Definition rectCoords (rlo rhi clo chi : nat) : list (nat * nat) :=
  r ← seq rlo (rhi - rlo); c ← seq clo (chi - clo); [(r, c)].

(** A loop over a list of positions in the option monad: the unfolding of
    [forUpTo], and of two nested [forUpTo], into one fold. *)
Definition foldSteps {I St} (body : I → St → option St) (o : option St)
           (l : list I) : option St :=
  foldl (fun acc i => acc ≫= body i) o l.

(** A loop that rewrites the cells of its positions other than one, as
    the second loops of [mergeCells] and [unmergeCells] do. *)
Definition rewriteStep (f : TableCell → TableCell) (skipR skipC : nat)
           (rc : nat * nat) (g : TableData) : option TableData :=
  if (rc.1 =? skipR) && (rc.2 =? skipC) then Some g
  else _ ← cellAt g rc.1 rc.2; Some (updCell f rc.1 rc.2 g).

(** The cells of the selected rectangle, row by row. *)
Definition rangeCoords (rg : range) : list (nat * nat) :=
  rectCoords (minR rg) (maxR rg + 1) (minC rg) (maxC rg + 1).

Definition rangeCells (g : TableData) (rg : range) : list TableCell :=
  omap (fun rc : nat * nat => cellAt g rc.1 rc.2) (rangeCoords rg).

(** The non-empty values of the non-hidden cells, joined by newlines. *)
Definition valuesToJoin (cells : list TableCell) : list string :=
  filter (fun v : string => v ≠ "")
         (value <$> filter (fun cell => hidden cell = false) cells).

Definition joinedValue (g : TableData) (rg : range) : string :=
  join NL (valuesToJoin (rangeCells g rg)).

(** Every position of the rectangle is a cell of the grid. *)
Definition inGrid (g : TableData) (rg : range) : Prop :=
  Forall (fun rc : nat * nat => is_Some (cellAt g rc.1 rc.2)) (rangeCoords rg).

(* ===================================================================== *)
(** * Vocabulary of the specification: decided segments                 *)
(* ===================================================================== *)

(** A grid-line segment the suppressor decided to draw, with the end
    points handed to [getRoughPath]. *)
Record segment : Type := mkSegment {
  sDir : dir;
  sLine : nat;
  sSeg : nat;
  sX1 : number; sY1 : number;
  sX2 : number; sY2 : number
}.

Section Segments.

Variable data : TableData.
Variable config : TableConfig.

(** The decision for the candidate segment at a position of the loops:
    [None] when it throws, [Some None] when the segment is suppressed. *)
Definition horizontalAt (rc : nat * nat) : option (option segment) :=
  shouldDraw ← shouldDrawH data rc.1 rc.2;
  Some (if shouldDraw : bool then
          Some (mkSegment Horizontal rc.1 rc.2
                  (toNumber (xPositions data config !! rc.2))
                  (toNumber (yPositions data config !! rc.1))
                  (toNumber (xPositions data config !! (rc.2 + 1)))
                  (toNumber (yPositions data config !! rc.1)))
        else None).

Definition verticalAt (cr : nat * nat) : option (option segment) :=
  shouldDraw ← shouldDrawV data cr.1 cr.2;
  Some (if shouldDraw : bool then
          Some (mkSegment Vertical cr.1 cr.2
                  (toNumber (xPositions data config !! cr.1))
                  (toNumber (yPositions data config !! cr.2))
                  (toNumber (xPositions data config !! cr.1))
                  (toNumber (yPositions data config !! (cr.2 + 1))))
        else None).

(** All decisions of a pass, in the order of the loops; [None] when one
    of them throws. *)
Definition segmentsOf : option (list segment) :=
  hs ← mapM horizontalAt
          (rectCoords 0 (rowCountOf data + 1) 0 (colCountOf data));
  vs ← mapM verticalAt
          (rectCoords 0 (colCountOf data + 1) 0 (rowCountOf data));
  Some (omap (fun o : option segment => o) (hs ++ vs)).

Context {M : JsMath number}.
Variable rnd : nat → number.

(** Drawing one decided segment: the only step that reads the random
    stream. *)
Definition renderSegment (st : drawState) (s : segment) : drawState :=
  let (new, n') :=
    strokes rnd config (sDir s) (sLine s) (sSeg s)
            (sX1 s) (sY1 s) (sX2 s) (sY2 s) st.2 in
  (st.1 ++ new, n').

Definition renderSegments (st : drawState) (segs : list segment) : drawState :=
  foldl renderSegment st segs.

(** The keys a segment is drawn under. *)
Definition keysOf (s : segment) : list pathKey :=
  mkKey (sDir s) (sLine s) (sSeg s) false
  :: (if negb (Qle_bool (roughness config) (1 # 2))
      then [mkKey (sDir s) (sLine s) (sSeg s) true] else []).

End Segments.

(* ===================================================================== *)
(** * Vocabulary of the specification: the invariants of a grid         *)
(* ===================================================================== *)

Section Invariant.

Variable data : TableData.

(** The span rectangle of the cell [cell] at (R, C) covers (r, c). *)
Definition covers (R C : nat) (cell : TableCell) (r c : nat) : Prop :=
  (R ≤ r < R + rowSpan cell) ∧ (C ≤ c < C + colSpan cell).


(** The invariants of the data model: the grid is rectangular; spans are
    at least 1; the span rectangle of a visible cell lies in the grid; a
    hidden cell has spans 1, no text, and names as owner a visible cell
    whose span rectangle covers it; no position is covered by the span
    rectangles of two visible cells. *)
Record wf : Prop := mkWf {
  wf_rect : ∀ r row, data !! r = Some row → length row = colCountOf data;
  wf_spans : ∀ r c cell,
      cellAt data r c = Some cell → 1 ≤ rowSpan cell ∧ 1 ≤ colSpan cell;
  wf_inside : ∀ R C cell,
      cellAt data R C = Some cell → hidden cell = false →
      R + rowSpan cell ≤ rowCountOf data ∧ C + colSpan cell ≤ colCountOf data;
  wf_hidden : ∀ r c cell,
      cellAt data r c = Some cell → hidden cell = true →
      rowSpan cell = 1 ∧ colSpan cell = 1 ∧ value cell = "" ∧
      ∃ R C owner,
        ownerRow cell = Some R ∧ ownerCol cell = Some C ∧
        cellAt data R C = Some owner ∧ hidden owner = false ∧
        covers R C owner r c;
  wf_unique : ∀ r c R1 C1 o1 R2 C2 o2,
      cellAt data R1 C1 = Some o1 → hidden o1 = false → covers R1 C1 o1 r c →
      cellAt data R2 C2 = Some o2 → hidden o2 = false → covers R2 C2 o2 r c →
      R1 = R2 ∧ C1 = C2
}.

(** The same invariants as a check that can be run on a grid. *)
Definition coversb (R C : nat) (cell : TableCell) (r c : nat) : bool :=
  (R <=? r) && (r <? R + rowSpan cell) && (C <=? c) && (c <? C + colSpan cell).

Definition allCoords : list (nat * nat) :=
  rectCoords 0 (rowCountOf data) 0 (colCountOf data).

Definition ownsb (q rc : nat * nat) : bool :=
  match cellAt data q.1 q.2 with
  | Some o => negb (hidden o) && coversb q.1 q.2 o rc.1 rc.2
  | None => false
  end.

Definition hiddenOk (cell : TableCell) (r c : nat) : bool :=
  (rowSpan cell =? 1) && (colSpan cell =? 1) && negb (truthyS (value cell)) &&
  match ownerRow cell, ownerCol cell with
  | Some R, Some C =>
      match cellAt data R C with
      | Some owner => negb (hidden owner) && coversb R C owner r c
      | None => false
      end
  | _, _ => false
  end.

Definition cellOk (rc : nat * nat) : bool :=
  match cellAt data rc.1 rc.2 with
  | None => false
  | Some cell =>
      (1 <=? rowSpan cell) && (1 <=? colSpan cell) &&
      (if hidden cell then hiddenOk cell rc.1 rc.2
       else (rc.1 + rowSpan cell <=? rowCountOf data)
            && (rc.2 + colSpan cell <=? colCountOf data))
  end.

Definition uniqueOk (rc : nat * nat) : bool :=
  forallb (fun q1 =>
    forallb (fun q2 =>
      implb (ownsb q1 rc && ownsb q2 rc)
            ((q1.1 =? q2.1) && (q1.2 =? q2.2)))
      allCoords) allCoords.

Definition gridOk : bool :=
  forallb (fun row : list TableCell => length row =? colCountOf data) data
  && forallb cellOk allCoords
  && forallb uniqueOk allCoords.



End Invariant.

(* ===================================================================== *)
(** * Grids and configurations used in examples                         *)
(* ===================================================================== *)

(** [DEFAULT_CONFIG] of App.tsx. *)
Definition defaultConfig : TableConfig :=
  mkConfig (15 # 10) (12 # 10) "#2d3748" 2 10 1 ∅ ∅.

Definition withWidthScale (cfg : TableConfig) (s : Q) : TableConfig :=
  mkConfig (roughness cfg) (bowing cfg) (stroke cfg) (strokeWidth cfg)
           (padding cfg) s (customColumnWidths cfg) (customRowHeights cfg).

Definition zeroAt (i : nat) : gmap nat Q := <[i := 0%Q]> ∅.

Definition oneCell : TableData := [[plainCell "1" "a"]].

Definition threeColumns : TableData :=
  [[plainCell "1" "a"; plainCell "2" "b"; plainCell "3" "c"]].

Definition grid2x2 : TableData :=
  [[plainCell "1" "A"; plainCell "2" "B"];
   [plainCell "3" "C"; plainCell "4" "D"]].

Definition selectAll2x2 : Selection := mkSel (mkCoord 0 0) (mkCoord 1 1).

(** A 3×3 grid whose top-left 2×2 block is merged. *)
Definition mergedCorner : TableData :=
  [[mkCell "1" "A" 2 2 false None None;
    mkCell "2" "" 1 1 true (Some 0) (Some 0);
    plainCell "3" "C"];
   [mkCell "4" "" 1 1 true (Some 0) (Some 0);
    mkCell "5" "" 1 1 true (Some 0) (Some 0);
    plainCell "6" "F"];
   [plainCell "7" "G"; plainCell "8" "H"; plainCell "9" "I"]].

(** A carrier for running examples on the numbers of the geometry: the
    arithmetic is exact; the functions of [Math] whose values are not
    rational in general are left undefined ([NaN]). *)
Definition exampleMath : JsMath number := {|
  lit := Num;
  plus := add;
  minus := sub;
  times := mul;
  over := fun a b =>
            match a, b with
            | Num x, Num y => if Qeq_bool y 0 then NaN else Num (x / y)
            | _, _ => NaN
            end;
  Math_sqrt := fun _ => NaN;
  Math_atan2 := fun _ _ => NaN;
  Math_cos := fun _ => NaN;
  Math_sin := fun _ => NaN;
  Math_PI := NaN
|}.

(* ===================================================================== *)
(** * Further code: the cell content renderer (HandDrawnTable.tsx)        *)
(* ===================================================================== *)

Module Content.

(** [a / 2] *)
Definition half (a : number) : number :=
  match a with
  | Num x => Num (x / 2)
  | NaN => NaN
  end.

Record tspan : Type := mkTspan {
  spX : number;
  spDy : Q;
  spText : string
}.

(** A [<text>] element: its key (the id of the cell), its anchor, its
    font size, whether it is bold, and its [<tspan>] children. *)
Record textElem : Type := mkText {
  tKey : string;
  tX : number;
  tY : number;
  tFontSize : Q;
  tBold : bool;
  tSpans : list tspan
}.

Section Text.

Variable rnd : nat -> number.
Variable data : TableData.
Variable config : TableConfig.

(** [(Math.random() - 0.5)] on the numbers of the geometry. *)
Definition centredDraw : Sketch.Draw number :=
  Sketch.bind (Sketch.Math_random rnd)
              (fun u => Sketch.ret (sub u (Num (1 # 2)))).

(** [lines.map((line, i) => ...)]: one draw per line, in order. *)
Fixpoint tspansFrom (i : nat) (anchor : number) (textRoughness lineHeight : Q)
         (lines : list string) : Sketch.Draw (list tspan) :=
  match lines with
  | [] => Sketch.ret []
  | line :: rest =>
      Sketch.bind centredDraw (fun u =>
        let lineTx := mul u (Num textRoughness) in
        Sketch.bind (tspansFrom (S i) anchor textRoughness lineHeight rest)
          (fun spans =>
             Sketch.ret (mkTspan (add anchor lineTx)
                                 (if i =? 0 then 0%Q else lineHeight) line
                         :: spans)))
  end.

(** The width and the height of the box of a cell, as differences of
    offsets.  In the program the offsets carry the rounding of the running
    sums, so the difference need not be the sum of the spanned sizes the
    row heights are computed from; no result relates the two. *)
Definition boxWidth (cell : TableCell) (colIndex : nat) : number :=
  sub (toNumber (xPositions data config !! (colIndex + colSpan cell)))
      (toNumber (xPositions data config !! colIndex)).

Definition boxHeight (cell : TableCell) (rowIndex : nat) : number :=
  sub (toNumber (yPositions data config !! (rowIndex + rowSpan cell)))
      (toNumber (yPositions data config !! rowIndex)).

(** The lines of the text of a cell, wrapped at the width of its box
    minus twice the padding. *)
Definition textLines (rowIndex colIndex : nat) (cell : TableCell) : list string :=
  wrapText (value cell)
           (sub (boxWidth cell colIndex) (Num (padding config * 2)))
           (Num (fontSizeOf rowIndex)).

(** The [<text>] element of a visible cell. *)
Definition textOf (rowIndex colIndex : nat) (cell : TableCell)
  : Sketch.Draw textElem :=
  let x := toNumber (xPositions data config !! colIndex) in
  let y := toNumber (yPositions data config !! rowIndex) in
  let w := boxWidth cell colIndex in
  let h := boxHeight cell rowIndex in
  let fontSize := fontSizeOf rowIndex in
  let lines := textLines rowIndex colIndex cell in
  let lineHeight := (fontSize * (14 # 10))%Q in
  let totalTextHeight := mul (ofNat (length lines)) (Num lineHeight) in
  let startY :=
    add (add y (half (sub h totalTextHeight))) (Num (lineHeight * (6 # 10))) in
  let textRoughness := (roughness config * 2)%Q in
  Sketch.bind centredDraw (fun u1 =>
    let blockTx := mul (mul u1 (Num textRoughness)) (Num (1 # 2)) in
    Sketch.bind centredDraw (fun u2 =>
      let blockTy := mul (mul u2 (Num textRoughness)) (Num (1 # 2)) in
      let anchor := add (add x (half w)) blockTx in
      Sketch.bind (tspansFrom 0 anchor textRoughness lineHeight lines)
        (fun spans =>
           Sketch.ret (mkText (id cell) anchor (add startY blockTy)
                              fontSize (rowIndex =? 0) spans)))).

(** The state of the loops: the [elements] pushed so far and the number
    of random draws made. *)
Definition textState : Type := (list textElem * nat)%type.

(** The callback of the inner [row.forEach]. *)
Definition textStep (rowIndex : nat) (st : textState) (cell : TableCell)
           (colIndex : nat) : textState :=
  if hidden cell then st
  else
    let (e, n') := textOf rowIndex colIndex cell st.2 in
    (st.1 ++ [e], n').

(** One pass of the text elements, started after [n] draws. *)
Definition textElements (n : nat) : textState :=
  forEach (fun st row rowIndex => forEach (textStep rowIndex) row st)
          data ([], n).

End Text.

End Content.
Export Content.

(* ===================================================================== *)
(** * Further code: editing and selection (DataEditor.tsx)                *)
(* ===================================================================== *)

Module Editing.

Section Ids.

(** The strings [generateId()] returns, one per call; the counter of the
    calls made is threaded through the operations. *)
Variable ids : nat -> string.

(** [{ id: generateId(), value, rowSpan: 1, colSpan: 1 }] *)
Definition freshCell (n : nat) (v : string) : TableCell := plainCell (ids n) v.

Definition addRow (st : state) (n : nat) : state * nat :=
  match data st with
  | [] => (mkState [[freshCell n "New Cell"]] (config st) (selection st), S n)
  | row0 :: _ =>
      let colCount := length row0 in
      let newRow := (fun k => freshCell (n + k) "") <$> seq 0 colCount in
      (mkState (data st ++ [newRow]) (config st) (selection st), n + colCount)
  end.

Definition addCol (st : state) (n : nat) : state * nat :=
  match data st with
  | [] => (mkState [[freshCell n "New Cell"]] (config st) (selection st), S n)
  | _ :: _ =>
      let newData := imap (fun k row => row ++ [freshCell (n + k) ""]) (data st) in
      (mkState newData (config st) (selection st), n + length (data st))
  end.


End Ids.

(** What [handleCellChange] does: it throws when the row is missing; when
    the row exists but has no cell at [colIndex] it stores an object that
    has a [value] only, past the end of the row, which is no [TableData]
    any more; otherwise it replaces the value of the cell. *)
Inductive changed : Type :=
| Threw
| NotACell
| Changed (st : state).

Definition withValue (v : string) (cell : TableCell) : TableCell :=
  mkCell (id cell) v (rowSpan cell) (colSpan cell) (hidden cell)
         (ownerRow cell) (ownerCol cell).

Definition handleCellChange (rowIndex colIndex : nat) (v : string) (st : state)
  : changed :=
  match data st !! rowIndex with
  | None => Threw
  | Some row =>
      match row !! colIndex with
      | None => NotACell
      | Some cell =>
          Changed (mkState (<[rowIndex := <[colIndex := withValue v cell]> row]> (data st))
                           (config st) (selection st))
      end
  end.

(** The selection and the flag [isSelecting]. *)
Record picking : Type := mkPicking {
  picked : option Selection;
  isSelecting : bool
}.

Definition handleMouseDown (r c : nat) (_ : picking) : picking :=
  mkPicking (Some (mkSel (mkCoord r c) (mkCoord r c))) true.

Definition handleMouseEnter (r c : nat) (p : picking) : picking :=
  match picked p with
  | Some sel =>
      if isSelecting p
      then mkPicking (Some (mkSel (selStart sel) (mkCoord r c))) (isSelecting p)
      else p
  | None => p
  end.

(** The [mouseup] listener. *)
Definition endSelect (p : picking) : picking := mkPicking (picked p) false.

Definition isSelected (selection : option Selection) (r c : nat) : bool :=
  match getRange selection with
  | None => false
  | Some rg =>
      (minR rg <=? r) && (r <=? maxR rg) && (minC rg <=? c) && (c <=? maxC rg)
  end.

Definition canMerge (st : state) : bool :=
  match getRange (selection st) with
  | None => false
  | Some rg => (minR rg <? maxR rg) || (minC rg <? maxC rg)
  end.

(** [None] when [data[range.minR][range.minC]] is missing and reading its
    spans throws. *)
Definition canUnmerge (st : state) : option bool :=
  match getRange (selection st) with
  | None => Some false
  | Some rg =>
      if negb (minR rg =? maxR rg) || negb (minC rg =? maxC rg) then Some false
      else
        cell ← cellAt (data st) (minR rg) (minC rg);
        Some ((1 <? rowSpan cell) || (1 <? colSpan cell))
  end.

(** The resize handles. *)
Inductive axis : Type := Col | Row.

Record ResizeState : Type := mkResize {
  rAxis : axis;
  rIndex : nat;
  startPos : Q;
  startSize : Q
}.

(** [onMouseDown] of the handle of column [colIndex], at [clientX]. *)
Definition startColResize (config : TableConfig) (colIndex : nat) (clientX : Q)
  : ResizeState :=
  mkResize Col colIndex clientX
           (default 120%Q (customColumnWidths config !! colIndex)).

(** [onMouseDown] of the handle of row [rowIndex], at [clientY]. *)
Definition startRowResize (config : TableConfig) (rowIndex : nat) (clientY : Q)
  : ResizeState :=
  mkResize Row rowIndex clientY
           (default 50%Q (customRowHeights config !! rowIndex)).

(** The [mousemove] listener while [resizing]. *)
Definition handleMouseMove (resizing : ResizeState) (clientX clientY : Q)
           (prev : TableConfig) : TableConfig :=
  match rAxis resizing with
  | Col =>
      let diff := (clientX - startPos resizing)%Q in
      let newWidth := Qmax 50 (startSize resizing + diff) in
      withColumnWidths prev (<[rIndex resizing := newWidth]> (customColumnWidths prev))
  | Row =>
      let diff := (clientY - startPos resizing)%Q in
      let newHeight := Qmax 30 (startSize resizing + diff) in
      withRowHeights prev (<[rIndex resizing := newHeight]> (customRowHeights prev))
  end.

End Editing.
Export Editing.

(* ===================================================================== *)
(** * Vocabulary of the further results                                   *)
(* ===================================================================== *)

(** The old index of the row or column that has index [j] after the one
    at [index] was removed. *)
Definition oldIndex (index j : nat) : nat := if decide (j < index) then j else S j.

(** A cell that is visible and spans one row and one column. *)
Definition unmergedCell (cell : TableCell) : Prop :=
  hidden cell = false ∧ rowSpan cell = 1 ∧ colSpan cell = 1.

(** The selected rectangle cuts no merged cell: a visible cell whose span
    rectangle meets the rectangle lies in it with all of its span. *)
Definition cutsNoMerge (g : TableData) (rg : range) : Prop :=
  ∀ R C owner r c r' c',
    cellAt g R C = Some owner → hidden owner = false →
    covers R C owner r c → (r, c) ∈ rangeCoords rg →
    covers R C owner r' c' → (r', c') ∈ rangeCoords rg.

(** The visible cells of a row with their positions, from the left to the
    right, and those of the grid, row by row. *)
Definition visibleInRow (rowIndex : nat) (row : list TableCell)
  : list (nat * nat * TableCell) :=
  omap (fun x : option (nat * nat * TableCell) => x)
       (imap (fun colIndex cell =>
                if hidden cell then None else Some (rowIndex, colIndex, cell))
             row).

Definition visibleCells (data : TableData) : list (nat * nat * TableCell) :=
  concat (imap visibleInRow data).

(** What a [<text>] element shows, its position apart: its key, its font
    size, whether it is bold, and the [dy] and the text of its lines. *)
Definition shown (e : textElem) : string * Q * bool * list (Q * string) :=
  (tKey e, tFontSize e, tBold e, (fun sp => (spDy sp, spText sp)) <$> tSpans e).

(** What the element of the visible cell [cell] at (r, c) is to show: the
    lines of its wrapped text, the first at [dy] 0 and the others one
    line height further down each. *)
Definition shownOf (data : TableData) (config : TableConfig)
           (p : nat * nat * TableCell) : string * Q * bool * list (Q * string) :=
  let r := p.1.1 in
  let c := p.1.2 in
  let cell := p.2 in
  (id cell, fontSizeOf r, r =? 0,
   imap (fun i line =>
           (if i =? 0 then 0%Q else (fontSizeOf r * (14 # 10))%Q, line))
        (textLines data config r c cell)).

(** The random draws the element of a cell takes: two for the block and
    one for each line. *)
Definition drawsOf (data : TableData) (config : TableConfig)
           (p : nat * nat * TableCell) : nat :=
  2 + length (textLines data config p.1.1 p.1.2 p.2).

(** The grid line and the place on it a segment was decided for. *)
Definition placeOf (s : segment) : dir * nat * nat := (sDir s, sLine s, sSeg s).

(* ===================================================================== *)
(** * Results                                                           *)
(* ===================================================================== *)

(** From here on: lemmas about the embedding, and one theorem for each
    property of the specification, named after what it states. *)

(* ===================================================================== *)
(** * Override maps under row and column removal                          *)
(* ===================================================================== *)

Section ShiftOverrides.

Implicit Types (m : gmap nat Q) (k j : nat).

Lemma shiftOverrides_lookup m k j :
  shiftOverrides k m !! j = if decide (j < k) then m !! j else m !! (j + 1).
Proof.
  unfold shiftOverrides.
  apply (map_fold_weak_ind
           (fun acc m' => acc !! j
                          = if decide (j < k) then m' !! j else m' !! (j + 1))).
  - case_decide; by rewrite !lookup_empty.
  - intros i x m' acc Hi IH. unfold shiftStep.
    destruct (Nat.ltb_spec i k) as [Hik|Hik];
      destruct (Nat.ltb_spec k i) as [Hki|Hki]; try lia;
      rewrite ?lookup_insert, IH;
      repeat case_decide; subst; try lia; try done.
Qed.

End ShiftOverrides.

(** C7.  After [removeRow k] (for the row-height overrides) and
    [removeCol k] (for the column-width overrides): an override at an index
    below [k] is unchanged; an override at an index [j] above [k] is found
    at [j - 1] with the same value; the override that was keyed at [k] does
    not remain: every override of the new map is one of the old map at an
    index other than [k], and the new map is the one obtained had the old
    map had no entry at [k] (the key [k] of the new map holds the old
    override of [k + 1], when there is one).  Removing column 1 with overrides
    [{0:100, 2:150}] gives [{0:100, 1:150}]. *)
Theorem remove_shifts_overrides :
  (∀ (st : state) (k : nat),
     let rows := customRowHeights (config st) in
     let cols := customColumnWidths (config st) in
     let rows' := customRowHeights (config (removeRow k st)) in
     let cols' := customColumnWidths (config (removeCol k st)) in
     (∀ j, j < k → rows' !! j = rows !! j ∧ cols' !! j = cols !! j) ∧
     (∀ j, k < j → rows' !! (j - 1) = rows !! j ∧ cols' !! (j - 1) = cols !! j) ∧
     (∀ j v, rows' !! j = Some v →
             ∃ i, i ≠ k ∧ rows !! i = Some v ∧ j = if i <? k then i else i - 1) ∧
     (∀ j v, cols' !! j = Some v →
             ∃ i, i ≠ k ∧ cols !! i = Some v ∧ j = if i <? k then i else i - 1) ∧
     rows' = shiftOverrides k (delete k rows) ∧
     cols' = shiftOverrides k (delete k cols) ∧
     rows' !! k = rows !! (k + 1) ∧
     cols' !! k = cols !! (k + 1)) ∧
  customColumnWidths
    (config (removeCol 1
       (mkState threeColumns
          (withColumnWidths defaultConfig (<[0 := 100%Q]> (<[2 := 150%Q]> ∅)))
          None)))
  = <[0 := 100%Q]> (<[1 := 150%Q]> ∅).
Proof.
  split.
  - intros st k rows cols rows' cols'.
    assert (Hfrom : ∀ (m : gmap nat Q) j v,
               shiftOverrides k m !! j = Some v →
               ∃ i, i ≠ k ∧ m !! i = Some v ∧ j = if i <? k then i else i - 1).
    { intros m j v. rewrite shiftOverrides_lookup. case_decide; intros Hv.
      - exists j. split; [lia|]. split; [done|].
        destruct (Nat.ltb_spec j k); lia.
      - exists (j + 1). split; [lia|]. split; [done|].
        destruct (Nat.ltb_spec (j + 1) k); lia. }
    assert (Hdel : ∀ m : gmap nat Q,
               shiftOverrides k m = shiftOverrides k (delete k m)).
    { intros m. apply map_eq. intros j. rewrite !shiftOverrides_lookup.
      case_decide; rewrite lookup_delete_ne by lia; done. }
    subst rows' cols'. simpl. repeat split.
    + rewrite shiftOverrides_lookup. case_decide; [done|lia].
    + rewrite shiftOverrides_lookup. case_decide; [done|lia].
    + rewrite shiftOverrides_lookup. case_decide; [lia|].
      by replace (j - 1 + 1) with j by lia.
    + rewrite shiftOverrides_lookup. case_decide; [lia|].
      by replace (j - 1 + 1) with j by lia.
    + apply Hfrom.
    + apply Hfrom.
    + apply Hdel.
    + apply Hdel.
    + rewrite shiftOverrides_lookup. case_decide; [lia|done].
    + rewrite shiftOverrides_lookup. case_decide; [lia|done].
  - simpl. apply map_eq. intros j. rewrite shiftOverrides_lookup.
    destruct j as [|[|[|j]]]; case_decide; try lia; try done.
    rewrite !lookup_insert_ne by lia. done.
Qed.

Lemma remove_shifts_overrides_witness :
  let st := mkState threeColumns
              (withColumnWidths defaultConfig (<[0 := 100%Q]> (<[2 := 150%Q]> ∅)))
              None in
  customColumnWidths (config (removeCol 1 st)) !! 0
  = customColumnWidths (config st) !! 0 ∧
  customColumnWidths (config (removeCol 1 st)) !! (2 - 1)
  = customColumnWidths (config st) !! 2.
Proof.
  intros st. destruct remove_shifts_overrides as [Hgen _].
  destruct (Hgen st 1) as (Hlow & Hhigh & _).
  split.
  - apply (Hlow 0). lia.
  - apply (Hhigh 2). lia.
Defined.

(* ===================================================================== *)
(** * The path primitive without roughness and bowing                     *)
(* ===================================================================== *)

Section StraightPath.

Import RealMath.
Local Open Scope R_scope.

Lemma Q2R_two : Q2R 2 = 2.
Proof. unfold Q2R. simpl. lra. Qed.

(** C8.  With [roughness = 0] and [bowing = 0], whatever the random draws
    and however many were made before, [getRoughPath] returns the path
    that starts at (x1, y1), ends at (x2, y2) and has the midpoint of the
    segment as control point; it makes five draws. *)
Theorem getRoughPath_straight (rnd : nat -> R) (x1 y1 x2 y2 : R) (n : nat) :
  Sketch.getRoughPath rnd x1 y1 x2 y2 0 0 n
  = (mkPath x1 y1 ((x1 + x2) / 2) ((y1 + y2) / 2) x2 y2, (n + 5)%nat).
Proof.
  unfold Sketch.getRoughPath, Sketch.centred, Sketch.bind, Sketch.ret,
    Sketch.Math_random.
  cbn [lit plus minus times over Math_sqrt Math_atan2 Math_cos Math_sin
       Math_PI R_JsMath].
  rewrite Q2R_two.
  f_equal; [|lia].
  f_equal; ring.
Qed.

End StraightPath.

(* ===================================================================== *)
(** * Column widths                                                       *)
(* ===================================================================== *)

Section ColWidths.

Lemma Math_max_ofNat (a b : nat) :
  Math_max (ofNat a) (ofNat b) = ofNat (Nat.max a b).
Proof.
  unfold Math_max, ofNat, Qmax, GenericMinMax.gmax. f_equal.
  destruct (Qcompare_spec (inject_Z (Z.of_nat a)) (inject_Z (Z.of_nat b)))
    as [H|H|H].
  - unfold Qeq in H. simpl in H. by rewrite Nat.max_l by lia.
  - unfold Qlt in H. simpl in H. by rewrite Nat.max_r by lia.
  - unfold Qlt in H. simpl in H. by rewrite Nat.max_l by lia.
Qed.

Lemma aset_length {A} (arr : list (option A)) j v :
  length arr ≤ length (aset arr j v).
Proof.
  unfold aset. case_decide.
  - by rewrite length_insert.
  - rewrite length_app. lia.
Qed.

Lemma aset_lookup {A} (arr : list (option A)) i j v :
  i < length arr →
  aset arr j v !! i = if decide (i = j) then Some (Some v) else arr !! i.
Proof.
  intros Hi. unfold aset. case_decide as Hj.
  - case_decide as Hij.
    + subst. by rewrite list_lookup_insert_eq.
    + by rewrite list_lookup_insert_ne.
  - rewrite lookup_app_l by done. case_decide; [lia|done].
Qed.

Lemma autoWidths_row (row : list TableCell) :
  ∀ j0 aw i m,
    aw !! i = Some (Some (ofNat m)) →
    let aw' := forEachFrom j0 autoWidthsStep row aw in
    length aw ≤ length aw' ∧
    aw' !! i = Some (Some (ofNat
                 (slotAfter m (if decide (j0 ≤ i) then row !! (i - j0) else None)))).
Proof.
  induction row as [|cell row IH]; intros j0 aw i m Hi; simpl.
  - split; [done|]. by case_decide.
  - assert (Hlt : i < length aw) by (by eapply lookup_lt_Some).
    set (aw1 := autoWidthsStep aw cell j0).
    assert (H1 : length aw ≤ length aw1 ∧
                 aw1 !! i = Some (Some (ofNat
                   (if decide (i = j0) then slotAfter m (Some cell) else m)))).
    { subst aw1. unfold autoWidthsStep, slotAfter, eligible.
      destruct ((colSpan cell =? 1) && negb (hidden cell)).
      - split; [apply aset_length|].
        rewrite aset_lookup by done. case_decide; [|done].
        subst. unfold aget. rewrite Hi. cbn [toNumber]. by rewrite Math_max_ofNat.
      - split; [done|]. by case_decide. }
    destruct H1 as [Hlen1 Hi1].
    destruct (IH (S j0) aw1 i _ Hi1) as [Hlen2 Hi2].
    split; [lia|]. rewrite Hi2. do 3 f_equal.
    repeat case_decide; try lia; try done.
    + subst. by rewrite Nat.sub_diag.
    + by replace (i - j0) with (S (i - S j0)) by lia.
Qed.

Lemma autoWidths_rows (rows : list (list TableCell)) :
  ∀ j0 aw i m,
    aw !! i = Some (Some (ofNat m)) →
    forEachFrom j0 (fun aw row (_ : nat) => forEach autoWidthsStep row aw) rows aw !! i
    = Some (Some (ofNat (foldl (fun m row => slotAfter m (row !! i)) m rows))).
Proof.
  induction rows as [|row rows IH]; intros j0 aw i m Hi; simpl; [done|].
  destruct (autoWidths_row row 0 aw i m Hi) as [_ H].
  rewrite decide_True, Nat.sub_0_r in H by lia.
  by apply IH.
Qed.

Lemma foldl_slotAfter (rows : list (list TableCell)) i :
  ∀ m, foldl (fun m row => slotAfter m (row !! i)) m rows
       = foldr Nat.max m
           (estimated <$> filter (fun c => eligible c = true) (columnCells rows i)).
Proof.
  induction rows as [|row rows IH]; intros m; simpl; [done|].
  rewrite IH. unfold columnCells. simpl.
  destruct (row !! i) as [cell|]; simpl; [|done].
  rewrite filter_cons. destruct (eligible cell) eqn:E.
  - rewrite decide_True by done. rewrite fmap_cons. cbn [foldr].
    generalize (estimated cell); intros e.
    generalize (estimated <$> filter (λ c : TableCell, eligible c = true)
                  (omap (λ row0 : list TableCell, row0 !! i) rows)).
    intros l. revert m. induction l as [|x l IHl]; intros m; cbn [foldr]; [lia|].
    rewrite IHl. lia.
  - rewrite decide_False by (simpl; congruence). done.
Qed.

Lemma autoWidths_lookup (data : TableData) (i : nat) :
  i < colCountOf data →
  autoWidths data !! i = Some (Some (ofNat (autoWidthSpec data i))).
Proof.
  unfold colCountOf, autoWidths, autoWidthSpec.
  destruct data as [|row0 rows]; simpl; [lia|]. intros Hi.
  unfold forEach.
  rewrite (autoWidths_rows (row0 :: rows) 0 _ i baseCellWidth).
  - by rewrite foldl_slotAfter.
  - by rewrite lookup_replicate_2.
Qed.

Lemma colWidths_lookup (data : TableData) (config : TableConfig) (i : nat) :
  i < colCountOf data →
  colWidths data config !! i
  = Some (Some (Num (chosenBase data config i * scaleFactor config))).
Proof.
  intros Hi. pose proof (autoWidths_lookup data i Hi) as Ha.
  unfold colWidths. destruct data as [|row0 rows]; [by inversion Hi|].
  rewrite list_lookup_imap, Ha. simpl.
  unfold finalWidth, chosenBase.
  by destruct (customColumnWidths config !! i).
Qed.

End ColWidths.




(* ===================================================================== *)
(** * Row heights                                                         *)
(* ===================================================================== *)

Section RowHeights.

Lemma rowHeights_lookup (data : TableData) (config : TableConfig)
      (rowIndex : nat) (row : list TableCell) :
  data !! rowIndex = Some row →
  rowHeights data config !! rowIndex
  = Some (rowHeight config (colWidths data config) rowIndex row).
Proof.
  intros Hrow. unfold rowHeights. by rewrite list_lookup_imap, Hrow.
Qed.

Lemma autoHeight_floor (config : TableConfig) cw rowIndex row :
  ∃ q, autoHeight config cw rowIndex row = Num q ∧ (50 <= q)%Q.
Proof.
  unfold autoHeight, Math_max, add, mul, ofNat.
  eexists. split; [reflexivity|]. apply Q.le_max_l.
Qed.

Lemma truthyQ_zero (h : Q) : (h == 0)%Q → truthyQ h = false.
Proof.
  intros Hh. unfold truthyQ. apply Qeq_bool_iff in Hh. by rewrite Hh.
Qed.

End RowHeights.

(** C10.  A row-height override equal to 0 is treated as absent: the
    height of the row is the automatic one, the one obtained without the
    entry, and it is at least 50.  A column-width override equal to 0 is
    applied: the width of the column is 0. *)
Theorem zero_overrides_asymmetric (data : TableData) (config : TableConfig) :
  (∀ rowIndex row h,
     data !! rowIndex = Some row →
     customRowHeights config !! rowIndex = Some h → (h == 0)%Q →
     ∃ q, rowHeights data config !! rowIndex = Some (Num q) ∧
          (50 <= q)%Q ∧
          Num q = autoHeight config (colWidths data config) rowIndex row ∧
          rowHeights data
            (withRowHeights config (delete rowIndex (customRowHeights config)))
            !! rowIndex = Some (Num q)) ∧
  (∀ i h,
     i < colCountOf data →
     customColumnWidths config !! i = Some h → (h == 0)%Q →
     ∃ w, aget (colWidths data config) i = Some w ∧ w ≈ Num 0).
Proof.
  split.
  - intros rowIndex row h Hrow Hh Hz.
    destruct (autoHeight_floor config (colWidths data config) rowIndex row)
      as (q & Hq & Hle).
    exists q. split; [|split; [done|split; [done|]]].
    + rewrite (rowHeights_lookup _ _ _ _ Hrow). unfold rowHeight.
      rewrite Hh, truthyQ_zero by done. by rewrite Hq.
    + rewrite (rowHeights_lookup _ _ _ _ Hrow). unfold rowHeight.
      cbn [customRowHeights withRowHeights]. rewrite lookup_delete_eq.
      rewrite <- Hq. reflexivity.
  - intros i h Hi Hh Hz. eexists. split.
    + unfold aget. by rewrite colWidths_lookup.
    + unfold chosenBase. rewrite Hh. simpl. rewrite Hz. ring.
Qed.

Lemma zero_overrides_asymmetric_witness :
  (∃ q, rowHeights oneCell (withRowHeights defaultConfig (zeroAt 0)) !! 0
        = Some (Num q) ∧ (50 <= q)%Q) ∧
  (∃ w, aget (colWidths oneCell (withColumnWidths defaultConfig (zeroAt 0))) 0
        = Some w ∧ w ≈ Num 0).
Proof.
  split.
  - destruct (zero_overrides_asymmetric oneCell
                (withRowHeights defaultConfig (zeroAt 0))) as [Hrow _].
    destruct (Hrow 0 [plainCell "1" "a"] 0%Q) as (q & Hq & Hle & _).
    + reflexivity.
    + vm_compute. reflexivity.
    + reflexivity.
    + exists q. by split.
  - destruct (zero_overrides_asymmetric oneCell
                (withColumnWidths defaultConfig (zeroAt 0))) as [_ Hcol].
    apply (Hcol 0 0%Q).
    + vm_compute. lia.
    + vm_compute. reflexivity.
    + reflexivity.
Defined.

(* ===================================================================== *)
(** * Splitting and joining                                               *)
(* ===================================================================== *)

Section SplitJoin.

Lemma split_nonempty sep s : split sep s ≠ [].
Proof.
  destruct s as [|ch rest]; simpl; [done|].
  destruct (Ascii.eqb ch sep); [done|]. by destruct (split sep rest).
Qed.

Lemma split_sep_free sep s : Forall (fun w => hasChar sep w = false) (split sep s).
Proof.
  induction s as [|ch rest IH]; simpl.
  - by constructor.
  - destruct (Ascii.eqb ch sep) eqn:E.
    + by constructor.
    + destruct (split sep rest) as [|w ws]; inversion IH; subst;
        (constructor; [|done]); simpl; by rewrite E.
Qed.

Lemma split_sep_free_word sep w :
  hasChar sep w = false → split sep w = [w].
Proof.
  induction w as [|ch rest IH]; simpl; [done|].
  intros H. apply orb_false_iff in H as [H1 H2].
  rewrite H1, (IH H2). done.
Qed.

Lemma append_String ch (a b : string) :
  String.append (String ch a) b = String ch (String.append a b).
Proof. reflexivity. Qed.

Lemma append_empty (b : string) : String.append EmptyString b = b.
Proof. reflexivity. Qed.

Lemma split_append sep w rest :
  hasChar sep w = false →
  split sep (String.append w (String sep rest)) = w :: split sep rest.
Proof.
  induction w as [|ch w IH]; rewrite ?append_String, ?append_empty; simpl.
  - intros _. by rewrite Ascii.eqb_refl.
  - intros H. apply orb_false_iff in H as [H1 H2].
    by rewrite H1, (IH H2).
Qed.

Lemma join_cons sep w g :
  g ≠ [] → join sep (w :: g) = String.append w (String.append sep (join sep g)).
Proof. by destruct g. Qed.

Lemma split_join sep g :
  g ≠ [] → Forall (fun w => hasChar sep w = false) g →
  split sep (join (String sep EmptyString) g) = g.
Proof.
  induction g as [|w g IH]; [done|]. intros _ Hfree.
  inversion Hfree as [|? ? Hw Hg]; subst.
  destruct g as [|w' g].
  - simpl. by apply split_sep_free_word.
  - rewrite join_cons by done.
    rewrite (append_String sep EmptyString), append_empty.
    rewrite split_append by done. by rewrite IH.
Qed.

Lemma append_assoc (a b c : string) :
  String.append (String.append a b) c = String.append a (String.append b c).
Proof.
  induction a as [|ch a IH]; rewrite ?append_String, ?append_empty; [done|].
  by rewrite IH.
Qed.

Lemma length_append (a b : string) :
  String.length (String.append a b) = String.length a + String.length b.
Proof.
  induction a as [|ch a IH]; rewrite ?append_String, ?append_empty; [done|].
  simpl. by rewrite IH.
Qed.

Lemma join_snoc sep g w :
  g ≠ [] →
  join sep (g ++ [w]) = String.append (join sep g) (String.append sep w).
Proof.
  induction g as [|x g IH]; [done|]. intros _.
  destruct g as [|y g]; [done|].
  change ((x :: y :: g) ++ [w]) with (x :: ((y :: g) ++ [w])).
  rewrite (join_cons sep x ((y :: g) ++ [w])) by done.
  rewrite IH by done. rewrite (join_cons sep x (y :: g)) by done.
  by rewrite !append_assoc.
Qed.

Lemma length_join_member sep g w :
  w ∈ g → 2 ≤ length g →
  String.length w < String.length (join (String sep EmptyString) g).
Proof.
  induction g as [|x g IH]; [by inversion 1|].
  intros Hin Hlen. destruct g as [|y g]; [simpl in Hlen; lia|].
  rewrite join_cons by done. rewrite !length_append. cbn [String.length].
  apply elem_of_cons in Hin as [->|Hin]; [lia|].
  destruct g as [|z g].
  - apply list_elem_of_singleton in Hin as ->. simpl. lia.
  - specialize (IH Hin). simpl in IH. simpl. lia.
Qed.

End SplitJoin.

(* ===================================================================== *)
(** * Text wrapping                                                       *)
(* ===================================================================== *)

Section Wrapping.

Variables cw maxWidth : number.

Lemma wrapLoop_groups (words : list string) :
  ∀ g0, g0 ≠ [] →
    (2 ≤ length g0 → fits cw maxWidth (join SP g0) = true) →
    ∃ groups,
      wrapLoop cw maxWidth (join SP g0) words = join SP <$> groups ∧
      concat groups = g0 ++ words ∧
      Forall (fun g => g ≠ []) groups ∧
      Forall (fun g => 2 ≤ length g → fits cw maxWidth (join SP g) = true) groups.
Proof.
  induction words as [|word rest IH]; intros g0 Hne Hfit; cbn [wrapLoop].
  - exists [g0]. simpl. rewrite !app_nil_r. repeat split; by repeat constructor.
  - destruct (ltb _ maxWidth) eqn:E.
    + rewrite <- join_snoc by done.
      destruct (IH (g0 ++ [word])) as (groups & H1 & H2 & H3 & H4).
      * by destruct g0.
      * intros _. unfold fits. rewrite join_snoc by done.
        rewrite !length_append.
        replace (String.length (join SP g0)
                 + (String.length SP + String.length word))
          with (String.length (join SP g0) + 1 + String.length word)
          by (unfold SP; simpl; lia).
        exact E.
      * exists groups. rewrite <- app_assoc in H2. done.
    + destruct (IH [word]) as (groups & H1 & H2 & H3 & H4).
      * done.
      * simpl. lia.
      * exists (g0 :: groups). change (join SP [word]) with word in H1.
        rewrite H1, fmap_cons. cbn [concat]. rewrite H2.
        repeat split; try done; by constructor.
Qed.

Lemma wrapParagraph_groups (paragraph : string) :
  ∃ groups,
    Forall2 lineOf (wrapParagraph cw maxWidth paragraph) groups ∧
    concat groups = (if truthyS paragraph then split space paragraph else []) ∧
    Forall (fun g => 2 ≤ length g → fits cw maxWidth (join SP g) = true) groups.
Proof.
  unfold wrapParagraph. destruct (truthyS paragraph).
  - pose proof (split_nonempty space paragraph) as Hne.
    destruct (split space paragraph) as [|first rest]; [done|].
    destruct (wrapLoop_groups rest [first]) as (groups & H1 & H2 & H3 & H4).
    + done.
    + simpl. lia.
    + exists groups. simpl in H1. rewrite H1. split; [|done].
      clear -H3. induction groups as [|g groups IH]; simpl; [constructor|].
      inversion H3; subst. constructor; [by right|by apply IH].
  - exists [[]]. split; [|split].
    + repeat constructor.
    + done.
    + repeat constructor. simpl. lia.
Qed.

Lemma wrapParagraphs_groups (paragraphs : list string) :
  ∃ groups,
    Forall2 lineOf (flat_map (wrapParagraph cw maxWidth) paragraphs) groups ∧
    concat groups
    = flat_map (fun p => if truthyS p then split space p else []) paragraphs ∧
    Forall (fun g => 2 ≤ length g → fits cw maxWidth (join SP g) = true) groups.
Proof.
  induction paragraphs as [|p ps IH]; simpl.
  - exists []. repeat split; constructor.
  - destruct IH as (gs & H1 & H2 & H3).
    destruct (wrapParagraph_groups p) as (g & G1 & G2 & G3).
    exists (g ++ gs). split; [|split].
    + by apply Forall2_app.
    + by rewrite concat_app, G2, H2.
    + by apply Forall_app.
Qed.

End Wrapping.

Lemma ltb_true (x y : Q) : ltb (Num x) (Num y) = true ↔ (x < y)%Q.
Proof.
  unfold ltb. rewrite negb_true_iff. split.
  - intros H. apply Qnot_le_lt. intros Hle.
    apply Qle_bool_iff in Hle. congruence.
  - intros H. destruct (Qle_bool y x) eqn:E; [|done].
    apply Qle_bool_iff in E. exfalso. by apply (Qlt_not_le x y).
Qed.

Lemma fits_shorter (c m : Q) (a b : string) :
  (0 < c)%Q → String.length a ≤ String.length b →
  fits (Num c) (Num m) b = true → fits (Num c) (Num m) a = true.
Proof.
  unfold fits, ofNat, mul. rewrite !ltb_true. intros Hc Hlen Hb.
  eapply Qle_lt_trans; [|exact Hb].
  apply Qmult_le_compat_r; [|by apply Qlt_le_weak].
  rewrite <- Zle_Qle. lia.
Qed.

Lemma filter_words_of_lines (lines : list string) (groups : list (list string)) :
  Forall2 lineOf lines groups →
  Forall (fun w => hasChar space w = false) (concat groups) →
  filter (fun w : string => w ≠ "") (flat_map (split space) lines)
  = filter (fun w : string => w ≠ "") (concat groups).
Proof.
  induction 1 as [|line g lines groups Hl _ IH]; [done|].
  cbn [flat_map concat]. rewrite Forall_app. intros [Hg Hgs].
  rewrite !filter_app, IH by done. f_equal.
  destruct Hl as [[-> ->]|[Hne ->]].
  - done.
  - unfold SP. by rewrite split_join.
Qed.

(** C2.  For every text, every positive maximum width and every positive
    font size, the lines [wrapText] returns carry the words of the text,
    whole and in order: there is a cutting of the sequence of the words of
    the text into consecutive groups, one per line, such that each line is
    its group joined by single spaces (the spacer line of an empty
    paragraph carries no word); so every word is in one line and no word is
    split.  A word whose own estimated width is not under the maximum width
    is alone on its line.  Splitting the lines again on spaces gives back
    the words of the text, in their order. *)
Theorem wrapText_whole_words (text : string) (maxWidth fontSize : Q) :
  (0 < maxWidth)%Q → (0 < fontSize)%Q →
  let lines := wrapText text (Num maxWidth) (Num fontSize) in
  ∃ groups : list (list string),
    Forall2 lineOf lines groups ∧
    concat groups = wordsOf text ∧
    (∀ g w, g ∈ groups → w ∈ g →
            fits (charWidth (Num fontSize)) (Num maxWidth) w = false → g = [w]) ∧
    filter (fun w : string => w ≠ "") (flat_map (split space) lines)
    = filter (fun w : string => w ≠ "") (wordsOf text).
Proof.
  intros Hmw Hfs lines.
  assert (Hfree : Forall (fun w => hasChar space w = false) (wordsOf text)).
  { unfold wordsOf. generalize (split newline text). intros ps.
    induction ps as [|p ps IH]; simpl; [constructor|].
    apply Forall_app. split; [|done].
    destruct (truthyS p); [apply split_sep_free|constructor]. }
  assert (Hgroups : ∃ groups,
             Forall2 lineOf lines groups ∧ concat groups = wordsOf text ∧
             Forall (fun g => 2 ≤ length g →
                       fits (charWidth (Num fontSize)) (Num maxWidth) (join SP g) = true)
                    groups).
  { subst lines. unfold wrapText, wordsOf. destruct text as [|ch text].
    - exists []. repeat split; constructor.
    - cbn [truthyS]. apply wrapParagraphs_groups. }
  destruct Hgroups as (groups & H1 & H2 & H3).
  exists groups. split; [done|]. split; [done|]. split.
  - intros g w Hg Hw Hover.
    rewrite Forall_forall in H3. specialize (H3 g Hg).
    destruct (decide (2 ≤ length g)) as [Hlen|Hlen].
    + exfalso. specialize (H3 Hlen).
      pose proof (length_join_member space g w Hw Hlen) as Hlt.
      assert (Hc : (0 < fontSize * (55 # 100))%Q).
      { apply Qmult_lt_0_compat; [done|reflexivity]. }
      unfold charWidth, mul in H3, Hover.
      rewrite (fits_shorter _ _ w (join SP g) Hc) in Hover; [done| |done].
      unfold SP. lia.
    + destruct g as [|x [|y g]]; [by inversion Hw| |simpl in Hlen; lia].
      by apply list_elem_of_singleton in Hw as ->.
  - rewrite <- H2. apply filter_words_of_lines; [done|]. by rewrite H2.
Qed.

Lemma wrapText_whole_words_witness :
  ∃ groups : list (list string),
    Forall2 lineOf (wrapText "The quick brown fox" (Num 100) (Num 16)) groups ∧
    concat groups = wordsOf "The quick brown fox".
Proof.
  destruct (wrapText_whole_words "The quick brown fox" 100 16)
    as (groups & H1 & H2 & _).
  - reflexivity.
  - reflexivity.
  - exists groups. by split.
Defined.

(** The example of the specification: four words, two per line. *)
Example wrap_fox :
  wrapText "The quick brown fox" (Num 100) (Num 16) = ["The quick"; "brown fox"].
Proof. vm_compute. reflexivity. Qed.

Example wrap_empty : wrapText "" (Num 100) (Num 16) = [].
Proof. reflexivity. Qed.

(** An empty paragraph between two newlines yields the spacer line, and a
    word wider than the maximum width stands alone. *)
Example wrap_paragraphs :
  wrapText (join NL ["a b"; ""; "incomprehensibilities c"]) (Num 100) (Num 16)
  = ["a b"; " "; "incomprehensibilities"; "c"].
Proof. vm_compute. reflexivity. Qed.

(* ===================================================================== *)
(** * Row heights, in the words of the specification                      *)
(* ===================================================================== *)

Section RowHeightSpec.

Lemma eqv_refl (a : number) : a ≈ a.
Proof. destruct a; simpl; [apply Qeq_refl|exact I]. Qed.

Lemma eqv_sym (a b : number) : a ≈ b → b ≈ a.
Proof. destruct a, b; simpl; try done; intros H; by symmetry. Qed.

Lemma eqv_trans (a b c : number) : a ≈ b → b ≈ c → a ≈ c.
Proof.
  destruct a, b, c; simpl; try done; intros H1 H2; by rewrite H1.
Qed.

Lemma add_eqv (a a' b b' : number) : a ≈ a' → b ≈ b' → add a b ≈ add a' b'.
Proof.
  destruct a, a', b, b'; simpl; try done; intros H1 H2; by rewrite H1, H2.
Qed.

Lemma sub_eqv (a a' b b' : number) : a ≈ a' → b ≈ b' → sub a b ≈ sub a' b'.
Proof.
  destruct a, a', b, b'; simpl; try done; intros H1 H2; by rewrite H1, H2.
Qed.

Lemma ltb_eqv (x m m' : number) : m ≈ m' → ltb x m = ltb x m'.
Proof.
  destruct x as [x|], m as [m|], m' as [m'|]; simpl; try done.
  intros H. f_equal.
  destruct (Qle_bool m x) eqn:E1, (Qle_bool m' x) eqn:E2; try done.
  - apply Qle_bool_iff in E1. rewrite H in E1.
    apply Qle_bool_iff in E1. congruence.
  - apply Qle_bool_iff in E2. rewrite <- H in E2.
    apply Qle_bool_iff in E2. congruence.
Qed.

(** Clamping the maximum width at 0 changes no comparison with a positive
    width. *)
Lemma ltb_clamp (x : Q) (m : number) :
  (0 < x)%Q → ltb (Num x) (Math_max (Num 0) m) = ltb (Num x) m.
Proof.
  intros Hx. destruct m as [q|]; [|done]. cbn [Math_max].
  destruct (ltb (Num x) (Num q)) eqn:E.
  - apply ltb_true. apply ltb_true in E. apply Q.max_lt_iff. by right.
  - destruct (ltb (Num x) (Num (Qmax 0 q))) eqn:E'; [|done].
    apply ltb_true in E'. apply Q.max_lt_iff in E' as [H|H].
    + exfalso. by apply (Qlt_irrefl 0), (Qlt_trans _ x).
    + apply ltb_true in H. congruence.
Qed.

Lemma wrapLoop_ext (cw m1 m2 : number) :
  (∀ n, 1 ≤ n → ltb (mul (ofNat n) cw) m1 = ltb (mul (ofNat n) cw) m2) →
  ∀ words cur, wrapLoop cw m1 cur words = wrapLoop cw m2 cur words.
Proof.
  intros Hext. induction words as [|word rest IH]; intros cur; [done|].
  cbn [wrapLoop]. rewrite Hext by lia. by rewrite !IH.
Qed.

Lemma wrapText_ext (text : string) (m1 m2 fs : number) :
  (∀ n, 1 ≤ n → ltb (mul (ofNat n) (charWidth fs)) m1
                = ltb (mul (ofNat n) (charWidth fs)) m2) →
  wrapText text m1 fs = wrapText text m2 fs.
Proof.
  intros Hext. unfold wrapText. destruct (truthyS text); [|done].
  induction (split newline text) as [|p ps IH]; [done|].
  cbn [flat_map]. rewrite IH. f_equal.
  unfold wrapParagraph. destruct (truthyS p); [|done].
  destruct (split space p); [done|]. by apply wrapLoop_ext.
Qed.

Lemma charWidth_positive (n : nat) (fs : Q) :
  1 ≤ n → (0 < fs)%Q →
  ∃ x, mul (ofNat n) (charWidth (Num fs)) = Num x ∧ (0 < x)%Q.
Proof.
  intros Hn Hfs. eexists. split; [reflexivity|].
  apply Qmult_lt_0_compat.
  - change 0%Q with (inject_Z 0). rewrite <- Zlt_Qlt. lia.
  - apply Qmult_lt_0_compat; [done|reflexivity].
Qed.

(** Wrapping at the clamped width of the code and at any width equal to
    the unclamped one give the same lines. *)
Lemma wrapText_clamp (text : string) (m m' : number) (fs : Q) :
  (0 < fs)%Q → m ≈ m' →
  wrapText text (Math_max (Num 0) m) (Num fs) = wrapText text m' (Num fs).
Proof.
  intros Hfs Hm. apply wrapText_ext. intros n Hn.
  destruct (charWidth_positive n fs Hn Hfs) as (x & -> & Hx).
  rewrite ltb_clamp by done. by apply ltb_eqv.
Qed.

Lemma fontSizeOf_positive (rowIndex : nat) : (0 < fontSizeOf rowIndex)%Q.
Proof. unfold fontSizeOf. by destruct (rowIndex =? 0). Qed.

End RowHeightSpec.

Section RowHeightWordsProofs.

Variable config : TableConfig.
Variable cw : list (option number).

Lemma foldl_add_eqv (f : nat → number) (ks : list nat) :
  ∀ a a', a ≈ a' →
    foldl (fun w k => add w (f k)) a ks ≈ foldl (fun w k => add w (f k)) a' ks.
Proof.
  induction ks as [|k ks IH]; intros a a' Ha; simpl; [done|].
  apply IH. apply add_eqv; [done|apply eqv_refl].
Qed.

Lemma cellWidth_effective (cell : TableCell) (colIndex : nat) :
  1 ≤ colSpan cell → cellWidth cw cell colIndex ≈ effectiveWidth cw cell colIndex.
Proof.
  intros Hspan. unfold effectiveWidth, sumWidths, spannedWidths.
  rewrite foldl_fmap.
  replace (seq 0 (colSpan cell)) with (0 :: seq 1 (colSpan cell - 1))
    by (destruct (colSpan cell); [lia|]; simpl; by rewrite Nat.sub_0_r).
  cbn [foldl]. rewrite Nat.add_0_r.
  assert (Hw0 : toNumber (aget cw colIndex)
                ≈ add (Num 0) (toNumber (aget cw colIndex))).
  { destruct (toNumber (aget cw colIndex)); simpl; [|done]. ring. }
  unfold cellWidth. destruct (Nat.ltb_spec 1 (colSpan cell)).
  - by apply foldl_add_eqv.
  - by replace (colSpan cell - 1) with 0 by lia.
Qed.

Lemma contentWidth_lines (fontSize : Q) (cell : TableCell) (colIndex : nat) :
  (0 < fontSize)%Q → 1 ≤ colSpan cell →
  length (wrapText (value cell) (contentWidth config cw cell colIndex)
            (Num fontSize))
  = lineCount config cw fontSize colIndex cell.
Proof.
  intros Hfs Hspan. unfold lineCount, contentWidth. f_equal.
  apply wrapText_clamp; [done|].
  apply sub_eqv; [by apply cellWidth_effective|]. simpl. ring.
Qed.

Lemma foldr_max_acc (l : list nat) :
  ∀ m x, foldr Nat.max (Nat.max m x) l = Nat.max x (foldr Nat.max m l).
Proof.
  induction l as [|y l IH]; intros m x; cbn [foldr]; [lia|].
  rewrite IH. lia.
Qed.

Lemma maxLines_spec (fontSize : Q) (row : list TableCell) :
  (0 < fontSize)%Q →
  Forall (fun cell => 1 ≤ rowSpan cell ∧ 1 ≤ colSpan cell) row →
  ∀ j0 m,
    forEachFrom j0 (maxLinesStep config cw fontSize) row m
    = foldr Nat.max m (measuredLinesFrom config cw fontSize j0 row).
Proof.
  intros Hfs. induction 1 as [|cell row [Hr Hc] _ IH]; intros j0 m; [done|].
  cbn [forEachFrom]. rewrite IH.
  unfold measuredLinesFrom. rewrite imap_cons. cbn [omap list_omap].
  rewrite Nat.add_0_r.
  rewrite (imap_ext ((fun i cell => (j0 + i, cell)) ∘ S)
                    (fun i cell => (S j0 + i, cell)))
    by (intros; simpl; f_equal; lia).
  unfold maxLinesStep at 1, measured at 2. cbn [fst snd].
  destruct (hidden cell); simpl.
  - reflexivity.
  - destruct (Nat.ltb_spec 1 (rowSpan cell));
      destruct (Nat.eqb_spec (rowSpan cell) 1); try lia; try reflexivity.
    rewrite contentWidth_lines by done. cbn [foldr].
    by rewrite foldr_max_acc.
Qed.

Lemma autoHeight_spec (rowIndex : nat) (row : list TableCell) :
  Forall (fun cell => 1 ≤ rowSpan cell ∧ 1 ≤ colSpan cell) row →
  autoHeight config cw rowIndex row ≈ autoHeightSpec config cw rowIndex row.
Proof.
  intros Hrow. unfold autoHeight, autoHeightSpec, forEach.
  rewrite maxLines_spec by (done || apply fontSizeOf_positive).
  unfold maxLinesSpec, fontSizeOf, ofNat, mul, add, Math_max, eqv.
  apply Q.max_compat; [reflexivity|]. ring.
Qed.

End RowHeightWordsProofs.


(** The row heights away from the override 0.  For every grid whose
    cells have spans of at least 1 and every row of it: if a height
    override other than 0 exists for the row, the row height is the
    override, not scaled; without override, and at an override of 0, it
    is
    [max(50, maxLines × fontSize × 1.4 + 2 × padding)], where [fontSize] is
    20 for row 0 and 16 otherwise and [maxLines] is the maximum, floored at
    1, over the visible cells of the row whose row-span is 1, of the number
    of lines of the cell's text wrapped at its effective width (the sum of
    the widths of the columns it spans) minus twice the padding.  An
    empty-string cell wraps to no line and so counts for 1. *)
Theorem rowHeights_resolved (data : TableData) (config : TableConfig)
        (rowIndex : nat) (row : list TableCell) :
  data !! rowIndex = Some row →
  Forall (fun cell => 1 ≤ rowSpan cell ∧ 1 ≤ colSpan cell) row →
  (∃ h, rowHeights data config !! rowIndex = Some h ∧
        h ≈ match customRowHeights config !! rowIndex with
            | Some override =>
                if Qeq_bool override 0
                then autoHeightSpec config (colWidths data config) rowIndex row
                else Num override
            | None => autoHeightSpec config (colWidths data config) rowIndex row
            end) ∧
  (∀ fontSize colIndex cell,
     value cell = "" →
     lineCount config (colWidths data config) fontSize colIndex cell = 0 ∧
     Nat.max 1 (lineCount config (colWidths data config) fontSize colIndex cell) = 1).
Proof.
  intros Hrow Hspans. split.
  - eexists. split; [by apply rowHeights_lookup|].
    unfold rowHeight, truthyQ.
    destruct (customRowHeights config !! rowIndex) as [h|].
    + destruct (Qeq_bool h 0); simpl negb; cbv iota.
      * by apply autoHeight_spec.
      * apply eqv_refl.
    + by apply autoHeight_spec.
  - intros fontSize colIndex cell Hv. unfold lineCount. rewrite Hv. done.
Qed.

Lemma rowHeights_resolved_witness :
  ∃ h, rowHeights threeColumns defaultConfig !! 0 = Some h ∧
       h ≈ autoHeightSpec defaultConfig (colWidths threeColumns defaultConfig) 0
             [plainCell "1" "a"; plainCell "2" "b"; plainCell "3" "c"].
Proof.
  destruct (rowHeights_resolved threeColumns defaultConfig 0
              [plainCell "1" "a"; plainCell "2" "b"; plainCell "3" "c"])
    as [(h & H1 & H2) _].
  - reflexivity.
  - repeat constructor.
  - exists h. split; [done|].
    replace (customRowHeights defaultConfig !! 0) with (@None Q) in H2
      by (vm_compute; reflexivity).
    exact H2.
Defined.

(* ===================================================================== *)
(** * Loops over a rectangle of the grid                                  *)
(* ===================================================================== *)

Section RectLoops.

Context {St : Type}.

Lemma foldSteps_None {I} (body : I → St → option St) (l : list I) :
  foldSteps body None l = None.
Proof. induction l as [|i l IH]; [done|]. exact IH. Qed.

Lemma foldSteps_bind {I} (body : I → St → option St) (l : list I) (o : option St) :
  o ≫= (fun s => foldSteps body (Some s) l) = foldSteps body o l.
Proof. destruct o; [done|]. by rewrite foldSteps_None. Qed.

Lemma foldSteps_app {I} (body : I → St → option St) (l1 l2 : list I) o :
  foldSteps body o (l1 ++ l2) = foldSteps body (foldSteps body o l1) l2.
Proof. unfold foldSteps. by rewrite foldl_app. Qed.

Lemma forUpTo_nested (rlo rhi clo chi : nat)
      (body : nat → nat → St → option St) (s : St) :
  forUpTo rlo rhi (fun r => forUpTo clo chi (body r)) s
  = foldSteps (fun rc => body rc.1 rc.2) (Some s) (rectCoords rlo rhi clo chi).
Proof.
  unfold forUpTo, rectCoords. generalize (Some s) as o.
  generalize (seq rlo (rhi - rlo)) as rows.
  induction rows as [|r rows IH]; intros o; [done|].
  cbn [foldl]. rewrite IH. rewrite bind_cons, foldSteps_app. f_equal.
  change (o ≫= (fun s0 => foldSteps (body r) (Some s0) (seq clo (chi - clo)))
          = foldSteps (fun rc => body rc.1 rc.2) o
                      (c ← seq clo (chi - clo); [(r, c)])).
  rewrite foldSteps_bind.
  generalize (seq clo (chi - clo)) as cols. revert o.
  intros o cols. revert o.
  induction cols as [|c cols IHc]; intros o; [done|].
  rewrite bind_cons. simpl. apply IHc.
Qed.

Lemma elem_of_rectCoords (rlo rhi clo chi r c : nat) :
  (r, c) ∈ rectCoords rlo rhi clo chi ↔ (rlo ≤ r < rhi) ∧ (clo ≤ c < chi).
Proof.
  unfold rectCoords. rewrite list_elem_of_bind. split.
  - intros (r' & Hc & Hr). apply list_elem_of_bind in Hc as (c' & Hrc & Hc).
    apply list_elem_of_singleton in Hrc. inversion Hrc; subst.
    apply elem_of_seq in Hr, Hc. lia.
  - intros [Hr Hc]. exists r. split.
    + apply list_elem_of_bind. exists c. split; [by apply list_elem_of_singleton|].
      apply elem_of_seq. lia.
    + apply elem_of_seq. lia.
Qed.

End RectLoops.

(* ===================================================================== *)
(** * Merging and unmerging                                               *)
(* ===================================================================== *)

Section Merge.

Implicit Types (g : list (list TableCell)) (rg : range).

Lemma cellAt_updCell (f : TableCell → TableCell) g r c r' c' :
  cellAt (updCell f r c g) r' c'
  = if decide (r' = r ∧ c' = c) then f <$> cellAt g r c else cellAt g r' c'.
Proof.
  unfold cellAt, updCell. case_decide as H.
  - destruct H as [-> ->]. rewrite list_lookup_alter_eq.
    destruct (g !! r) as [row|]; simpl; [|done].
    by rewrite list_lookup_alter_eq.
  - destruct (decide (r' = r)) as [->|Hr].
    + rewrite list_lookup_alter_eq.
      destruct (g !! r) as [row|]; simpl; [|done].
      rewrite list_lookup_alter_ne by naive_solver. done.
    + by rewrite list_lookup_alter_ne.
Qed.

Lemma rewriteSteps_spec (f : TableCell → TableCell) (skipR skipC : nat)
      (Hidem : ∀ x, f (f x) = f x) (l : list (nat * nat)) :
  ∀ g, Forall (fun rc => is_Some (cellAt g rc.1 rc.2)) l →
    ∃ g', foldSteps (rewriteStep f skipR skipC) (Some g) l = Some g' ∧
          ∀ r c, cellAt g' r c
                 = if decide ((r, c) ∈ l ∧ ¬ (r = skipR ∧ c = skipC))
                   then f <$> cellAt g r c else cellAt g r c.
Proof.
  induction l as [|[r0 c0] l IH]; intros g Hall.
  - exists g. split; [done|]. intros r c. case_decide as H; [|done].
    destruct H as [H _]. by apply elem_of_nil in H.
  - inversion Hall as [|? ? [cell0 H0] Hl]; subst. simpl in H0.
    cbn [foldSteps foldl mbind option_bind]. unfold rewriteStep at 2.
    cbn [fst snd].
    destruct ((r0 =? skipR) && (c0 =? skipC)) eqn:E.
    + apply andb_true_iff in E as [Er Ec].
      apply Nat.eqb_eq in Er, Ec. subst.
      destruct (IH g Hl) as (g' & Hg' & Hcells).
      exists g'. split; [done|]. intros r c. rewrite Hcells.
      apply decide_ext. rewrite elem_of_cons. split.
      * intros [Hin Hne]. split; [by right|done].
      * intros [[Heq|Hin] Hne]; [|done].
        inversion Heq; subst. by destruct Hne.
    + rewrite H0. simpl.
      assert (Hl' : Forall (fun rc => is_Some (cellAt (updCell f r0 c0 g) rc.1 rc.2)) l).
      { eapply Forall_impl; [exact Hl|]. intros [r c] [x Hx]. simpl in *.
        rewrite cellAt_updCell. case_decide as Hd.
        - destruct Hd as [-> ->]. rewrite H0. by eexists.
        - by eexists. }
      destruct (IH _ Hl') as (g' & Hg' & Hcells).
      exists g'. split; [done|]. intros r c. rewrite Hcells.
      rewrite cellAt_updCell.
      assert (Hskip : ¬ (r0 = skipR ∧ c0 = skipC)).
      { intros [-> ->]. by rewrite !Nat.eqb_refl in E. }
      destruct (decide (r = r0 ∧ c = c0)) as [[-> ->]|Hne].
      * rewrite H0. simpl.
        rewrite (decide_True (P := (r0, c0) ∈ (r0, c0) :: l ∧ _))
          by (split; [apply list_elem_of_here|done]).
        case_decide; simpl; by rewrite ?Hidem.
      * apply decide_ext. rewrite elem_of_cons. split.
        -- intros [Hin Hn]. split; [by right|done].
        -- intros [[Heq|Hin] Hn]; [|done].
           inversion Heq; subst. by destruct Hne.
Qed.

End Merge.

Section MergeValue.

Implicit Types (g : list (list TableCell)) (rg : range).

Lemma truthyS_spec (s : string) : truthyS s = true ↔ s ≠ "".
Proof. destruct s; simpl; split; try done. Qed.

Lemma truthyS_join (v : string) (vs : list string) :
  v ≠ "" → truthyS (join NL (v :: vs)) = true.
Proof.
  intros Hv. destruct vs as [|w vs].
  - by apply truthyS_spec.
  - rewrite join_cons by done. destruct v; [done|]. by rewrite append_String.
Qed.

Lemma combine_spec g (l : list (nat * nat)) :
  Forall (fun rc => is_Some (cellAt g rc.1 rc.2)) l →
  ∀ vs, Forall (fun v : string => v ≠ "") vs →
    foldSteps (fun rc => combineStep g rc.1 rc.2) (Some (join NL vs)) l
    = Some (join NL
              (vs ++ valuesToJoin (omap (fun rc : nat * nat => cellAt g rc.1 rc.2) l))).
Proof.
  induction 1 as [|[r c] l [cell Hcell] _ IH]; intros vs Hvs.
  - simpl. by rewrite app_nil_r.
  - simpl in Hcell. cbn [foldSteps foldl mbind option_bind omap list_omap fst snd].
    unfold combineStep at 2. rewrite Hcell. cbn [mbind option_bind].
    unfold valuesToJoin. rewrite filter_cons.
    destruct (hidden cell) eqn:Eh; cbn [negb andb].
    + rewrite decide_False by done. by apply IH.
    + rewrite decide_True by done. rewrite fmap_cons, filter_cons.
      destruct (truthyS (value cell)) eqn:Ev.
      * apply truthyS_spec in Ev. rewrite decide_True by done.
        replace (String.append (join NL vs)
                   (String.append (if truthyS (join NL vs) then NL else "")
                                  (value cell)))
          with (join NL (vs ++ [value cell])).
        -- fold (foldSteps (fun rc => combineStep g rc.1 rc.2)
                           (Some (join NL (vs ++ [value cell]))) l).
           rewrite IH by (apply Forall_app; split; [done|by constructor]).
           by rewrite <- app_assoc.
        -- destruct vs as [|v vs]; [done|].
           inversion Hvs; subst. rewrite truthyS_join by done.
           by rewrite join_snoc.
      * rewrite decide_False; [by apply IH|].
        intros Hne. apply truthyS_spec in Hne. congruence.
Qed.

End MergeValue.

Section MergeSpec.

Implicit Types (g : list (list TableCell)) (rg : range).

Lemma asHidden_idem rg (x : TableCell) : asHidden rg (asHidden rg x) = asHidden rg x.
Proof. done. Qed.

Lemma asShown_idem (x : TableCell) : asShown (asShown x) = asShown x.
Proof. done. Qed.

Lemma in_rangeCoords rg r c :
  (r, c) ∈ rangeCoords rg
  ↔ (minR rg ≤ r ≤ maxR rg) ∧ (minC rg ≤ c ≤ maxC rg).
Proof. unfold rangeCoords. rewrite elem_of_rectCoords. lia. Qed.

Lemma getRange_ordered (sel : Selection) rg :
  getRange (Some sel) = Some rg →
  minR rg ≤ maxR rg ∧ minC rg ≤ maxC rg.
Proof. intros H. inversion H; subst; simpl. lia. Qed.

(** What [mergeCells] computes on a selection of more than one position
    that lies in the grid. *)
Lemma mergeCells_cells (st : state) (sel : Selection) rg :
  selection st = Some sel →
  getRange (Some sel) = Some rg →
  (minR rg =? maxR rg) && (minC rg =? maxC rg) = false →
  inGrid (data st) rg →
  ∃ g',
    mergeCells st
    = Some (mkState g' (config st)
              (Some (mkSel (mkCoord (minR rg) (minC rg))
                           (mkCoord (minR rg) (minC rg))))) ∧
    ∀ r c,
      cellAt g' r c
      = if decide (r = minR rg ∧ c = minC rg)
        then asMaster (joinedValue (data st) rg) rg <$> cellAt (data st) r c
        else if decide ((r, c) ∈ rangeCoords rg)
             then asHidden rg <$> cellAt (data st) r c
             else cellAt (data st) r c.
Proof.
  intros Hsel Hrg Hmany Hin. unfold mergeCells.
  rewrite Hsel, Hrg, Hmany. rewrite forUpTo_nested.
  pose proof (combine_spec (data st) _ Hin [] (Forall_nil_2 _)) as Hcomb.
  change (join NL []) with "" in Hcomb. fold (rangeCoords rg).
  rewrite Hcomb. cbn [mbind option_bind app].
  fold (rangeCells (data st) rg). fold (joinedValue (data st) rg).
  assert (Hmaster : is_Some (cellAt (data st) (minR rg) (minC rg))).
  { unfold inGrid in Hin. rewrite Forall_forall in Hin.
    apply (Hin (minR rg, minC rg)).
    apply in_rangeCoords. simpl in Hrg. inversion Hrg; subst; simpl. lia. }
  destruct Hmaster as [master Hmaster]. rewrite Hmaster. cbn [mbind option_bind].
  rewrite forUpTo_nested. fold (rangeCoords rg).
  set (g1 := updCell _ (minR rg) (minC rg) (data st)).
  assert (Hin1 : Forall (fun rc : nat * nat => is_Some (cellAt g1 rc.1 rc.2))
                        (rangeCoords rg)).
  { eapply Forall_impl; [exact Hin|]. intros [r c] [x Hx]. simpl in *.
    subst g1. rewrite cellAt_updCell. case_decide as Hd.
    - destruct Hd as [-> ->]. rewrite Hmaster. by eexists.
    - by eexists. }
  destruct (rewriteSteps_spec (asHidden rg) (minR rg) (minC rg)
              (asHidden_idem rg) _ g1 Hin1) as (g' & Hg' & Hcells).
  exists g'. split.
  - change (fun rc : nat * nat => hideStep rg rc.1 rc.2)
      with (rewriteStep (asHidden rg) (minR rg) (minC rg)).
    by rewrite Hg'.
  - intros r c. rewrite Hcells. subst g1. rewrite cellAt_updCell.
    destruct (decide (r = minR rg ∧ c = minC rg)) as [Hm|Hm].
    + destruct Hm as [-> ->].
      rewrite decide_False by (intros [_ Hn]; by apply Hn).
      done.
    + destruct (decide ((r, c) ∈ rangeCoords rg)) as [Hrc|Hrc].
      * by rewrite decide_True.
      * by rewrite decide_False by (intros [Hn _]; by apply Hrc).
Qed.

End MergeSpec.

(** C5.  Merging a selection of more than one position that lies in the
    grid: the cell at (minR, minC) becomes visible, with row-span
    [maxR - minR + 1], column-span [maxC - minC + 1] and, as value, the
    non-empty values of the cells of the rectangle that were not hidden,
    in row-major order, joined by newlines; every other cell of the
    rectangle becomes hidden, with spans 1, the empty value and the owner
    (minR, minC); the cells outside the rectangle are unchanged.  Merging
    all of the 2×2 grid A, B, C, D gives one visible cell at (0, 0) with
    value A, B, C, D joined by newlines, and three hidden cells. *)
Theorem mergeCells_spec :
  (∀ (st : state) (sel : Selection) (rg : range),
     selection st = Some sel →
     getRange (Some sel) = Some rg →
     (minR rg ≠ maxR rg ∨ minC rg ≠ maxC rg) →
     inGrid (data st) rg →
     ∃ st',
       mergeCells st = Some st' ∧
       (∃ master,
          cellAt (data st) (minR rg) (minC rg) = Some master ∧
          cellAt (data st') (minR rg) (minC rg)
          = Some (mkCell (id master) (joinedValue (data st) rg)
                         (maxR rg - minR rg + 1) (maxC rg - minC rg + 1)
                         false None None)) ∧
       (∀ r c,
          minR rg ≤ r ≤ maxR rg → minC rg ≤ c ≤ maxC rg →
          ¬ (r = minR rg ∧ c = minC rg) →
          ∃ cell,
            cellAt (data st) r c = Some cell ∧
            cellAt (data st') r c
            = Some (mkCell (id cell) "" 1 1 true
                           (Some (minR rg)) (Some (minC rg)))) ∧
       (∀ r c,
          ¬ (minR rg ≤ r ≤ maxR rg ∧ minC rg ≤ c ≤ maxC rg) →
          cellAt (data st') r c = cellAt (data st) r c)) ∧
  mergeCells (mkState grid2x2 defaultConfig (Some selectAll2x2))
  = Some (mkState
            [[mkCell "1" (join NL ["A"; "B"; "C"; "D"]) 2 2 false None None;
              mkCell "2" "" 1 1 true (Some 0) (Some 0)];
             [mkCell "3" "" 1 1 true (Some 0) (Some 0);
              mkCell "4" "" 1 1 true (Some 0) (Some 0)]]
            defaultConfig
            (Some (mkSel (mkCoord 0 0) (mkCoord 0 0)))).
Proof.
  split; [|vm_compute; reflexivity].
  intros st sel rg Hsel Hrg Hmany Hin.
  assert (Hb : (minR rg =? maxR rg) && (minC rg =? maxC rg) = false).
  { apply andb_false_iff. rewrite !Nat.eqb_neq. done. }
  destruct (mergeCells_cells st sel rg Hsel Hrg Hb Hin) as (g' & Hg' & Hcells).
  eexists. split; [exact Hg'|]. cbn [data].
  unfold inGrid in Hin. rewrite Forall_forall in Hin.
  split; [|split].
  - destruct (Hin (minR rg, minC rg)) as [master Hmaster].
    { apply in_rangeCoords. simpl in Hrg. inversion Hrg; subst; simpl. lia. }
    exists master. split; [done|].
    rewrite Hcells, decide_True by done. simpl in Hmaster. by rewrite Hmaster.
  - intros r c Hr Hc Hne.
    destruct (Hin (r, c)) as [cell Hcell]; [by apply in_rangeCoords|].
    exists cell. split; [done|].
    rewrite Hcells, decide_False, decide_True by (done || by apply in_rangeCoords).
    simpl in Hcell. by rewrite Hcell.
  - intros r c Hout. rewrite Hcells.
    pose proof (getRange_ordered sel rg Hrg) as Hord.
    rewrite decide_False by lia.
    rewrite decide_False; [done|]. by rewrite in_rangeCoords.
Qed.

Lemma mergeCells_spec_witness :
  ∃ st',
    mergeCells (mkState grid2x2 defaultConfig (Some selectAll2x2)) = Some st' ∧
    ∃ master,
      cellAt grid2x2 0 0 = Some master ∧
      cellAt (data st') 0 0
      = Some (mkCell (id master)
                (joinedValue grid2x2 (mkRange 0 1 0 1)) 2 2 false None None).
Proof.
  destruct mergeCells_spec as [Hgen _].
  destruct (Hgen (mkState grid2x2 defaultConfig (Some selectAll2x2))
                 selectAll2x2 (mkRange 0 1 0 1))
    as (st' & Hst' & Hmaster & _).
  - reflexivity.
  - reflexivity.
  - left. simpl. lia.
  - vm_compute. repeat constructor; by eexists.
  - exists st'. split; [exact Hst'|]. exact Hmaster.
Defined.

Section UnmergeSpec.

Implicit Types (g : list (list TableCell)) (rg : range).

(** What [unmergeCells] computes when the selection is the one cell
    (R, C) and the spans of that cell lie in the grid. *)
Lemma unmergeCells_cells (st : state) (R C : nat) (master : TableCell) :
  selection st = Some (mkSel (mkCoord R C) (mkCoord R C)) →
  cellAt (data st) R C = Some master →
  (rowSpan master =? 1) && (colSpan master =? 1) = false →
  Forall (fun rc : nat * nat => is_Some (cellAt (data st) rc.1 rc.2))
         (rectCoords R (R + rowSpan master) C (C + colSpan master)) →
  ∃ g',
    unmergeCells st = Some (mkState g' (config st) (selection st)) ∧
    ∀ r c,
      cellAt g' r c
      = if decide (r = R ∧ c = C)
        then withSpans1 <$> cellAt (data st) r c
        else if decide ((r, c) ∈ rectCoords R (R + rowSpan master)
                                            C (C + colSpan master))
             then asShown <$> cellAt (data st) r c
             else cellAt (data st) r c.
Proof.
  intros Hsel Hmaster Hspans Hin. unfold unmergeCells.
  rewrite Hsel. cbn [getRange selStart selEnd cr cc].
  rewrite !Nat.min_id, !Nat.max_id. cbn [minR minC].
  rewrite Hmaster. cbn [mbind option_bind]. rewrite Hspans.
  rewrite forUpTo_nested.
  set (g1 := updCell withSpans1 R C (data st)).
  assert (Hin1 : Forall (fun rc : nat * nat => is_Some (cellAt g1 rc.1 rc.2))
                   (rectCoords R (R + rowSpan master) C (C + colSpan master))).
  { eapply Forall_impl; [exact Hin|]. intros [r c] [x Hx]. simpl in *.
    subst g1. rewrite cellAt_updCell. case_decide as Hd.
    - destruct Hd as [-> ->]. rewrite Hmaster. by eexists.
    - by eexists. }
  destruct (rewriteSteps_spec asShown R C asShown_idem _ g1 Hin1)
    as (g' & Hg' & Hcells).
  exists g'. split.
  - change (fun rc : nat * nat => showStep (mkRange R R C C) rc.1 rc.2)
      with (rewriteStep asShown R C).
    by rewrite Hg'.
  - intros r c. rewrite Hcells. subst g1. rewrite cellAt_updCell.
    destruct (decide (r = R ∧ c = C)) as [Hm|Hm].
    + destruct Hm as [-> ->].
      by rewrite decide_False by (intros [_ Hn]; by apply Hn).
    + destruct (decide ((r, c) ∈ rectCoords R (R + rowSpan master)
                                             C (C + colSpan master)))
        as [Hrc|Hrc].
      * by rewrite decide_True.
      * by rewrite decide_False by (intros [Hn _]; by apply Hrc).
Qed.

End UnmergeSpec.

(** C6.  Merging a selection of more than one position that lies in the
    grid and unmerging at once: both operations succeed, and afterwards
    every cell of the rectangle has row-span 1 and column-span 1, is not
    hidden and has no owner coordinates.  The text is not restored: the
    cell at (minR, minC) keeps the joined text and every other cell of the
    rectangle has the empty text.  The cells outside the rectangle are the
    original ones.  On the 2×2 grid A, B, C, D the result differs from the
    original grid. *)
Theorem merge_unmerge :
  (∀ (st : state) (sel : Selection) (rg : range),
     selection st = Some sel →
     getRange (Some sel) = Some rg →
     (minR rg ≠ maxR rg ∨ minC rg ≠ maxC rg) →
     inGrid (data st) rg →
     ∃ st1 st2,
       mergeCells st = Some st1 ∧
       unmergeCells st1 = Some st2 ∧
       (∀ r c,
          minR rg ≤ r ≤ maxR rg → minC rg ≤ c ≤ maxC rg →
          ∃ cell,
            cellAt (data st) r c = Some cell ∧
            cellAt (data st2) r c
            = Some (mkCell (id cell)
                      (if decide (r = minR rg ∧ c = minC rg)
                       then joinedValue (data st) rg else "")
                      1 1 false None None)) ∧
       (∀ r c,
          ¬ (minR rg ≤ r ≤ maxR rg ∧ minC rg ≤ c ≤ maxC rg) →
          cellAt (data st2) r c = cellAt (data st) r c)) ∧
  (mergeCells (mkState grid2x2 defaultConfig (Some selectAll2x2))
     ≫= unmergeCells)
  = Some (mkState
            [[plainCell "1" (join NL ["A"; "B"; "C"; "D"]); plainCell "2" ""];
             [plainCell "3" ""; plainCell "4" ""]]
            defaultConfig
            (Some (mkSel (mkCoord 0 0) (mkCoord 0 0)))).
Proof.
  split; [|vm_compute; reflexivity].
  intros st sel rg Hsel Hrg Hmany Hin.
  pose proof (getRange_ordered sel rg Hrg) as Hord.
  assert (Hb : (minR rg =? maxR rg) && (minC rg =? maxC rg) = false).
  { apply andb_false_iff. rewrite !Nat.eqb_neq. done. }
  destruct (mergeCells_cells st sel rg Hsel Hrg Hb Hin) as (g1 & Hg1 & Hcells1).
  unfold inGrid in Hin. rewrite Forall_forall in Hin.
  destruct (Hin (minR rg, minC rg)) as [master Hmaster].
  { apply in_rangeCoords. simpl. lia. }
  simpl in Hmaster.
  set (st1 := mkState g1 (config st)
                (Some (mkSel (mkCoord (minR rg) (minC rg))
                             (mkCoord (minR rg) (minC rg))))) in *.
  set (m1 := asMaster (joinedValue (data st) rg) rg master).
  assert (Hm1 : cellAt (data st1) (minR rg) (minC rg) = Some m1).
  { subst st1 m1. cbn [data]. rewrite Hcells1, decide_True by done.
    by rewrite Hmaster. }
  assert (Hrect : rectCoords (minR rg) (minR rg + rowSpan m1)
                             (minC rg) (minC rg + colSpan m1)
                  = rangeCoords rg).
  { subst m1. unfold rangeCoords. cbn [asMaster rowSpan colSpan]. f_equal; lia. }
  destruct (unmergeCells_cells st1 (minR rg) (minC rg) m1) as (g2 & Hg2 & Hcells2).
  - done.
  - done.
  - subst m1. cbn [asMaster rowSpan colSpan].
    apply andb_false_iff. rewrite !Nat.eqb_neq. lia.
  - rewrite Hrect. apply Forall_forall. intros [r c] Hrc.
    destruct (Hin _ Hrc) as [x Hx]. simpl in *.
    subst st1. cbn [data]. rewrite Hcells1.
    repeat case_decide; rewrite Hx; by eexists.
  - exists st1, (mkState g2 (config st1) (selection st1)).
    split; [done|]. split; [done|]. cbn [data]. split.
    + intros r c Hr Hc.
      destruct (Hin (r, c)) as [cell Hcell]; [by apply in_rangeCoords|].
      simpl in Hcell. exists cell. split; [done|].
      rewrite Hcells2, Hrect. subst st1. cbn [data]. rewrite Hcells1.
      destruct (decide (r = minR rg ∧ c = minC rg)) as [Hm|Hm].
      * by rewrite Hcell.
      * rewrite !decide_True by (by apply in_rangeCoords). by rewrite Hcell.
    + intros r c Hout. rewrite Hcells2, Hrect. subst st1. cbn [data].
      rewrite Hcells1.
      rewrite decide_False by lia.
      rewrite decide_False by (by rewrite in_rangeCoords).
      rewrite decide_False by lia.
      by rewrite decide_False by (by rewrite in_rangeCoords).
Qed.

Lemma merge_unmerge_witness :
  ∃ st1 st2,
    mergeCells (mkState grid2x2 defaultConfig (Some selectAll2x2)) = Some st1 ∧
    unmergeCells st1 = Some st2 ∧
    ∀ r c, 0 ≤ r ≤ 1 → 0 ≤ c ≤ 1 →
           ∃ cell, cellAt grid2x2 r c = Some cell ∧
                   cellAt (data st2) r c
                   = Some (mkCell (id cell)
                             (if decide (r = 0 ∧ c = 0)
                              then joinedValue grid2x2 (mkRange 0 1 0 1) else "")
                             1 1 false None None).
Proof.
  destruct merge_unmerge as [Hgen _].
  destruct (Hgen (mkState grid2x2 defaultConfig (Some selectAll2x2))
                 selectAll2x2 (mkRange 0 1 0 1))
    as (st1 & st2 & H1 & H2 & H3 & _).
  - reflexivity.
  - reflexivity.
  - left. simpl. lia.
  - vm_compute. repeat constructor; by eexists.
  - exists st1, st2. split; [exact H1|]. split; [exact H2|]. exact H3.
Defined.

(* ===================================================================== *)
(** * One render pass: what depends on the random draws                   *)
(* ===================================================================== *)

Section SegmentsProofs.

Variable data : TableData.
Variable config : TableConfig.
Context {M : JsMath number}.
Variable rnd : nat → number.

Lemma strokes_keys k line seg x1 y1 x2 y2 n :
  key <$> (strokes rnd config k line seg x1 y1 x2 y2 n).1
  = keysOf config (mkSegment k line seg x1 y1 x2 y2).
Proof.
  unfold strokes, keysOf, Sketch.bind, Sketch.ret.
  destruct (Sketch.getRoughPath rnd x1 y1 x2 y2 _ _ n) as [p1 n1].
  destruct (negb (Qle_bool (roughness config) (1 # 2))); [|done].
  by destruct (Sketch.getRoughPath rnd x1 y1 x2 y2 _ _ n1) as [p2 n2].
Qed.

Lemma renderSegments_keys (segs : list segment) :
  ∀ st, key <$> (renderSegments config rnd st segs).1
        = (key <$> st.1) ++ flat_map (keysOf config) segs.
Proof.
  induction segs as [|s segs IH]; intros st; simpl.
  - by rewrite app_nil_r.
  - rewrite IH. unfold renderSegment.
    pose proof (strokes_keys (sDir s) (sLine s) (sSeg s)
                  (sX1 s) (sY1 s) (sX2 s) (sY2 s) st.2) as Hk.
    destruct (strokes rnd config _ _ _ _ _ _ _ st.2) as [new n'].
    simpl in *. rewrite fmap_app, Hk, <- app_assoc. by destruct s.
Qed.

Lemma horizontalBody_at (rc : nat * nat) (st : drawState) :
  horizontalBody rnd data config rc.1 rc.2 st
  = o ← horizontalAt data config rc;
    Some (from_option (renderSegment config rnd st) st o).
Proof.
  unfold horizontalBody, horizontalAt.
  destruct (shouldDrawH data rc.1 rc.2) as [[|]|]; simpl; try done.
  unfold renderSegment. simpl.
  by destruct (strokes rnd config _ _ _ _ _ _ _ st.2).
Qed.

Lemma verticalBody_at (cr : nat * nat) (st : drawState) :
  verticalBody rnd data config cr.1 cr.2 st
  = o ← verticalAt data config cr;
    Some (from_option (renderSegment config rnd st) st o).
Proof.
  unfold verticalBody, verticalAt.
  destruct (shouldDrawV data cr.1 cr.2) as [[|]|]; simpl; try done.
  unfold renderSegment. simpl.
  by destruct (strokes rnd config _ _ _ _ _ _ _ st.2).
Qed.

Lemma foldSteps_decided (decide_at : nat * nat → option (option segment))
      (body : nat * nat → drawState → option drawState)
      (Hbody : ∀ rc st, body rc st
                        = o ← decide_at rc;
                          Some (from_option (renderSegment config rnd st) st o))
      (l : list (nat * nat)) :
  ∀ st, foldSteps body (Some st) l
        = os ← mapM decide_at l;
          Some (renderSegments config rnd st
                  (omap (fun o : option segment => o) os)).
Proof.
  induction l as [|rc l IH]; intros st; [done|].
  cbn [foldSteps foldl mbind option_bind]. rewrite Hbody.
  cbn [mapM]. destruct (decide_at rc) as [o|]; cbn [mbind option_bind].
  - fold (foldSteps body (Some (from_option (renderSegment config rnd st) st o)) l).
    rewrite IH. destruct (mapM decide_at l) as [os|]; [|done].
    cbn [mbind option_bind mret option_ret omap list_omap].
    by destruct o.
  - apply foldSteps_None.
Qed.

(** The loops of [paths] are the decisions of the pass, made without the
    random stream, followed by the drawing of the decided segments. *)
Lemma paths_factor (n : nat) :
  paths rnd data config n
  = segs ← segmentsOf data config;
    Some (renderSegments config rnd ([], n) segs).
Proof.
  unfold paths, segmentsOf. rewrite forUpTo_nested.
  rewrite (foldSteps_decided (horizontalAt data config) _ horizontalBody_at).
  destruct (mapM (horizontalAt data config) _) as [hs|]; [|done].
  cbn [mbind option_bind]. rewrite forUpTo_nested.
  rewrite (foldSteps_decided (verticalAt data config) _ verticalBody_at).
  destruct (mapM (verticalAt data config) _) as [vs|]; [|done].
  cbn [mbind option_bind]. unfold renderSegments.
  by rewrite omap_app, foldl_app.
Qed.

End SegmentsProofs.

(** C9.  Two render passes of one grid and one style configuration, with
    any two streams of random draws started anywhere, compute the same
    column widths, row heights, offsets and total extent, and make the same
    decisions: there is one list of decided segments, with their end
    points, that depends on the grid and the configuration only, and each
    pass is the drawing of that list (or both passes throw); so both
    passes emit the same keys in the same order. *)
Theorem render_decisions_deterministic {M : JsMath number}
        (data : TableData) (config : TableConfig)
        (rnd1 rnd2 : nat → number) (n1 n2 : nat) :
  let p1 := renderPass rnd1 data config n1 in
  let p2 := renderPass rnd2 data config n2 in
  rColWidths p1 = rColWidths p2 ∧
  rRowHeights p1 = rRowHeights p2 ∧
  rXPositions p1 = rXPositions p2 ∧
  rYPositions p1 = rYPositions p2 ∧
  rTotalWidth p1 = rTotalWidth p2 ∧
  rTotalHeight p1 = rTotalHeight p2 ∧
  rPaths p1 = (segs ← segmentsOf data config;
               Some (renderSegments config rnd1 ([], n1) segs)) ∧
  rPaths p2 = (segs ← segmentsOf data config;
               Some (renderSegments config rnd2 ([], n2) segs)) ∧
  drawnKeys p1 = flat_map (keysOf config) <$> segmentsOf data config ∧
  drawnKeys p1 = drawnKeys p2.
Proof.
  intros p1 p2.
  assert (Hkeys : ∀ rnd n,
            drawnKeys (renderPass rnd data config n)
            = flat_map (keysOf config) <$> segmentsOf data config).
  { intros rnd n. unfold drawnKeys, renderPass. cbn [rPaths].
    rewrite paths_factor. destruct (segmentsOf data config) as [segs|]; [|done].
    simpl. by rewrite renderSegments_keys. }
  repeat split; try done.
  - apply paths_factor.
  - apply paths_factor.
  - apply Hkeys.
  - subst p1 p2. by rewrite !Hkeys.
Qed.

Section InvariantCheck.

Variable data : TableData.

Lemma coversb_covers R C cell r c :
  coversb R C cell r c = true ↔ covers R C cell r c.
Proof.
  unfold coversb, covers. rewrite !andb_true_iff.
  rewrite !Nat.leb_le, !Nat.ltb_lt. lia.
Qed.

Lemma forallb_elem {A} (f : A → bool) (l : list A) :
  forallb f l = true ↔ ∀ x, x ∈ l → f x = true.
Proof.
  rewrite forallb_forall. split; intros H x Hx; apply H;
    by apply list_elem_of_In.
Qed.

Lemma cellAt_bounds r c cell :
  (∀ r row, data !! r = Some row → length row = colCountOf data) →
  cellAt data r c = Some cell →
  r < rowCountOf data ∧ c < colCountOf data.
Proof.
  intros Hrect Hcell. unfold cellAt in Hcell.
  destruct (data !! r) as [row|] eqn:Hrow; [|done]. simpl in Hcell.
  split.
  - by apply lookup_lt_Some in Hrow.
  - rewrite <- (Hrect r row Hrow). by apply lookup_lt_Some in Hcell.
Qed.

Lemma cellAt_allCoords r c cell :
  (∀ r row, data !! r = Some row → length row = colCountOf data) →
  cellAt data r c = Some cell → (r, c) ∈ allCoords data.
Proof.
  intros Hrect Hcell. apply elem_of_rectCoords.
  pose proof (cellAt_bounds r c cell Hrect Hcell). lia.
Qed.

Lemma gridOk_wf : gridOk data = true → wf data.
Proof.
  unfold gridOk. rewrite !andb_true_iff. intros [[Hrect Hcells] Huniq].
  rewrite forallb_elem in Hrect. rewrite forallb_elem in Hcells.
  rewrite forallb_elem in Huniq.
  assert (Hr : ∀ r row, data !! r = Some row → length row = colCountOf data).
  { intros r row Hrow. apply Nat.eqb_eq, Hrect.
    by eapply list_elem_of_lookup_2. }
  assert (Hok : ∀ r c cell, cellAt data r c = Some cell →
            (1 ≤ rowSpan cell ∧ 1 ≤ colSpan cell) ∧
            (if hidden cell then hiddenOk data cell r c = true
             else r + rowSpan cell ≤ rowCountOf data
                  ∧ c + colSpan cell ≤ colCountOf data)).
  { intros r c cell Hcell.
    pose proof (Hcells _ (cellAt_allCoords r c cell Hr Hcell)) as H.
    unfold cellOk in H. cbn [fst snd] in H. rewrite Hcell in H.
    rewrite !andb_true_iff, !Nat.leb_le in H.
    destruct H as [[H1 H2] H3]. split; [done|].
    destruct (hidden cell); [done|].
    by rewrite andb_true_iff, !Nat.leb_le in H3. }
  split.
  - exact Hr.
  - intros r c cell Hcell. by destruct (Hok r c cell Hcell).
  - intros R C cell Hcell Hvis. destruct (Hok R C cell Hcell) as [_ H].
    by rewrite Hvis in H.
  - intros r c cell Hcell Hhid. destruct (Hok r c cell Hcell) as [_ H].
    rewrite Hhid in H. unfold hiddenOk in H.
    rewrite !andb_true_iff, !Nat.eqb_eq, negb_true_iff in H.
    destruct H as [[[H1 H2] H3] H4].
    split; [done|]. split; [done|]. split.
    { destruct (value cell); [done|discriminate]. }
    destruct (ownerRow cell) as [R|]; [|done].
    destruct (ownerCol cell) as [C|]; [|done].
    destruct (cellAt data R C) as [owner|] eqn:Ho; [|done].
    apply andb_true_iff in H4 as [H4 H5].
    apply coversb_covers in H5. apply negb_true_iff in H4.
    exists R, C, owner. done.
  - intros r c R1 C1 o1 R2 C2 o2 H1 Hv1 Hc1 H2 Hv2 Hc2.
    assert (Hin : (r, c) ∈ allCoords data).
    { apply elem_of_rectCoords. destruct (Hok R1 C1 o1 H1) as [_ H].
      rewrite Hv1 in H. destruct Hc1. lia. }
    pose proof (Huniq _ Hin) as Hu. unfold uniqueOk in Hu.
    rewrite forallb_elem in Hu.
    pose proof (Hu _ (cellAt_allCoords R1 C1 o1 Hr H1)) as Hu1.
    rewrite forallb_elem in Hu1.
    pose proof (Hu1 _ (cellAt_allCoords R2 C2 o2 Hr H2)) as Hu2.
    unfold ownsb in Hu2. cbn [fst snd] in Hu2. rewrite H1, H2, Hv1, Hv2 in Hu2.
    apply coversb_covers in Hc1, Hc2. rewrite Hc1, Hc2 in Hu2. simpl in Hu2.
    apply andb_true_iff in Hu2 as [Ha Hb].
    by apply Nat.eqb_eq in Ha, Hb.
Qed.

End InvariantCheck.

(* ===================================================================== *)
(** * The line-suppression rule on a well-formed grid                     *)
(* ===================================================================== *)

Section LineRule.

Variable data : TableData.
Hypothesis Hwf : wf data.








End LineRule.

Section DrawnKeys.


Variable data : TableData.
Variable config : TableConfig.
Hypothesis Hwf : wf data.



End DrawnKeys.


Lemma mergedCorner_wf : wf mergedCorner.
Proof. apply gridOk_wf. vm_compute. reflexivity. Qed.


(** The keys drawn for the 3×3 grid with a merged corner: the four
    segments inside the merged block are missing. *)
Example mergedCorner_keys :
  drawnKeys (renderPass (M := exampleMath) (fun _ => Num (1 # 2))
               mergedCorner (withWidthScale defaultConfig 1) 0)
  = Some (flat_map (fun k => [k; mkKey (kDir k) (kLine k) (kSeg k) true])
            [mkKey Horizontal 0 0 false; mkKey Horizontal 0 1 false;
             mkKey Horizontal 0 2 false;
             mkKey Horizontal 1 2 false;
             mkKey Horizontal 2 0 false; mkKey Horizontal 2 1 false;
             mkKey Horizontal 2 2 false;
             mkKey Horizontal 3 0 false; mkKey Horizontal 3 1 false;
             mkKey Horizontal 3 2 false;
             mkKey Vertical 0 0 false; mkKey Vertical 0 1 false;
             mkKey Vertical 0 2 false;
             mkKey Vertical 1 2 false;
             mkKey Vertical 2 0 false; mkKey Vertical 2 1 false;
             mkKey Vertical 2 2 false;
             mkKey Vertical 3 0 false; mkKey Vertical 3 1 false;
             mkKey Vertical 3 2 false]).
Proof. vm_compute. reflexivity. Qed.

(** The geometry of the grid of one cell "a" under the default
    configuration: one column of width 120, one row of height 50. *)
Example oneCell_geometry :
  xPositions oneCell defaultConfig = [Num 0; Num (0 + 120 * 1)] ∧
  rowHeights oneCell defaultConfig = [Num 50].
Proof. split; vm_compute; reflexivity. Qed.

(** Outside the invariants the embedding follows the JavaScript: a row
    longer than the first one extends [autoWidths], leaving a hole and a
    [NaN]; a selection that leaves the grid makes [mergeCells] throw; a
    hidden cell whose owner row is missing makes [getCellAt] throw. *)
Example ragged_colWidths :
  colWidths [[plainCell "1" "a"];
             [plainCell "2" "b"; mkCell "3" "" 1 1 true (Some 1) (Some 0);
              plainCell "4" "c"]]
            defaultConfig
  = [Some (Num (120 * 1)); None; Some NaN].
Proof. vm_compute. reflexivity. Qed.

Example mergeCells_outside :
  mergeCells (mkState grid2x2 defaultConfig
                (Some (mkSel (mkCoord 0 0) (mkCoord 2 2))))
  = None.
Proof. vm_compute. reflexivity. Qed.

Example getCellAt_dangling :
  getCellAt [[mkCell "1" "" 1 1 true (Some 5) (Some 0)]] 0 0 = None.
Proof. vm_compute. reflexivity. Qed.

(* ===================================================================== *)
(** * Further results: geometry, wrapping, editing and rendering          *)
(* ===================================================================== *)

(* ===================================================================== *)
(** * Offsets                                                             *)
(* ===================================================================== *)

Section Offsets.

Lemma offsets_snoc (sizes : list number) (w : number) :
  offsets (sizes ++ [w])
  = offsets sizes ++ [add (toNumber (last (offsets sizes))) w].
Proof. unfold offsets. by rewrite foldl_app. Qed.

Lemma offsets_length (sizes : list number) :
  length (offsets sizes) = S (length sizes).
Proof.
  induction sizes as [|w sizes IH] using rev_ind; [done|].
  rewrite offsets_snoc, !length_app, IH. simpl. lia.
Qed.

Lemma offsets_take (sizes : list number) (k : nat) :
  k ≤ length sizes →
  offsets sizes !! k = Some (toNumber (last (offsets (take k sizes)))).
Proof.
  induction sizes as [|w sizes IH] using rev_ind; intros Hk.
  - simpl in Hk. by replace k with 0 by lia.
  - rewrite length_app in Hk. simpl in Hk.
    destruct (decide (k ≤ length sizes)) as [Hle|Hgt].
    + rewrite take_app_le by done. rewrite offsets_snoc.
      rewrite lookup_app_l by (rewrite offsets_length; lia). by apply IH.
    + assert (k = S (length sizes)) as -> by lia.
      rewrite take_ge by (rewrite length_app; simpl; lia).
      rewrite offsets_snoc at 1.
      rewrite lookup_app_r by (rewrite offsets_length; lia).
      rewrite offsets_length, Nat.sub_diag. simpl.
      rewrite offsets_snoc, last_snoc. done.
Qed.

Lemma offsets_step (sizes : list number) (k : nat) (w : number) :
  sizes !! k = Some w →
  ∃ a, offsets sizes !! k = Some a ∧ offsets sizes !! S k = Some (add a w).
Proof.
  intros Hk. pose proof (lookup_lt_Some _ _ _ Hk) as Hlt.
  exists (toNumber (last (offsets (take k sizes)))). split.
  - apply offsets_take. lia.
  - rewrite offsets_take by lia.
    rewrite (take_S_r _ _ _ Hk), offsets_snoc, last_snoc. done.
Qed.

End Offsets.

Lemma offsets_last (sizes : list number) :
  toNumber (last (offsets sizes)) = sumWidths sizes.
Proof.
  induction sizes as [|w sizes IH] using rev_ind; [done|].
  rewrite offsets_snoc, last_snoc. cbn [toNumber]. rewrite IH.
  unfold sumWidths. by rewrite foldl_app.
Qed.

(** X1.  The offsets are the prefix sums of the sizes, starting at 0: the
    offset of row boundary [k] is the sum of the heights of the first [k]
    rows, the offset of column boundary [k] is the sum of the first [k]
    column widths (holes of the array of widths are skipped), and the total
    height and width are the sums of all of them.  There is one more row
    offset than rows. *)
Theorem offsets_prefix_sums (data : TableData) (config : TableConfig) :
  length (yPositions data config) = S (length data) ∧
  (∀ k, k ≤ length data →
        yPositions data config !! k
        = Some (sumWidths (take k (rowHeights data config)))) ∧
  (∀ k, k ≤ length (omap (fun o : option number => o) (colWidths data config)) →
        xPositions data config !! k
        = Some (sumWidths (take k (omap (fun o : option number => o)
                                       (colWidths data config))))) ∧
  totalHeight data config = sumWidths (rowHeights data config) ∧
  totalWidth data config
  = sumWidths (omap (fun o : option number => o) (colWidths data config)).
Proof.
  unfold yPositions, xPositions, totalHeight, totalWidth, yPositions, xPositions.
  assert (Hlen : length (rowHeights data config) = length data)
    by (unfold rowHeights; apply length_imap).
  split; [by rewrite offsets_length, Hlen|].
  split; [intros k Hk; rewrite offsets_take by lia; by rewrite offsets_last|].
  split; [intros k Hk; rewrite offsets_take by lia; by rewrite offsets_last|].
  by rewrite !offsets_last.
Qed.

Lemma offsets_prefix_sums_witness :
  yPositions oneCell defaultConfig !! 1
  = Some (sumWidths (take 1 (rowHeights oneCell defaultConfig))).
Proof.
  destruct (offsets_prefix_sums oneCell defaultConfig) as (_ & Hy & _).
  apply (Hy 1). simpl. lia.
Defined.

(* ===================================================================== *)
(** * More on text wrapping                                               *)
(* ===================================================================== *)

Section WrapMore.

Lemma join_split (sep : ascii) (s : string) :
  join (String sep EmptyString) (split sep s) = s.
Proof.
  induction s as [|ch rest IH]; [done|]. cbn [split].
  destruct (Ascii.eqb_spec ch sep) as [->|Hne].
  - rewrite join_cons by apply split_nonempty.
    rewrite append_empty, append_String, append_empty. by rewrite IH.
  - pose proof (split_nonempty sep rest) as Hn.
    destruct (split sep rest) as [|w ws] eqn:E; [done|].
    destruct ws as [|w' ws].
    + simpl in *. by rewrite IH.
    + rewrite join_cons by done. rewrite join_cons in IH by done.
      rewrite append_String. by rewrite IH.
Qed.

Lemma wrapLoop_nonempty cw mw cur words : wrapLoop cw mw cur words ≠ [].
Proof.
  revert cur. induction words as [|w words IH]; intros cur; cbn [wrapLoop];
    [done|]. destruct (ltb _ mw); [apply IH|done].
Qed.

Lemma wrapLoop_join cw mw (words : list string) :
  ∀ cur, join SP (wrapLoop cw mw cur words) = join SP (cur :: words).
Proof.
  induction words as [|w words IH]; intros cur; cbn [wrapLoop]; [done|].
  destruct (ltb _ mw).
  - rewrite IH. destruct words as [|w' words].
    + done.
    + rewrite (join_cons SP _ (w' :: words)) by done.
      rewrite (join_cons SP cur (w :: w' :: words)) by done.
      rewrite (join_cons SP w (w' :: words)) by done.
      by rewrite !append_assoc.
  - rewrite join_cons by apply wrapLoop_nonempty.
    rewrite IH. by rewrite (join_cons SP cur (w :: words)).
Qed.

Lemma wrapText_one_paragraph (text : string) (mw fs : number) :
  hasChar newline text = false → text ≠ "" →
  wrapText text mw fs = wrapParagraph (charWidth fs) mw text.
Proof.
  intros Hnl Hne. unfold wrapText.
  apply truthyS_spec in Hne. rewrite Hne.
  rewrite split_sep_free_word by done. simpl. by rewrite app_nil_r.
Qed.

End WrapMore.

(** X2.  Wrapping a text of one paragraph (no newline, not empty) only
    replaces some of its spaces by line breaks: the lines joined by single
    spaces are the text again, whatever the maximum width and the font
    size, [NaN] included. *)
Theorem wrapText_join_roundtrip (text : string) (maxWidth fontSize : number) :
  hasChar newline text = false → text ≠ "" →
  join SP (wrapText text maxWidth fontSize) = text.
Proof.
  intros Hnl Hne. rewrite wrapText_one_paragraph by done.
  unfold wrapParagraph. apply truthyS_spec in Hne. rewrite Hne.
  pose proof (join_split space text) as Hjs.
  destruct (split space text) as [|first rest]; [done|].
  rewrite wrapLoop_join. exact Hjs.
Qed.

Lemma wrapText_join_roundtrip_witness :
  join SP (wrapText "The quick brown fox" (Num 100) (Num 16))
  = "The quick brown fox".
Proof.
  apply (wrapText_join_roundtrip "The quick brown fox" (Num 100) (Num 16)).
  - reflexivity.
  - discriminate.
Defined.

(** X3.  Every line [wrapText] returns is under the maximum width in the
    width estimate of the code, or is a single word (it has no space), or
    is the spacer line of an empty paragraph: a line is over-wide only
    when one word alone is. *)
Theorem wrapText_lines_fit (text : string) (maxWidth fontSize : number)
        (line : string) :
  line ∈ wrapText text maxWidth fontSize →
  fits (charWidth fontSize) maxWidth line = true
  ∨ hasChar space line = false
  ∨ line = SP.
Proof.
  intros Hin.
  assert (Hgroups : ∃ groups,
             Forall2 lineOf (wrapText text maxWidth fontSize) groups ∧
             concat groups = wordsOf text ∧
             Forall (fun g => 2 ≤ length g →
                       fits (charWidth fontSize) maxWidth (join SP g) = true)
                    groups).
  { unfold wrapText, wordsOf. destruct text as [|ch text].
    - exists []. repeat split; constructor.
    - cbn [truthyS]. apply wrapParagraphs_groups. }
  destruct Hgroups as (groups & H1 & H2 & H3).
  assert (Hfree : Forall (fun w => hasChar space w = false) (concat groups)).
  { rewrite H2. unfold wordsOf. generalize (split newline text). intros ps.
    induction ps as [|p ps IH]; simpl; [constructor|].
    apply Forall_app. split; [|done].
    destruct (truthyS p); [apply split_sep_free|constructor]. }
  clear H2. revert Hin H3 Hfree.
  induction H1 as [|l g lines groups Hl _ IH]; intros Hin H3 Hfree.
  - by apply elem_of_nil in Hin.
  - inversion H3 as [|? ? Hg H3']; subst.
    cbn [concat] in Hfree. apply Forall_app in Hfree as [Hfg Hfgs].
    apply elem_of_cons in Hin as [->|Hin]; [|by apply IH].
    destruct Hl as [[-> ->]|[Hne ->]]; [by right; right|].
    destruct g as [|w [|w' g]]; [done| |].
    + right. left. by inversion Hfg.
    + left. apply Hg. simpl. lia.
Qed.

Lemma wrapText_lines_fit_witness :
  fits (charWidth (Num 16)) (Num 100) "The quick" = true
  ∨ hasChar space "The quick" = false
  ∨ "The quick" = SP.
Proof.
  apply (wrapText_lines_fit "The quick brown fox" (Num 100) (Num 16)).
  vm_compute. apply list_elem_of_here.
Defined.

(** X4.  When no width is under the maximum width, which is so when the
    maximum width is [NaN] or is a number not above the width of one
    character (as the clamped content width 0 of a cell narrower than its
    padding), every word of every paragraph is a line of its own. *)
Theorem wrapText_too_narrow (text : string) (maxWidth : number) (fontSize : Q) :
  (0 < fontSize)%Q →
  (maxWidth = NaN ∨ ∃ m, maxWidth = Num m ∧ (m <= fontSize * (55 # 100))%Q) →
  wrapText text maxWidth (Num fontSize)
  = if truthyS text
    then flat_map (fun p => if truthyS p then split space p else [SP])
                  (split newline text)
    else [].
Proof.
  intros Hfs Hmw.
  assert (Hno : ∀ n, 1 ≤ n →
            ltb (mul (ofNat n) (charWidth (Num fontSize))) maxWidth = false).
  { intros n Hn. destruct Hmw as [->|(m & -> & Hm)]; [done|].
    destruct (ltb _ (Num m)) eqn:E; [|done]. exfalso.
    unfold charWidth, ofNat, mul in E. apply ltb_true in E.
    apply (Qlt_irrefl m). eapply Qle_lt_trans; [exact Hm|].
    eapply Qle_lt_trans; [|exact E].
    rewrite <- (Qmult_1_l (fontSize * (55 # 100))) at 1.
    apply Qmult_le_compat_r.
    - change 1%Q with (inject_Z 1). rewrite <- Zle_Qle. lia.
    - apply Qlt_le_weak, Qmult_lt_0_compat; [done|reflexivity]. }
  unfold wrapText. destruct (truthyS text); [|done].
  induction (split newline text) as [|p ps IH]; [done|].
  cbn [flat_map]. rewrite IH. f_equal.
  unfold wrapParagraph. destruct (truthyS p); [|done].
  pose proof (split_nonempty space p) as Hne.
  destruct (split space p) as [|first rest]; [done|]. clear Hne.
  revert first. induction rest as [|w rest IHr]; intros first; [done|].
  cbn [wrapLoop]. rewrite Hno by lia. by rewrite IHr.
Qed.

Lemma wrapText_too_narrow_witness :
  wrapText "a b" (Num 0) (Num 16) = ["a"; "b"].
Proof.
  rewrite (wrapText_too_narrow "a b" (Num 0) 16).
  - reflexivity.
  - reflexivity.
  - right. exists 0%Q. split; [reflexivity|]. vm_compute. discriminate.
Defined.

(* ===================================================================== *)
(** * How far the path primitive moves its points                         *)
(* ===================================================================== *)

Section RoughBounds.

Import RealMath.
Local Open Scope R_scope.

Lemma Q2R_half : Q2R (1 # 2) = 1 / 2.
Proof. unfold Q2R. simpl. lra. Qed.

Lemma centred_bound (u s : R) :
  0 <= u < 1 → 0 <= s → Rabs ((u - 1 / 2) * s * 2) <= s.
Proof.
  intros Hu Hs. apply Rabs_le. split; nra.
Qed.

(** X5.  With draws in [0, 1), as [Math.random] returns them, and
    [roughness ≥ 0], [bowing ≥ 0]: each coordinate of the two end points
    of the path is at most [roughness] away from the coordinate asked for,
    and the control point is at most [len × 0.05 × bowing / 2] away from
    the midpoint of the segment, [len] being the length of the segment. *)
Theorem getRoughPath_bounds (rnd : nat -> R) (x1 y1 x2 y2 roughness bowing : R)
        (n : nat) :
  (∀ k, 0 <= rnd k < 1) → 0 <= roughness → 0 <= bowing →
  let p := (Sketch.getRoughPath rnd x1 y1 x2 y2 roughness bowing n).1 in
  let len := sqrt ((x2 - x1) * (x2 - x1) + (y2 - y1) * (y2 - y1)) in
  Rabs (moveX p - x1) <= roughness ∧
  Rabs (moveY p - y1) <= roughness ∧
  Rabs (endX p - x2) <= roughness ∧
  Rabs (endY p - y2) <= roughness ∧
  (ctrlX p - (x1 + x2) / 2) ^ 2 + (ctrlY p - (y1 + y2) / 2) ^ 2
  <= (len * (5 / 100) * bowing / 2) ^ 2.
Proof.
  intros Hrnd Hr Hb p len. subst p.
  unfold Sketch.getRoughPath, Sketch.centred, Sketch.bind, Sketch.ret,
    Sketch.Math_random, Sketch.pow2.
  cbn [lit plus minus times over Math_sqrt Math_atan2 Math_cos Math_sin
       Math_PI R_JsMath fst moveX moveY endX endY ctrlX ctrlY].
  rewrite Q2R_two, Q2R_half.
  replace (Q2R (5 # 100)) with (5 / 100) by (unfold Q2R; simpl; lra).
  fold len.
  repeat split.
  - replace (x1 + (rnd (S n) - 1 / 2) * roughness * 2 - x1)
      with ((rnd (S n) - 1 / 2) * roughness * 2) by ring.
    by apply centred_bound.
  - replace (y1 + (rnd (S (S n)) - 1 / 2) * roughness * 2 - y1)
      with ((rnd (S (S n)) - 1 / 2) * roughness * 2) by ring.
    by apply centred_bound.
  - replace (x2 + (rnd (S (S (S n))) - 1 / 2) * roughness * 2 - x2)
      with ((rnd (S (S (S n))) - 1 / 2) * roughness * 2) by ring.
    by apply centred_bound.
  - replace (y2 + (rnd (S (S (S (S n)))) - 1 / 2) * roughness * 2 - y2)
      with ((rnd (S (S (S (S n)))) - 1 / 2) * roughness * 2) by ring.
    by apply centred_bound.
  - set (a := atan2 (y2 - y1) (x2 - x1) + PI / 2).
    set (B := len * (5 / 100) * bowing).
    assert (HB : 0 <= B).
    { subst B. apply Rmult_le_pos; [|done].
      apply Rmult_le_pos; [apply sqrt_pos|lra]. }
    pose proof (sin2_cos2 a) as Hsc. unfold Rsqr in Hsc.
    pose proof (Hrnd n) as Hu.
    replace ((x1 + x2) / 2 + cos a * ((rnd n - 1 / 2) * B) - (x1 + x2) / 2)
      with (cos a * ((rnd n - 1 / 2) * B)) by ring.
    replace ((y1 + y2) / 2 + sin a * ((rnd n - 1 / 2) * B) - (y1 + y2) / 2)
      with (sin a * ((rnd n - 1 / 2) * B)) by ring.
    replace ((cos a * ((rnd n - 1 / 2) * B)) ^ 2
             + (sin a * ((rnd n - 1 / 2) * B)) ^ 2)
      with ((sin a * sin a + cos a * cos a) * ((rnd n - 1 / 2) * B) ^ 2)
      by ring.
    rewrite Hsc, Rmult_1_l.
    assert (Hsq : (rnd n - 1 / 2) ^ 2 <= (1 / 2) ^ 2) by nra.
    replace (((rnd n - 1 / 2) * B) ^ 2) with ((rnd n - 1 / 2) ^ 2 * B ^ 2) by ring.
    replace ((B / 2) ^ 2) with ((1 / 2) ^ 2 * B ^ 2) by field.
    apply Rmult_le_compat_r; [nra|done].
Qed.

Lemma getRoughPath_bounds_witness :
  let p := (Sketch.getRoughPath (fun _ => 1 / 4) 0 0 10 0 1 1 0%nat).1 in
  Rabs (moveX p - 0) <= 1.
Proof.
  intros p.
  destruct (getRoughPath_bounds (fun _ => 1 / 4) 0 0 10 0 1 1 0%nat) as [H _].
  - intros _. lra.
  - lra.
  - lra.
  - exact H.
Defined.

End RoughBounds.

(* ===================================================================== *)
(** * Removing a row or a column                                          *)
(* ===================================================================== *)

Section RemoveAt.

Context {A : Type}.

Lemma removeAt_from (l : list A) :
  ∀ j0 index,
    omap (fun o : option A => o)
         (imap (fun i x => if decide (j0 + i = index) then None else Some x) l)
    = if decide (j0 ≤ index)
      then take (index - j0) l ++ drop (S (index - j0)) l
      else l.
Proof.
  induction l as [|x l IH]; intros j0 index.
  - case_decide; [by rewrite take_nil, drop_nil|done].
  - rewrite imap_cons. cbn [omap list_omap].
    rewrite (imap_ext _ (fun i x => if decide (S j0 + i = index) then None else Some x))
      by (intros; simpl; repeat case_decide; done || lia).
    rewrite IH. rewrite Nat.add_0_r.
    destruct (decide (j0 = index)) as [->|Hne].
    + rewrite decide_False by lia. rewrite decide_True by lia.
      by rewrite Nat.sub_diag.
    + destruct (decide (j0 ≤ index)) as [Hle|Hgt].
      * rewrite decide_True by lia.
        replace (index - j0) with (S (index - S j0)) by lia. done.
      * by rewrite decide_False by lia.
Qed.

Lemma removeAt_take_drop (index : nat) (l : list A) :
  removeAt index l = take index l ++ drop (S index) l.
Proof.
  unfold removeAt.
  rewrite (imap_ext _ (fun i x => if decide (0 + i = index) then None else Some x))
    by done.
  rewrite removeAt_from, decide_True by lia. by rewrite Nat.sub_0_r.
Qed.

Lemma removeAt_lookup (index j : nat) (l : list A) :
  removeAt index l !! j = if decide (j < index) then l !! j else l !! S j.
Proof.
  rewrite removeAt_take_drop.
  destruct (decide (index ≤ length l)) as [Hle|Hgt].
  - case_decide.
    + rewrite lookup_app_l by (rewrite length_take; lia).
      by rewrite lookup_take_lt.
    + rewrite lookup_app_r by (rewrite length_take; lia).
      rewrite length_take, lookup_drop. f_equal. lia.
  - rewrite take_ge, drop_ge, app_nil_r by lia.
    case_decide; [done|].
    rewrite !lookup_ge_None_2 by lia. done.
Qed.

Lemma removeAt_length (index : nat) (l : list A) :
  length (removeAt index l)
  = if decide (index < length l) then length l - 1 else length l.
Proof.
  rewrite removeAt_take_drop, length_app, length_take, length_drop.
  case_decide; lia.
Qed.

End RemoveAt.

(** X6.  [removeRow] and [removeCol] keep every surviving row or column
    together with its override: the row that gets index [j] is the row
    that had index [oldIndex k j], and its height override is the one it
    had; likewise for the cells of a column and its width override.  A
    grid whose first row loses its last cell becomes the empty grid.  Both
    clear the selection. *)
Theorem remove_keeps_alignment (st : state) (k : nat) :
  (∀ j, data (removeRow k st) !! j = data st !! oldIndex k j ∧
        customRowHeights (config (removeRow k st)) !! j
        = customRowHeights (config st) !! oldIndex k j) ∧
  (∀ j, customColumnWidths (config (removeCol k st)) !! j
        = customColumnWidths (config st) !! oldIndex k j) ∧
  (∀ row0 rest, data st = row0 :: rest →
     if decide (removeAt k row0 = [])
     then data (removeCol k st) = []
     else ∀ r j, cellAt (data (removeCol k st)) r j
                 = cellAt (data st) r (oldIndex k j)) ∧
  selection (removeRow k st) = None ∧
  selection (removeCol k st) = None.
Proof.
  unfold oldIndex. split; [|split; [|split; [|done]]].
  - intros j. cbn [removeRow data config withRowHeights customRowHeights].
    rewrite removeAt_lookup, shiftOverrides_lookup.
    replace (j + 1) with (S j) by lia. by case_decide.
  - intros j. cbn [removeCol data config withColumnWidths customColumnWidths].
    rewrite shiftOverrides_lookup. replace (j + 1) with (S j) by lia.
    by case_decide.
  - intros row0 rest Hdata. cbn [removeCol data]. rewrite Hdata.
    rewrite fmap_cons.
    destruct (removeAt k row0) as [|x xs] eqn:E.
    + by rewrite decide_True.
    + rewrite decide_False by done. cbn [length Nat.eqb].
      intros r j. unfold cellAt. rewrite <- E, <- fmap_cons.
      rewrite list_lookup_fmap.
      destruct ((row0 :: rest) !! r) as [row|]; simpl; [|done].
      rewrite removeAt_lookup. by case_decide.
Qed.

Lemma remove_keeps_alignment_witness :
  cellAt (data (removeCol 1 (mkState threeColumns defaultConfig None))) 0 1
  = cellAt threeColumns 0 (oldIndex 1 1).
Proof.
  destruct (remove_keeps_alignment (mkState threeColumns defaultConfig None) 1)
    as (_ & _ & H & _).
  specialize (H _ _ eq_refl). exact (H 0 1).
Defined.

Section RemoveColWidths.

Lemma columnCells_removeAt (data : TableData) (k j : nat) :
  columnCells (removeAt k <$> data) j = columnCells data (oldIndex k j).
Proof.
  unfold columnCells, oldIndex. induction data as [|row data IH]; [done|].
  rewrite fmap_cons. cbn [omap list_omap]. rewrite IH, removeAt_lookup.
  by case_decide.
Qed.

End RemoveColWidths.

(** X7.  Removing a column leaves the resolved width of every surviving
    column as it was: the column that gets index [j] has the width the
    column [oldIndex k j] had. *)
Theorem removeCol_keeps_widths (st : state) (k j : nat) :
  j < colCountOf (data (removeCol k st)) →
  aget (colWidths (data (removeCol k st)) (config (removeCol k st))) j
  = aget (colWidths (data st) (config st)) (oldIndex k j).
Proof.
  intros Hj. unfold aget.
  rewrite colWidths_lookup by done.
  assert (Hshape : data (removeCol k st) = removeAt k <$> data st ∧
                   oldIndex k j < colCountOf (data st)).
  { cbn [removeCol data] in *. destruct (data st) as [|row0 rest]; [by inversion Hj|].
    rewrite fmap_cons in *.
    destruct (removeAt k row0) as [|x xs] eqn:E; [by inversion Hj|].
    cbn [length Nat.eqb] in *. split; [done|].
    unfold colCountOf in *. cbn [lookup list_lookup] in *.
    rewrite <- E, removeAt_length in Hj. unfold oldIndex.
    repeat case_decide; lia. }
  destruct Hshape as [Hdata Hold].
  rewrite colWidths_lookup by done. do 3 f_equal.
  unfold chosenBase, autoWidthSpec.
  rewrite Hdata, columnCells_removeAt.
  cbn [removeCol config withColumnWidths customColumnWidths].
  rewrite shiftOverrides_lookup. unfold oldIndex.
  replace (j + 1) with (S j) by lia. by case_decide.
Qed.

Lemma removeCol_keeps_widths_witness :
  let st := mkState threeColumns
              (withColumnWidths defaultConfig (<[0 := 100%Q]> (<[2 := 150%Q]> ∅)))
              None in
  aget (colWidths (data (removeCol 1 st)) (config (removeCol 1 st))) 1
  = aget (colWidths (data st) (config st)) 2.
Proof.
  intros st. apply (removeCol_keeps_widths st 1 1). vm_compute. lia.
Defined.

(* ===================================================================== *)
(** * Operations that keep the invariants of the grid                     *)
(* ===================================================================== *)

Section KeepInvariants.

Implicit Types (g : list (list TableCell)).

Lemma cellAt_Some_row g r c cell :
  cellAt g r c = Some cell ↔ ∃ row, g !! r = Some row ∧ row !! c = Some cell.
Proof.
  unfold cellAt. destruct (g !! r) as [row|]; simpl.
  - split; [intros H; by exists row|intros (? & [= <-] & ?); done].
  - split; [done|intros (? & ? & ?); done].
Qed.

Lemma cellAt_in_grid g r c cell :
  wf g → cellAt g r c = Some cell → r < rowCountOf g ∧ c < colCountOf g.
Proof. intros Hwf. apply cellAt_bounds, (wf_rect g Hwf). Qed.

(** A rectangular grid without merged cells satisfies the invariants. *)
Lemma wf_unmerged g :
  (∀ r row, g !! r = Some row → length row = colCountOf g) →
  (∀ r c cell, cellAt g r c = Some cell →
               hidden cell = false ∧ rowSpan cell = 1 ∧ colSpan cell = 1) →
  wf g.
Proof.
  intros Hrect Hplain. split.
  - exact Hrect.
  - intros r c cell Hc. destruct (Hplain r c cell Hc) as (_ & -> & ->). lia.
  - intros R C cell Hc _. destruct (Hplain R C cell Hc) as (_ & -> & ->).
    pose proof (cellAt_bounds g R C cell Hrect Hc). lia.
  - intros r c cell Hc Hh. destruct (Hplain r c cell Hc) as (Hv & _). congruence.
  - intros r c R1 C1 o1 R2 C2 o2 H1 _ [Hr1 Hc1] H2 _ [Hr2 Hc2].
    destruct (Hplain R1 C1 o1 H1) as (_ & E1 & E1').
    destruct (Hplain R2 C2 o2 H2) as (_ & E2 & E2').
    rewrite E1 in Hr1. rewrite E1' in Hc1. rewrite E2 in Hr2. rewrite E2' in Hc2.
    lia.
Qed.

End KeepInvariants.

Section FreshCells.

Variable ids : nat → string.


End FreshCells.



Section AddRowCol.

Variable ids : nat → string.
Implicit Types (g : list (list TableCell)).

Lemma wf_single (cell : TableCell) : unmergedCell cell → wf [[cell]].
Proof.
  intros Hc. apply wf_unmerged.
  - intros [|r] row Hrow; [by inversion Hrow|done].
  - intros [|r] [|c] x Hx; try done. by inversion Hx; subst.
Qed.

Lemma colCountOf_app g row0 rest more :
  g = row0 :: rest → colCountOf (g ++ more) = colCountOf g.
Proof. by intros ->. Qed.

(** The cells of the grid with one more row of unmerged cells. *)
Lemma cellAt_app_row g (newRow : list TableCell) r c :
  cellAt (g ++ [newRow]) r c
  = if decide (r < length g) then cellAt g r c
    else if decide (r = length g) then newRow !! c else None.
Proof.
  unfold cellAt. case_decide.
  - by rewrite lookup_app_l.
  - rewrite lookup_app_r by lia. case_decide as Hr.
    + by rewrite Hr, Nat.sub_diag.
    + rewrite lookup_ge_None_2; [done|]. simpl. lia.
Qed.

Lemma wf_add_row g (newRow : list TableCell) :
  g ≠ [] → wf g → length newRow = colCountOf g →
  Forall unmergedCell newRow → wf (g ++ [newRow]).
Proof.
  intros Hne Hwf Hlen Hnew.
  destruct g as [|row0 rest] eqn:Eg; [done|]. rewrite <- Eg in *.
  assert (Hcc : colCountOf (g ++ [newRow]) = colCountOf g)
    by (by eapply colCountOf_app).
  assert (Hrc : rowCountOf (g ++ [newRow]) = S (rowCountOf g))
    by (unfold rowCountOf; rewrite length_app; simpl; lia).
  assert (Hfresh : ∀ c cell, newRow !! c = Some cell →
            unmergedCell cell ∧ c < colCountOf g).
  { intros c cell Hc. split.
    - rewrite Forall_forall in Hnew. apply Hnew. by eapply list_elem_of_lookup_2.
    - rewrite <- Hlen. by eapply lookup_lt_Some. }
  assert (Hcases : ∀ r c cell, cellAt (g ++ [newRow]) r c = Some cell →
            (r < length g ∧ cellAt g r c = Some cell) ∨
            (r = length g ∧ unmergedCell cell ∧ c < colCountOf g)).
  { intros r c cell. rewrite cellAt_app_row.
    repeat case_decide; try done; [by left|]. intros Hc. right.
    destruct (Hfresh c cell Hc). done. }
  split.
  - intros r row. rewrite Hcc. destruct (decide (r < length g)).
    + rewrite lookup_app_l by done. apply (wf_rect g Hwf).
    + rewrite lookup_app_r by lia. intros Hrow.
      destruct (r - length g) as [|k]; [by inversion Hrow; subst|done].
  - intros r c cell Hc. destruct (Hcases r c cell Hc) as [[_ H]|(_ & (_ & -> & ->) & _)].
    + by apply (wf_spans g Hwf r c).
    + lia.
  - intros R C cell Hc Hv. rewrite Hcc, Hrc.
    destruct (Hcases R C cell Hc) as [[_ H]|(-> & (_ & -> & ->) & HC)].
    + destruct (wf_inside g Hwf R C cell H Hv). lia.
    + unfold rowCountOf. lia.
  - intros r c cell Hc Hh.
    destruct (Hcases r c cell Hc) as [[Hr H]|(_ & (Hv & _) & _)]; [|congruence].
    destruct (wf_hidden g Hwf r c cell H Hh)
      as (E1 & E2 & E3 & R & C & owner & HR & HC & Ho & Hv & Hcov).
    repeat split; try done. exists R, C, owner. repeat split; try done;
      try apply Hcov.
    rewrite cellAt_app_row. rewrite decide_True; [done|].
    by destruct (cellAt_in_grid g R C owner Hwf Ho).
  - intros r c R1 C1 o1 R2 C2 o2 H1 Hv1 Hc1 H2 Hv2 Hc2.
    destruct (Hcases R1 C1 o1 H1) as [[Hr1 G1]|(-> & (_ & E1 & E1') & _)];
      destruct (Hcases R2 C2 o2 H2) as [[Hr2 G2]|(-> & (_ & E2 & E2') & _)].
    + by apply (wf_unique g Hwf r c R1 C1 o1 R2 C2 o2).
    + destruct (wf_inside g Hwf R1 C1 o1 G1 Hv1) as [Hin _].
      destruct Hc1 as [? _], Hc2 as [? _]. unfold rowCountOf in Hin. lia.
    + destruct (wf_inside g Hwf R2 C2 o2 G2 Hv2) as [Hin _].
      destruct Hc1 as [? _], Hc2 as [? _]. unfold rowCountOf in Hin. lia.
    + destruct Hc1 as [_ ?], Hc2 as [_ ?]. lia.
Qed.

End AddRowCol.

Section AddCol.

Variable ids : nat → string.
Implicit Types (g : list (list TableCell)).

Lemma wf_add_col g (f : nat → TableCell) :
  g ≠ [] → wf g → (∀ k, unmergedCell (f k)) →
  wf (imap (fun k row => row ++ [f k]) g).
Proof.
  intros Hne Hwf Hf. set (g' := imap (fun k row => row ++ [f k]) g).
  assert (Hrow : ∀ r, g' !! r = (fun row => row ++ [f r]) <$> g !! r)
    by (intros r; subst g'; by rewrite list_lookup_imap).
  assert (Hrc : rowCountOf g' = rowCountOf g)
    by (subst g'; unfold rowCountOf; by rewrite length_imap).
  assert (Hcc : colCountOf g' = S (colCountOf g)).
  { unfold colCountOf. rewrite Hrow. destruct g as [|row0 rest]; [done|].
    simpl. rewrite length_app. simpl. lia. }
  assert (Hcases : ∀ r c cell, cellAt g' r c = Some cell →
            (c < colCountOf g ∧ cellAt g r c = Some cell) ∨
            (c = colCountOf g ∧ r < rowCountOf g ∧ unmergedCell cell)).
  { intros r c cell Hc. apply cellAt_Some_row in Hc as (row' & Hr' & Hcell).
    rewrite Hrow in Hr'. destruct (g !! r) as [row|] eqn:Er; [|done].
    inversion Hr'; subst row'. pose proof (wf_rect g Hwf r row Er) as Hlen.
    destruct (decide (c < length row)) as [Hlt|Hge].
    - left. rewrite lookup_app_l in Hcell by done. split; [lia|].
      apply cellAt_Some_row. by exists row.
    - right. rewrite lookup_app_r in Hcell by lia.
      destruct (c - length row) as [|k] eqn:Ek; [|done].
      inversion Hcell; subst. split; [lia|]. split; [|done].
      by apply lookup_lt_Some in Er. }
  assert (Hold : ∀ r c cell, cellAt g r c = Some cell → cellAt g' r c = Some cell).
  { intros r c cell Hc. apply cellAt_Some_row in Hc as (row & Hr & Hcell).
    apply cellAt_Some_row. exists (row ++ [f r]). rewrite Hrow, Hr.
    split; [done|]. rewrite lookup_app_l; [done|]. by eapply lookup_lt_Some. }
  split.
  - intros r row'. rewrite Hrow, Hcc. destruct (g !! r) as [row|] eqn:Er; [|done].
    intros [= <-]. rewrite length_app, (wf_rect g Hwf r row Er). simpl. lia.
  - intros r c cell Hc. destruct (Hcases r c cell Hc) as [[_ H]|(_ & _ & (_ & -> & ->))].
    + by apply (wf_spans g Hwf r c).
    + lia.
  - intros R C cell Hc Hv. rewrite Hcc, Hrc.
    destruct (Hcases R C cell Hc) as [[_ H]|(-> & HR & (_ & -> & ->))].
    + destruct (wf_inside g Hwf R C cell H Hv). lia.
    + lia.
  - intros r c cell Hc Hh.
    destruct (Hcases r c cell Hc) as [[Hr H]|(_ & _ & (Hv & _))]; [|congruence].
    destruct (wf_hidden g Hwf r c cell H Hh)
      as (E1 & E2 & E3 & R & C & owner & HR & HC & Ho & Hv & Hcov).
    repeat split; try done. exists R, C, owner. repeat split; try done;
      try apply Hcov. by apply Hold.
  - intros r c R1 C1 o1 R2 C2 o2 H1 Hv1 Hc1 H2 Hv2 Hc2.
    destruct (Hcases R1 C1 o1 H1) as [[Hr1 G1]|(-> & _ & (_ & E1 & E1'))];
      destruct (Hcases R2 C2 o2 H2) as [[Hr2 G2]|(-> & _ & (_ & E2 & E2'))].
    + by apply (wf_unique g Hwf r c R1 C1 o1 R2 C2 o2).
    + destruct (wf_inside g Hwf R1 C1 o1 G1 Hv1) as [_ Hin].
      destruct Hc1 as [_ ?], Hc2 as [_ ?]. lia.
    + destruct (wf_inside g Hwf R2 C2 o2 G2 Hv2) as [_ Hin].
      destruct Hc1 as [_ ?], Hc2 as [_ ?]. lia.
    + destruct Hc1 as [? _], Hc2 as [? _]. lia.
Qed.

End AddCol.

(** X9.  [addRow] and [addCol] keep the invariants of the data model.  On
    a grid that is not empty [addRow] adds one row below and [addCol] one
    column to the right, of unmerged cells with no text, and the cells of
    the grid stay where they were; on the empty grid both give the grid of
    one cell.  The configuration and the selection are not touched. *)
Theorem addRow_addCol_keep_invariants (ids : nat → string) (st : state) (n : nat) :
  wf (data st) →
  let st1 := (addRow ids st n).1 in
  let st2 := (addCol ids st n).1 in
  wf (data st1) ∧ wf (data st2) ∧
  (data st ≠ [] →
   rowCountOf (data st1) = S (rowCountOf (data st)) ∧
   colCountOf (data st1) = colCountOf (data st) ∧
   rowCountOf (data st2) = rowCountOf (data st) ∧
   colCountOf (data st2) = S (colCountOf (data st)) ∧
   (∀ r c cell, cellAt (data st) r c = Some cell →
                cellAt (data st1) r c = Some cell ∧
                cellAt (data st2) r c = Some cell) ∧
   (∀ c, c < colCountOf (data st) →
         cellAt (data st1) (rowCountOf (data st)) c
         = Some (freshCell ids (n + c) "")) ∧
   (∀ r, r < rowCountOf (data st) →
         cellAt (data st2) r (colCountOf (data st))
         = Some (freshCell ids (n + r) ""))) ∧
  (data st = [] →
   data st1 = [[freshCell ids n "New Cell"]] ∧
   data st2 = [[freshCell ids n "New Cell"]]) ∧
  config st1 = config st ∧ selection st1 = selection st ∧
  config st2 = config st ∧ selection st2 = selection st.
Proof.
  intros Hwf st1 st2. subst st1 st2. unfold addRow, addCol.
  destruct (data st) as [|row0 rest] eqn:Eg.
  - cbn [fst data config selection].
    split; [by apply wf_single|]. split; [by apply wf_single|]. done.
  - rewrite <- Eg in *. cbn [fst data config selection].
    assert (Hne : data st ≠ []) by (by rewrite Eg).
    assert (Hcc : colCountOf (data st) = length row0)
      by (unfold colCountOf; by rewrite Eg).
    set (newRow := (fun k => freshCell ids (n + k) "") <$> seq 0 (length row0)).
    split; [|split; [|split; [|split; [by rewrite Eg|done]]]].
    + apply wf_add_row; try done.
      * subst newRow. by rewrite length_fmap, length_seq.
      * subst newRow. apply Forall_fmap, Forall_forall. done.
    + by apply wf_add_col.
    + intros _.
      split; [unfold rowCountOf; rewrite length_app; simpl; lia|].
      split; [by eapply colCountOf_app|].
      split; [unfold rowCountOf; by rewrite length_imap|].
      split.
      { unfold colCountOf. rewrite list_lookup_imap, Eg. simpl.
        rewrite length_app. simpl. lia. }
      split; [|split].
      * intros r c cell Hc.
        destruct (cellAt_in_grid _ r c cell Hwf Hc) as [Hr Hcol].
        split.
        -- rewrite cellAt_app_row. by rewrite decide_True.
        -- apply cellAt_Some_row in Hc as (row & Hrow & Hcell).
           apply cellAt_Some_row. exists (row ++ [freshCell ids (n + r) ""]).
           rewrite list_lookup_imap, Hrow. split; [done|].
           rewrite lookup_app_l; [done|]. by eapply lookup_lt_Some.
      * intros c Hc. rewrite cellAt_app_row.
        rewrite decide_False by (unfold rowCountOf; lia).
        rewrite decide_True by done. subst newRow.
        rewrite list_lookup_fmap, lookup_seq_lt by lia. done.
      * intros r Hr. unfold rowCountOf in Hr.
        destruct (lookup_lt_is_Some_2 _ _ Hr) as [row Hrow].
        apply cellAt_Some_row. exists (row ++ [freshCell ids (n + r) ""]).
        rewrite list_lookup_imap, Hrow. split; [done|].
        rewrite lookup_app_r by (rewrite (wf_rect _ Hwf r row Hrow); lia).
        by rewrite (wf_rect _ Hwf r row Hrow), Nat.sub_diag.
Qed.

Lemma addRow_addCol_keep_invariants_witness :
  wf (data (addRow (fun _ => "x") (mkState mergedCorner defaultConfig None) 0).1) ∧
  wf (data (addCol (fun _ => "x") (mkState mergedCorner defaultConfig None) 0).1).
Proof.
  destruct (addRow_addCol_keep_invariants (fun _ => "x")
              (mkState mergedCorner defaultConfig None) 0) as (H1 & H2 & _).
  - apply mergedCorner_wf.
  - split; [exact H1|exact H2].
Defined.

Section MergeInvariants.

Implicit Types (g : list (list TableCell)).

Lemma updCell_shape f r c g : length <$> updCell f r c g = length <$> g.
Proof.
  unfold updCell. apply list_eq. intros i. rewrite !list_lookup_fmap.
  rewrite list_lookup_alter.
  case_decide; [subst|]; destruct (g !! i); simpl; rewrite ?length_alter; done.
Qed.

Lemma foldSteps_inv {I St} (P : St → Prop) (body : I → St → option St)
      (l : list I) :
  (∀ i s s', body i s = Some s' → P s → P s') →
  ∀ s s', P s → foldSteps body (Some s) l = Some s' → P s'.
Proof.
  intros Hstep. induction l as [|i l IH] using rev_ind; intros s s' Hs.
  - by intros [= <-].
  - rewrite foldSteps_app.
    destruct (foldSteps body (Some s) l) as [s1|] eqn:E; simpl.
    + intros H. eapply Hstep; [exact H|]. by eapply IH.
    + done.
Qed.

Lemma rewriteStep_shape f skipR skipC rc g g' :
  rewriteStep f skipR skipC rc g = Some g' → length <$> g' = length <$> g.
Proof.
  unfold rewriteStep. destruct (_ && _); [by intros [= <-]|].
  destruct (cellAt g rc.1 rc.2); [|done]. simpl. intros [= <-].
  apply updCell_shape.
Qed.

Lemma rewriteSteps_shape f skipR skipC l (g0 : TableData) :
  ∀ g g', length <$> g = length <$> g0 →
    foldSteps (rewriteStep f skipR skipC) (Some g) l = Some g' →
    length <$> g' = length <$> g0.
Proof.
  apply (foldSteps_inv (fun g => length <$> g = length <$> g0)).
  intros i s s' H Hs. rewrite <- Hs. by eapply rewriteStep_shape.
Qed.

Lemma mergeCells_shape st st' :
  mergeCells st = Some st' → length <$> data st' = length <$> data st.
Proof.
  unfold mergeCells. destruct (getRange (selection st)) as [rg|]; [|by intros [= <-]].
  destruct (_ && _); [by intros [= <-]|].
  destruct (forUpTo _ _ _ "") as [v|]; [|done]. simpl.
  destruct (cellAt _ _ _); [|done]. simpl.
  rewrite forUpTo_nested.
  destruct (foldSteps _ _ _) as [g'|] eqn:E; [|done]. simpl. intros [= <-]. simpl.
  eapply (rewriteSteps_shape (asHidden rg) (minR rg) (minC rg)); [|exact E].
  apply updCell_shape.
Qed.

Lemma unmergeCells_shape st st' :
  unmergeCells st = Some st' → length <$> data st' = length <$> data st.
Proof.
  unfold unmergeCells. destruct (getRange (selection st)) as [rg|]; [|by intros [= <-]].
  destruct (cellAt _ _ _) as [cell|]; [|done]. simpl.
  destruct (_ && _); [by intros [= <-]|].
  rewrite forUpTo_nested.
  destruct (foldSteps _ _ _) as [g'|] eqn:E; [|done]. simpl. intros [= <-]. simpl.
  eapply (rewriteSteps_shape asShown (minR rg) (minC rg)); [|exact E].
  apply updCell_shape.
Qed.

Lemma shape_counts g g' :
  length <$> g' = length <$> g →
  rowCountOf g' = rowCountOf g ∧ colCountOf g' = colCountOf g ∧
  ∀ r row', g' !! r = Some row' → ∃ row, g !! r = Some row ∧ length row' = length row.
Proof.
  intros H.
  assert (Hl : ∀ r, length <$> g' !! r = length <$> g !! r).
  { intros r. by rewrite <- !list_lookup_fmap, H. }
  split; [|split].
  - unfold rowCountOf. by rewrite <- (length_fmap length g'), H, length_fmap.
  - unfold colCountOf. specialize (Hl 0).
    destruct (g' !! 0), (g !! 0); simpl in Hl; congruence.
  - intros r row' Hr. specialize (Hl r). rewrite Hr in Hl.
    destruct (g !! r) as [row|]; [|done]. exists row. simpl in Hl.
    split; [done|congruence].
Qed.

Lemma shape_rect g g' :
  length <$> g' = length <$> g → wf g →
  ∀ r row, g' !! r = Some row → length row = colCountOf g'.
Proof.
  intros H Hwf r row' Hr. destruct (shape_counts g g' H) as (_ & -> & Hrows).
  destruct (Hrows r row' Hr) as (row & Hrow & ->).
  by apply (wf_rect g Hwf r).
Qed.

Lemma covers_self R C cell :
  1 ≤ rowSpan cell → 1 ≤ colSpan cell → covers R C cell R C.
Proof. unfold covers. lia. Qed.

(** The grid [mergeCells] leaves satisfies the invariants when the
    selected rectangle cuts no merged cell. *)
Lemma wf_merge g g' rg v :
  wf g → length <$> g' = length <$> g →
  minR rg ≤ maxR rg → minC rg ≤ maxC rg →
  inGrid g rg → cutsNoMerge g rg →
  (∀ r c, cellAt g' r c
          = if decide (r = minR rg ∧ c = minC rg)
            then asMaster v rg <$> cellAt g r c
            else if decide ((r, c) ∈ rangeCoords rg)
                 then asHidden rg <$> cellAt g r c
                 else cellAt g r c) →
  wf g'.
Proof.
  intros Hwf Hshape HR HC Hin Hcut Hcells.
  destruct (shape_counts g g' Hshape) as (Hrc & Hcc & _).
  assert (Hcorner : (maxR rg, maxC rg) ∈ rangeCoords rg)
    by (apply in_rangeCoords; lia).
  assert (Hmin : (minR rg, minC rg) ∈ rangeCoords rg)
    by (apply in_rangeCoords; lia).
  unfold inGrid in Hin. rewrite Forall_forall in Hin.
  destruct (Hin _ Hcorner) as [far Hfar]. cbn [fst snd] in Hfar.
  destruct (cellAt_in_grid g _ _ far Hwf Hfar) as [HmaxR HmaxC].
  destruct (Hin _ Hmin) as [m Hm]. cbn [fst snd] in Hm.
  assert (Hmaster : cellAt g' (minR rg) (minC rg) = Some (asMaster v rg m)).
  { rewrite Hcells, decide_True by done. by rewrite Hm. }
  assert (Hcls : ∀ R C o, cellAt g' R C = Some o → hidden o = false →
            (R = minR rg ∧ C = minC rg ∧ o = asMaster v rg m) ∨
            (((R, C) ∉ rangeCoords rg) ∧ cellAt g R C = Some o)).
  { intros R C o Ho Hv. rewrite Hcells in Ho.
    destruct (decide (R = minR rg ∧ C = minC rg)) as [[-> ->]|Hn].
    - left. rewrite Hm in Ho. by inversion Ho.
    - destruct (decide ((R, C) ∈ rangeCoords rg)) as [Hi|Hi].
      + destruct (cellAt g R C); [|done]. inversion Ho; subst. done.
      + by right. }
  assert (Hout : ∀ R C o r c, cellAt g R C = Some o → hidden o = false →
            (R, C) ∉ rangeCoords rg → covers R C o r c →
            (r, c) ∉ rangeCoords rg).
  { intros R C o r c Ho Hv Hn Hcov Hi. apply Hn.
    apply (Hcut R C o r c R C Ho Hv Hcov Hi).
    destruct (wf_spans g Hwf R C o Ho). by apply covers_self. }
  split.
  - by apply (shape_rect g).
  - intros r c cell Hc. rewrite Hcells in Hc.
    destruct (decide (r = minR rg ∧ c = minC rg)).
    + destruct (cellAt g r c); [|done]. inversion Hc; subst. simpl. lia.
    + destruct (decide ((r, c) ∈ rangeCoords rg)).
      * destruct (cellAt g r c); [|done]. inversion Hc; subst. simpl. lia.
      * by apply (wf_spans g Hwf r c).
  - intros R C cell Hc Hv. rewrite Hrc, Hcc.
    destruct (Hcls R C cell Hc Hv) as [(-> & -> & ->)|[_ Ho]].
    + simpl. lia.
    + by apply (wf_inside g Hwf R C).
  - intros r c cell Hc Hh. rewrite Hcells in Hc.
    destruct (decide (r = minR rg ∧ c = minC rg)) as [|Hn].
    { destruct (cellAt g r c); [|done]. inversion Hc; subst. done. }
    destruct (decide ((r, c) ∈ rangeCoords rg)) as [Hi|Hi].
    + destruct (cellAt g r c); [|done]. inversion Hc; subst. simpl.
      repeat split; try done.
      exists (minR rg), (minC rg), (asMaster v rg m).
      apply in_rangeCoords in Hi.
      repeat split; try done; simpl; lia.
    + destruct (wf_hidden g Hwf r c cell Hc Hh)
        as (E1 & E2 & E3 & R & C & owner & HoR & HoC & Ho & Hv & Hcov).
      repeat split; try done. exists R, C, owner.
      repeat split; try done; try apply Hcov.
      rewrite Hcells.
      assert (HRC : (R, C) ∉ rangeCoords rg).
      { intros HRC. apply Hi.
        apply (Hcut R C owner R C r c Ho Hv); [|done|done].
        destruct (wf_spans g Hwf R C owner Ho). by apply covers_self. }
      rewrite decide_False; [by rewrite decide_False|].
      intros [-> ->]. done.
  - intros r c R1 C1 o1 R2 C2 o2 H1 Hv1 Hc1 H2 Hv2 Hc2.
    destruct (Hcls R1 C1 o1 H1 Hv1) as [(-> & -> & ->)|[Hn1 G1]];
      destruct (Hcls R2 C2 o2 H2 Hv2) as [(-> & -> & ->)|[Hn2 G2]].
    + done.
    + exfalso. apply (Hout R2 C2 o2 r c G2 Hv2 Hn2 Hc2).
      apply in_rangeCoords. destruct Hc1 as [? ?]. simpl in *. lia.
    + exfalso. apply (Hout R1 C1 o1 r c G1 Hv1 Hn1 Hc1).
      apply in_rangeCoords. destruct Hc2 as [? ?]. simpl in *. lia.
    + by apply (wf_unique g Hwf r c R1 C1 o1 R2 C2 o2).
Qed.

(** The grid [unmergeCells] leaves satisfies the invariants. *)
Lemma wf_unmerge g g' R C master :
  wf g → length <$> g' = length <$> g →
  cellAt g R C = Some master → hidden master = false →
  (∀ r c, cellAt g' r c
          = if decide (r = R ∧ c = C)
            then withSpans1 <$> cellAt g r c
            else if decide ((r, c) ∈ rectCoords R (R + rowSpan master)
                                                C (C + colSpan master))
                 then asShown <$> cellAt g r c
                 else cellAt g r c) →
  wf g' ∧
  ∀ r c, covers R C master r c →
         ∃ cell, cellAt g' r c = Some cell ∧ unmergedCell cell.
Proof.
  intros Hwf Hshape Hm Hvm Hcells.
  destruct (shape_counts g g' Hshape) as (Hrc & Hcc & _).
  set (rect := rectCoords R (R + rowSpan master) C (C + colSpan master)) in *.
  assert (Hrect : ∀ r c, (r, c) ∈ rect ↔ covers R C master r c)
    by (intros r c; subst rect; by rewrite elem_of_rectCoords).
  destruct (wf_spans g Hwf R C master Hm) as [Hs1 Hs2].
  assert (Hhid : ∀ r c x, (r, c) ∈ rect → ¬ (r = R ∧ c = C) →
            cellAt g r c = Some x → hidden x = true).
  { intros r c x Hi Hn Hx. destruct (hidden x) eqn:Hv; [done|]. exfalso.
    apply Hn. destruct (wf_spans g Hwf r c x Hx).
    apply (wf_unique g Hwf r c r c x R C master); try done.
    - by apply covers_self.
    - by apply Hrect. }
  assert (Hcls : ∀ R' C' o, cellAt g' R' C' = Some o → hidden o = false →
            ((R', C') ∈ rect ∧ rowSpan o = 1 ∧ colSpan o = 1) ∨
            (((R', C') ∉ rect) ∧ cellAt g R' C' = Some o)).
  { intros R' C' o Ho Hv. rewrite Hcells in Ho.
    destruct (decide (R' = R ∧ C' = C)) as [[-> ->]|Hn].
    - left. rewrite Hm in Ho. inversion Ho; subst. simpl.
      split; [|done]. apply Hrect. by apply covers_self.
    - destruct (decide ((R', C') ∈ rect)) as [Hi|Hi]; [|by right].
      left. destruct (cellAt g R' C') as [x|] eqn:Hx; [|done].
      inversion Ho; subst. simpl.
      destruct (wf_hidden g Hwf R' C' x Hx (Hhid R' C' x Hi Hn Hx))
        as (-> & -> & _). done. }
  assert (Hinside : ∀ r c, (r, c) ∈ rect → is_Some (cellAt g r c)).
  { intros r c Hi. apply Hrect in Hi. destruct Hi as [Hr Hc].
    destruct (wf_inside g Hwf R C master Hm Hvm) as [HR HC].
    unfold rowCountOf in HR.
    destruct (lookup_lt_is_Some_2 g r ltac:(lia)) as [row Hrow].
    pose proof (wf_rect g Hwf r row Hrow) as Hlen.
    destruct (lookup_lt_is_Some_2 row c ltac:(lia)) as [x Hx].
    exists x. apply cellAt_Some_row. by exists row. }
  split; [split|].
  - by apply (shape_rect g).
  - intros r c cell Hc. rewrite Hcells in Hc.
    destruct (decide (r = R ∧ c = C)).
    + destruct (cellAt g r c); [|done]. inversion Hc; subst. simpl. lia.
    + destruct (decide ((r, c) ∈ rect)).
      * destruct (cellAt g r c) as [x|] eqn:Hx; [|done]. inversion Hc; subst.
        simpl. by apply (wf_spans g Hwf r c).
      * by apply (wf_spans g Hwf r c).
  - intros R' C' cell Hc Hv. rewrite Hrc, Hcc.
    destruct (Hcls R' C' cell Hc Hv) as [(Hi & -> & ->)|[_ Ho]].
    + destruct (Hinside R' C' Hi) as [x Hx].
      pose proof (cellAt_in_grid g R' C' x Hwf Hx). lia.
    + by apply (wf_inside g Hwf R' C').
  - intros r c cell Hc Hh. rewrite Hcells in Hc.
    destruct (decide (r = R ∧ c = C)) as [[-> ->]|Hn].
    { rewrite Hm in Hc. inversion Hc; subst. simpl in Hh. congruence. }
    destruct (decide ((r, c) ∈ rect)) as [Hi|Hi].
    { destruct (cellAt g r c); [|done]. inversion Hc; subst. done. }
    destruct (wf_hidden g Hwf r c cell Hc Hh)
      as (E1 & E2 & E3 & R' & C' & owner & HoR & HoC & Ho & Hv & Hcov).
    repeat split; try done. exists R', C', owner.
    repeat split; try done; try apply Hcov.
    rewrite Hcells.
    destruct (decide (R' = R ∧ C' = C)) as [[-> ->]|Hn'].
    { exfalso. apply Hi, Hrect. rewrite Hm in Ho. by inversion Ho; subst. }
    rewrite decide_False; [done|]. intros Hi'.
    pose proof (Hhid R' C' owner Hi' Hn' Ho). congruence.
  - intros r c R1 C1 o1 R2 C2 o2 H1 Hv1 Hc1 H2 Hv2 Hc2.
    assert (Hmix : ∀ Ra Ca oa Rb Cb ob,
              (Ra, Ca) ∈ rect → rowSpan oa = 1 → colSpan oa = 1 →
              covers Ra Ca oa r c →
              (Rb, Cb) ∉ rect → cellAt g Rb Cb = Some ob → hidden ob = false →
              covers Rb Cb ob r c → False).
    { intros Ra Ca oa Rb Cb ob Hi Ea Ea' [? ?] Hn Gb Hvb Hcb.
      assert (r = Ra ∧ c = Ca) as [-> ->] by lia.
      apply Hn. apply Hrect in Hi.
      destruct (wf_unique g Hwf Ra Ca Rb Cb ob R C master Gb Hvb Hcb Hm Hvm Hi)
        as [-> ->].
      apply Hrect. by apply covers_self. }
    destruct (Hcls R1 C1 o1 H1 Hv1) as [(Hi1 & E1 & E1')|[Hn1 G1]];
      destruct (Hcls R2 C2 o2 H2 Hv2) as [(Hi2 & E2 & E2')|[Hn2 G2]].
    + destruct Hc1 as [? ?], Hc2 as [? ?]. lia.
    + exfalso. by eapply (Hmix R1 C1 o1 R2 C2 o2).
    + exfalso. by eapply (Hmix R2 C2 o2 R1 C1 o1).
    + by apply (wf_unique g Hwf r c R1 C1 o1 R2 C2 o2).
  - intros r c Hcov. apply Hrect in Hcov as Hi.
    destruct (Hinside r c Hi) as [x Hx]. rewrite Hcells.
    destruct (decide (r = R ∧ c = C)) as [[-> ->]|Hn].
    + rewrite Hm. eexists. split; [done|]. done.
    + rewrite decide_True by done. rewrite Hx. eexists. split; [done|].
      destruct (wf_hidden g Hwf r c x Hx (Hhid r c x Hi Hn Hx)) as (E1 & E2 & _).
      done.
Qed.

Lemma cutsNoMerge_unmerged g rg :
  (∀ r c cell, cellAt g r c = Some cell → rowSpan cell = 1 ∧ colSpan cell = 1) →
  cutsNoMerge g rg.
Proof.
  intros Hplain R C owner r c r' c' Ho _ [? ?] Hi [? ?].
  destruct (Hplain R C owner Ho) as [E1 E2]. rewrite E1, E2 in *.
  by replace r' with r by lia; replace c' with c by lia.
Qed.

End MergeInvariants.

Section MergeButtons.

Implicit Types (g : list (list TableCell)).

Lemma span_in_grid g R C master :
  wf g → cellAt g R C = Some master → hidden master = false →
  Forall (fun rc : nat * nat => is_Some (cellAt g rc.1 rc.2))
         (rectCoords R (R + rowSpan master) C (C + colSpan master)).
Proof.
  intros Hwf Hm Hvm. apply Forall_forall. intros [r c] Hi. cbn [fst snd].
  apply elem_of_rectCoords in Hi as [Hr Hc].
  destruct (wf_inside g Hwf R C master Hm Hvm) as [HR HC].
  unfold rowCountOf in HR.
  destruct (lookup_lt_is_Some_2 g r ltac:(lia)) as [row Hrow].
  pose proof (wf_rect g Hwf r row Hrow) as Hlen.
  destruct (lookup_lt_is_Some_2 row c ltac:(lia)) as [x Hx].
  exists x. apply cellAt_Some_row. by exists row.
Qed.

Lemma getRange_single R C :
  getRange (Some (mkSel (mkCoord R C) (mkCoord R C))) = Some (mkRange R R C C).
Proof. unfold getRange. cbn [selStart selEnd cr cc]. by rewrite !Nat.min_id, !Nat.max_id. Qed.

Lemma getRange_single_inv sel rg :
  getRange (Some sel) = Some rg → minR rg = maxR rg → minC rg = maxC rg →
  sel = mkSel (mkCoord (minR rg) (minC rg)) (mkCoord (minR rg) (minC rg)).
Proof.
  destruct sel as [[r1 c1] [r2 c2]]. unfold getRange. cbn [selStart selEnd cr cc].
  intros [= <-]. cbn [minR maxR minC maxC]. intros H1 H2.
  assert (r1 = r2) by lia. assert (c1 = c2) by lia. subst.
  by rewrite !Nat.min_id.
Qed.

End MergeButtons.

(** X10.  [mergeCells] keeps the invariants of the data model.  When the
    Merge button is enabled ([canMerge]), the selected rectangle lies in
    a grid that satisfies the invariants and cuts no merged cell, the
    operation succeeds, the grid it leaves satisfies the invariants, the
    selection is the one master cell, and the buttons swap: [canMerge]
    is false and [canUnmerge] is true. *)
Theorem mergeCells_keeps_invariants (st : state) (rg : range) :
  wf (data st) →
  getRange (selection st) = Some rg →
  canMerge st = true →
  inGrid (data st) rg →
  cutsNoMerge (data st) rg →
  ∃ st', mergeCells st = Some st' ∧ wf (data st') ∧
         canMerge st' = false ∧ canUnmerge st' = Some true.
Proof.
  intros Hwf Hrg Hcan Hin Hcut.
  destruct (selection st) as [sel|] eqn:Hsel; [|done].
  destruct (getRange_ordered sel rg Hrg) as [HR HC].
  unfold canMerge in Hcan. rewrite Hsel, Hrg in Hcan.
  apply orb_true_iff in Hcan. rewrite !Nat.ltb_lt in Hcan.
  assert (Hne : (minR rg =? maxR rg) && (minC rg =? maxC rg) = false).
  { apply andb_false_iff. rewrite !Nat.eqb_neq. lia. }
  destruct (mergeCells_cells st sel rg Hsel Hrg Hne Hin) as (g' & Hm & Hcells).
  eexists. split; [exact Hm|].
  pose proof (mergeCells_shape _ _ Hm) as Hshape. cbn [data] in Hshape.
  cbn [data]. split; [by eapply wf_merge|].
  unfold canMerge, canUnmerge. cbn [selection data].
  rewrite getRange_single. cbn [minR maxR minC maxC].
  rewrite !Nat.ltb_irrefl, !Nat.eqb_refl. split; [done|]. cbn [negb orb].
  rewrite Hcells, decide_True by done.
  unfold inGrid in Hin. rewrite Forall_forall in Hin.
  destruct (Hin (minR rg, minC rg)) as [m Hm0]; [apply in_rangeCoords; lia|].
  cbn [fst snd] in Hm0. rewrite Hm0.
  cbn [fmap option_fmap option_map mbind option_bind asMaster rowSpan colSpan].
  f_equal.
  apply orb_true_iff. rewrite !Nat.ltb_lt. lia.
Qed.

Lemma mergeCells_keeps_invariants_witness :
  ∃ st', mergeCells (mkState grid2x2 defaultConfig (Some selectAll2x2)) = Some st' ∧
         wf (data st') ∧ canMerge st' = false ∧ canUnmerge st' = Some true.
Proof.
  apply (mergeCells_keeps_invariants
           (mkState grid2x2 defaultConfig (Some selectAll2x2)) (mkRange 0 1 0 1)).
  - apply gridOk_wf. vm_compute. reflexivity.
  - reflexivity.
  - reflexivity.
  - unfold inGrid. vm_compute. repeat constructor; eexists; reflexivity.
  - apply cutsNoMerge_unmerged. intros r c cell.
    destruct r as [|[|r]], c as [|[|c]]; cbn; intros [= <-] || discriminate; done.
Defined.

(** X11.  The Merge button is disabled exactly when [mergeCells] would
    do nothing: with [canMerge] false the operation returns the state it
    was given. *)
Theorem mergeCells_disabled (st : state) :
  canMerge st = false → mergeCells st = Some st.
Proof.
  unfold canMerge, mergeCells.
  destruct (selection st) as [sel|] eqn:Hsel; [|done].
  destruct (getRange (Some sel)) as [rg|] eqn:Hrg; [|done].
  destruct (getRange_ordered sel rg Hrg) as [HR HC].
  intros H. apply orb_false_iff in H. rewrite !Nat.ltb_ge in H.
  replace (minR rg =? maxR rg) with true by (symmetry; apply Nat.eqb_eq; lia).
  replace (minC rg =? maxC rg) with true by (symmetry; apply Nat.eqb_eq; lia).
  done.
Qed.

Lemma mergeCells_disabled_witness :
  mergeCells (mkState grid2x2 defaultConfig (Some (mkSel (mkCoord 1 1) (mkCoord 1 1))))
  = Some (mkState grid2x2 defaultConfig (Some (mkSel (mkCoord 1 1) (mkCoord 1 1)))).
Proof. apply mergeCells_disabled. reflexivity. Defined.

(** X12.  [unmergeCells] keeps the invariants of the data model.  When
    the Unmerge button is enabled ([canUnmerge]) on a grid that satisfies
    the invariants, the operation succeeds, the grid it leaves satisfies
    the invariants, every position the merged cell covered holds a
    visible cell of spans 1, the master keeps its text, every other cell
    of the grid is as it was, and [canUnmerge] is false afterwards. *)
Theorem unmergeCells_keeps_invariants (st : state) :
  wf (data st) →
  canUnmerge st = Some true →
  ∃ st' rg master,
    getRange (selection st) = Some rg ∧
    cellAt (data st) (minR rg) (minC rg) = Some master ∧
    unmergeCells st = Some st' ∧
    wf (data st') ∧
    canUnmerge st' = Some false ∧
    cellAt (data st') (minR rg) (minC rg) = Some (withSpans1 master) ∧
    (∀ r c, covers (minR rg) (minC rg) master r c →
            ∃ cell, cellAt (data st') r c = Some cell ∧ unmergedCell cell) ∧
    (∀ r c, ¬ covers (minR rg) (minC rg) master r c →
            cellAt (data st') r c = cellAt (data st) r c).
Proof.
  intros Hwf Hcan. unfold canUnmerge in Hcan.
  destruct (selection st) as [sel|] eqn:Hsel; [|done].
  destruct (getRange (Some sel)) as [rg|] eqn:Hrg; [|done].
  destruct (negb (minR rg =? maxR rg) || negb (minC rg =? maxC rg)) eqn:Hone;
    [done|].
  apply orb_false_iff in Hone. rewrite !negb_false_iff, !Nat.eqb_eq in Hone.
  destruct Hone as [ER EC].
  destruct (cellAt (data st) (minR rg) (minC rg)) as [master|] eqn:Hm; [|done].
  simpl in Hcan. injection Hcan as Hspan.
  apply orb_true_iff in Hspan. rewrite !Nat.ltb_lt in Hspan.
  pose proof (getRange_single_inv sel rg Hrg ER EC) as ->.
  set (R := minR rg) in *. set (C := minC rg) in *.
  assert (Hvm : hidden master = false).
  { destruct (hidden master) eqn:Hh; [|done].
    destruct (wf_hidden _ Hwf R C master Hm Hh) as (E1 & E2 & _). lia. }
  assert (Hne : (rowSpan master =? 1) && (colSpan master =? 1) = false).
  { apply andb_false_iff. rewrite !Nat.eqb_neq. lia. }
  destruct (unmergeCells_cells st R C master Hsel Hm Hne
              (span_in_grid _ R C master Hwf Hm Hvm)) as (g' & Hu & Hcells).
  pose proof (unmergeCells_shape _ _ Hu) as Hshape. cbn [data] in Hshape.
  destruct (wf_unmerge (data st) g' R C master Hwf Hshape Hm Hvm Hcells)
    as [Hwf' Hplain].
  assert (Hmaster : cellAt g' R C = Some (withSpans1 master)).
  { rewrite Hcells, decide_True by done. by rewrite Hm. }
  exists (mkState g' (config st) (selection st)), rg, master.
  split; [done|]. split; [done|]. split; [done|]. cbn [data].
  split; [done|]. split; [|split; [done|split; [done|]]].
  - unfold canUnmerge. cbn [selection data]. rewrite Hsel, getRange_single.
    cbn [minR maxR minC maxC]. rewrite !Nat.eqb_refl. cbn [negb orb].
    by rewrite Hmaster.
  - intros r c Hn. rewrite Hcells.
    rewrite decide_False.
    + rewrite decide_False; [done|]. by rewrite elem_of_rectCoords.
    + intros [-> ->]. apply Hn.
      destruct (wf_spans _ Hwf R C master Hm). by apply covers_self.
Qed.

Lemma unmergeCells_keeps_invariants_witness :
  ∃ st' rg master,
    getRange (Some (mkSel (mkCoord 0 0) (mkCoord 0 0))) = Some rg ∧
    cellAt mergedCorner (minR rg) (minC rg) = Some master ∧
    unmergeCells (mkState mergedCorner defaultConfig
                          (Some (mkSel (mkCoord 0 0) (mkCoord 0 0)))) = Some st' ∧
    wf (data st').
Proof.
  destruct (unmergeCells_keeps_invariants
              (mkState mergedCorner defaultConfig
                       (Some (mkSel (mkCoord 0 0) (mkCoord 0 0)))))
    as (st' & rg & master & H1 & H2 & H3 & H4 & _).
  - apply mergedCorner_wf.
  - reflexivity.
  - exists st', rg, master. done.
Defined.

Section CellChange.

Implicit Types (g : list (list TableCell)).

(** A grid with the shape of a grid that satisfies the invariants, whose
    cells have the spans, the visibility and the owners of its cells, and
    the text of its hidden cells, satisfies them too. *)
Lemma wf_same_layout g g' :
  wf g → length <$> g' = length <$> g →
  (∀ r c x', cellAt g' r c = Some x' →
     ∃ x, cellAt g r c = Some x ∧
          rowSpan x' = rowSpan x ∧ colSpan x' = colSpan x ∧
          hidden x' = hidden x ∧ ownerRow x' = ownerRow x ∧
          ownerCol x' = ownerCol x ∧ (hidden x = true → value x' = value x)) →
  (∀ r c x, cellAt g r c = Some x →
     ∃ x', cellAt g' r c = Some x' ∧
           rowSpan x' = rowSpan x ∧ colSpan x' = colSpan x ∧
           hidden x' = hidden x) →
  wf g'.
Proof.
  intros Hwf Hshape Hback Hforth.
  destruct (shape_counts g g' Hshape) as (Hrc & Hcc & _).
  split.
  - by apply (shape_rect g).
  - intros r c x' Hx'. destruct (Hback r c x' Hx') as (x & Hx & -> & -> & _).
    by apply (wf_spans g Hwf r c).
  - intros R C x' Hx' Hv. rewrite Hrc, Hcc.
    destruct (Hback R C x' Hx') as (x & Hx & -> & -> & Hh & _).
    apply (wf_inside g Hwf R C x Hx). congruence.
  - intros r c x' Hx' Hh.
    destruct (Hback r c x' Hx') as (x & Hx & -> & -> & E & -> & -> & Hval).
    rewrite E in Hh. rewrite (Hval Hh).
    destruct (wf_hidden g Hwf r c x Hx Hh)
      as (E1 & E2 & E3 & R & C & owner & HoR & HoC & Ho & Hv & Hcov).
    repeat split; try done.
    destruct (Hforth R C owner Ho) as (owner' & Ho' & Er & Ec & Eh).
    exists R, C, owner'. unfold covers in *. rewrite Er, Ec.
    repeat split; try done; try lia. congruence.
  - intros r c R1 C1 o1 R2 C2 o2 H1 Hv1 Hc1 H2 Hv2 Hc2.
    destruct (Hback R1 C1 o1 H1) as (x1 & Hx1 & Er1 & Ec1 & Eh1 & _).
    destruct (Hback R2 C2 o2 H2) as (x2 & Hx2 & Er2 & Ec2 & Eh2 & _).
    unfold covers in *. rewrite Er1, Ec1 in Hc1. rewrite Er2, Ec2 in Hc2.
    apply (wf_unique g Hwf r c R1 C1 x1 R2 C2 x2); try done; congruence.
Qed.

Lemma cellAt_insert g r0 c0 (row : list TableCell) (x : TableCell) r c :
  g !! r0 = Some row → c0 < length row →
  cellAt (<[r0 := <[c0 := x]> row]> g) r c
  = if decide (r = r0 ∧ c = c0) then Some x else cellAt g r c.
Proof.
  intros Hrow Hc0. pose proof (lookup_lt_Some _ _ _ Hrow) as Hr0.
  unfold cellAt. destruct (decide (r = r0)) as [->|Hr].
  - rewrite list_lookup_insert_eq by done. simpl. rewrite Hrow. simpl.
    destruct (decide (c = c0)) as [->|Hc].
    + rewrite list_lookup_insert_eq by done. by rewrite decide_True.
    + rewrite list_lookup_insert_ne by done. rewrite decide_False; [done|].
      by intros [_ ?].
  - rewrite list_lookup_insert_ne by done. rewrite decide_False; [done|].
    by intros [? _].
Qed.

End CellChange.

(** X13.  [handleCellChange] throws exactly when the row is missing.  On
    a cell of the grid it replaces the text of that cell and nothing
    else: the id, the spans and the merge state of the cell, every other
    cell, the configuration and the selection are as they were; and when
    the cell is visible, as every cell with an input box is, the grid
    still satisfies the invariants of the data model. *)
Theorem handleCellChange_spec (rowIndex colIndex : nat) (v : string) (st : state) :
  (handleCellChange rowIndex colIndex v st = Threw
   ↔ rowCountOf (data st) ≤ rowIndex) ∧
  (∀ cell, cellAt (data st) rowIndex colIndex = Some cell →
     ∃ st', handleCellChange rowIndex colIndex v st = Changed st' ∧
            cellAt (data st') rowIndex colIndex
            = Some (mkCell (id cell) v (rowSpan cell) (colSpan cell)
                           (hidden cell) (ownerRow cell) (ownerCol cell)) ∧
            (∀ r c, ¬ (r = rowIndex ∧ c = colIndex) →
                    cellAt (data st') r c = cellAt (data st) r c) ∧
            config st' = config st ∧ selection st' = selection st ∧
            (wf (data st) → hidden cell = false → wf (data st'))).
Proof.
  split.
  - unfold handleCellChange, rowCountOf.
    destruct (data st !! rowIndex) as [row|] eqn:Hrow.
    + apply lookup_lt_Some in Hrow.
      destruct (row !! colIndex); split; (done || lia).
    + apply lookup_ge_None in Hrow. done.
  - intros cell Hcell. apply cellAt_Some_row in Hcell as Hc.
    destruct Hc as (row & Hrow & Hc).
    pose proof (lookup_lt_Some _ _ _ Hc) as Hlt.
    unfold handleCellChange. rewrite Hrow, Hc. eexists. split; [done|].
    cbn [data config selection].
    assert (Hcells := fun r c =>
              cellAt_insert (data st) rowIndex colIndex row (withValue v cell)
                            r c Hrow Hlt).
    split; [by rewrite Hcells, decide_True|].
    split; [intros r c Hn; by rewrite Hcells, decide_False|].
    split; [done|]. split; [done|]. intros Hwf Hv.
    apply (wf_same_layout (data st)); [done| | |].
    + apply list_eq. intros i. rewrite !list_lookup_fmap.
      destruct (decide (i = rowIndex)) as [->|Hne].
      * rewrite list_lookup_insert_eq by (by eapply lookup_lt_Some).
        rewrite Hrow. simpl. by rewrite length_insert.
      * by rewrite list_lookup_insert_ne.
    + intros r c x'. rewrite Hcells. case_decide as Hd.
      * destruct Hd as [-> ->]. intros [= <-]. exists cell.
        split; [done|]. simpl. repeat split; try done. congruence.
      * intros Hx. exists x'. done.
    + intros r c x Hx. rewrite Hcells. case_decide as Hd.
      * destruct Hd as [-> ->]. rewrite Hcell in Hx. inversion Hx; subst.
        eexists. split; [done|]. done.
      * exists x. done.
Qed.

Lemma handleCellChange_spec_witness :
  ∃ st', handleCellChange 0 2 "new"
           (mkState mergedCorner defaultConfig None) = Changed st' ∧
         cellAt (data st') 0 2 = Some (plainCell "3" "new") ∧
         wf (data st').
Proof.
  destruct (handleCellChange_spec 0 2 "new"
              (mkState mergedCorner defaultConfig None)) as [_ H].
  destruct (H (plainCell "3" "C")) as (st' & H1 & H2 & _ & _ & _ & H3).
  - reflexivity.
  - exists st'. split; [exact H1|]. split; [exact H2|].
    apply H3; [apply mergedCorner_wf|reflexivity].
Defined.

(** X14.  A drag selects the bounding box of its two ends.  After the
    mouse went down on (r0, c0) and entered any cells, the last of them
    (r1, c1), the selection runs from (r0, c0) to (r1, c1) whatever the
    way between them; the selected cells are those of the rectangle the
    two span; the Merge button is enabled exactly when the two differ;
    and after the mouse went up, entering a cell changes nothing. *)
Theorem drag_selects_bounding_box (r0 c0 r1 c1 : nat) (way : list (nat * nat))
        (p0 : picking) :
  let p := foldl (fun p rc => handleMouseEnter rc.1 rc.2 p)
                 (handleMouseDown r0 c0 p0) (way ++ [(r1, c1)]) in
  picked p = Some (mkSel (mkCoord r0 c0) (mkCoord r1 c1)) ∧
  (∀ r c, isSelected (picked p) r c = true
          ↔ (Nat.min r0 r1 ≤ r ≤ Nat.max r0 r1) ∧
            (Nat.min c0 c1 ≤ c ≤ Nat.max c0 c1)) ∧
  (∀ g cfg, canMerge (mkState g cfg (picked p)) = true ↔ r0 ≠ r1 ∨ c0 ≠ c1) ∧
  (∀ r c, handleMouseEnter r c (endSelect p) = endSelect p).
Proof.
  intros p.
  assert (Hinv : ∀ l q,
            (∃ e, q = mkPicking (Some (mkSel (mkCoord r0 c0) e)) true) →
            ∃ e, foldl (fun p rc => handleMouseEnter rc.1 rc.2 p) q l
                 = mkPicking (Some (mkSel (mkCoord r0 c0) e)) true).
  { induction l as [|rc l IH]; intros q Hq; [done|]. simpl. apply IH.
    destruct Hq as [e ->]. by eexists. }
  assert (Hp : p = mkPicking (Some (mkSel (mkCoord r0 c0) (mkCoord r1 c1))) true).
  { subst p. rewrite foldl_app. simpl.
    destruct (Hinv way (handleMouseDown r0 c0 p0)) as [e ->]; [by eexists|].
    done. }
  rewrite Hp. cbn [picked]. split; [done|]. split; [|split].
  - intros r c. unfold isSelected, getRange.
    cbn [selStart selEnd cr cc minR maxR minC maxC].
    rewrite !andb_true_iff, !Nat.leb_le. lia.
  - intros g cfg. unfold canMerge, getRange.
    cbn [selection selStart selEnd cr cc minR maxR minC maxC].
    rewrite orb_true_iff, !Nat.ltb_lt. lia.
  - done.
Qed.

(** X15.  Dragging a resize handle sets the drawn size.  For a drag of
    the handle of column [index] that started at [p0] and is at [p1],
    the renderer draws the column max(50, start + (p1 - p0)) wide, times
    the width scale, where start is the override the column had, or 120;
    the other columns keep their widths.  For the handle of row [index]
    the renderer draws the row max(30, start + (p1 - p0)) high, where
    start is the override the row had, or 50; the other rows keep their
    heights and the columns their widths. *)
Theorem resize_sets_drawn_size (data : TableData) (config : TableConfig)
        (index : nat) (p0 p1 other : Q) :
  let cfgC := handleMouseMove (startColResize config index p0) p1 other config in
  let cfgR := handleMouseMove (startRowResize config index p0) other p1 config in
  let w := Qmax 50 (default 120%Q (customColumnWidths config !! index) + (p1 - p0)) in
  let h := Qmax 30 (default 50%Q (customRowHeights config !! index) + (p1 - p0)) in
  (index < colCountOf data →
   colWidths data cfgC !! index = Some (Some (Num (w * scaleFactor config)))) ∧
  (∀ j, j ≠ index → colWidths data cfgC !! j = colWidths data config !! j) ∧
  (index < rowCountOf data → rowHeights data cfgR !! index = Some (Num h)) ∧
  (∀ j, j ≠ index → rowHeights data cfgR !! j = rowHeights data config !! j) ∧
  colWidths data cfgR = colWidths data config.
Proof.
  intros cfgC cfgR w h.
  assert (HcwR : colWidths data cfgR = colWidths data config) by done.
  split; [|split; [|split; [|split; [|done]]]].
  - intros Hi. rewrite colWidths_lookup by done. unfold chosenBase.
    subst cfgC. cbn [handleMouseMove startColResize rAxis rIndex startPos startSize
                     withColumnWidths customColumnWidths].
    by rewrite lookup_insert_eq.
  - intros j Hj. unfold colWidths. destruct data as [|row0 rest]; [done|].
    rewrite !list_lookup_imap. destruct (autoWidths (row0 :: rest) !! j); [|done].
    simpl. do 2 f_equal. unfold finalWidth. subst cfgC.
    cbn [handleMouseMove startColResize rAxis rIndex startPos startSize
         withColumnWidths customColumnWidths].
    by rewrite lookup_insert_ne.
  - intros Hi. unfold rowCountOf in Hi.
    destruct (lookup_lt_is_Some_2 _ _ Hi) as [row Hrow].
    rewrite (rowHeights_lookup data cfgR index row Hrow). unfold rowHeight.
    subst cfgR. cbn [handleMouseMove startRowResize rAxis rIndex startPos startSize
                     withRowHeights customRowHeights].
    rewrite lookup_insert_eq. fold h.
    assert (Hh : truthyQ h = true).
    { unfold truthyQ. apply negb_true_iff. apply not_true_is_false.
      intros E. apply Qeq_bool_iff in E.
      pose proof (Q.le_max_l 30 (default 50%Q (customRowHeights config !! index)
                                 + (p1 - p0))) as Hle.
      fold h in Hle. rewrite E in Hle. unfold Qle in Hle. simpl in Hle. lia. }
    by rewrite Hh.
  - intros j Hj. unfold rowHeights. rewrite HcwR, !list_lookup_imap.
    destruct (data !! j) as [row|]; [|done]. simpl. f_equal.
    unfold rowHeight. subst cfgR.
    cbn [handleMouseMove startRowResize rAxis rIndex startPos startSize
         withRowHeights customRowHeights].
    by rewrite lookup_insert_ne.
Qed.

Lemma resize_sets_drawn_size_witness :
  colWidths oneCell
    (handleMouseMove (startColResize defaultConfig 0 100) 130 0 defaultConfig) !! 0
  = Some (Some (Num (Qmax 50 (120 + (130 - 100)) * scaleFactor defaultConfig))) ∧
  rowHeights oneCell
    (handleMouseMove (startRowResize defaultConfig 0 100) 0 40 defaultConfig) !! 0
  = Some (Num (Qmax 30 (50 + (40 - 100)))).
Proof.
  destruct (resize_sets_drawn_size oneCell defaultConfig 0 100 130 0)
    as (H1 & _ & _).
  destruct (resize_sets_drawn_size oneCell defaultConfig 0 100 40 0)
    as (_ & _ & H3 & _).
  split; [apply H1; vm_compute; lia|apply H3; vm_compute; lia].
Defined.

Section TextContent.

Variable rnd : nat → number.
Variable data : TableData.
Variable config : TableConfig.

Lemma bind_run {X Y} (m : Sketch.Draw X) (k : X → Sketch.Draw Y) (n : nat) :
  Sketch.bind m k n = k (m n).1 (m n).2.
Proof. unfold Sketch.bind. by destruct (m n). Qed.

Lemma centredDraw_run (n : nat) :
  centredDraw rnd n = (sub (rnd n) (Num (1 # 2)), S n).
Proof. reflexivity. Qed.

Lemma tspansFrom_spec (anchor : number) (tr lh : Q) (lines : list string) :
  ∀ i n,
    (fun sp => (spDy sp, spText sp)) <$> (tspansFrom rnd i anchor tr lh lines n).1
    = imap (fun k line => (if i + k =? 0 then 0%Q else lh, line)) lines ∧
    (tspansFrom rnd i anchor tr lh lines n).2 = n + length lines.
Proof.
  induction lines as [|line lines IH]; intros i n; [by simpl|].
  cbn [tspansFrom]. rewrite bind_run, centredDraw_run. cbn [fst snd].
  rewrite bind_run. unfold Sketch.ret. cbn [fst snd].
  destruct (IH (S i) (S n)) as [IH1 IH2]. split.
  - rewrite fmap_cons, imap_cons, Nat.add_0_r. cbn [spDy spText]. f_equal.
    rewrite IH1. apply imap_ext. intros k x _. simpl.
    by replace (i + S k) with (S (i + k)) by lia.
  - rewrite IH2. simpl. lia.
Qed.

Lemma textOf_spec (r c : nat) (cell : TableCell) (n : nat) :
  shown (textOf rnd data config r c cell n).1 = shownOf data config (r, c, cell) ∧
  (textOf rnd data config r c cell n).2 = n + drawsOf data config (r, c, cell).
Proof.
  unfold textOf, drawsOf, shownOf. cbn [fst snd].
  rewrite bind_run, centredDraw_run. cbn [fst snd].
  rewrite bind_run, centredDraw_run. cbn [fst snd].
  rewrite bind_run. unfold Sketch.ret, shown.
  cbn [fst snd tKey tFontSize tBold tSpans].
  match goal with
  | |- context [tspansFrom rnd 0 ?a ?tr ?lh ?ls ?m] =>
      destruct (tspansFrom_spec a tr lh ls 0 m) as [H1 H2]
  end.
  rewrite H1, H2. split; [done|lia].
Qed.

Lemma textRow_spec (r : nat) (row : list TableCell) :
  ∀ (f : nat → nat) (st : textState),
    ∃ es,
      forEachFrom (f 0) (textStep rnd data config r) row st
      = (st.1 ++ es, st.2 + sum_list (drawsOf data config <$>
            omap (fun x : option (nat * nat * TableCell) => x)
              (imap (fun i cell => if hidden cell then None
                                   else Some (r, f 0 + i, cell)) row))) ∧
      shown <$> es
      = shownOf data config <$>
          omap (fun x : option (nat * nat * TableCell) => x)
            (imap (fun i cell => if hidden cell then None
                                 else Some (r, f 0 + i, cell)) row).
Proof.
  induction row as [|cell row IH]; intros f st.
  - exists []. simpl. rewrite app_nil_r, Nat.add_0_r. by destruct st.
  - cbn [forEachFrom]. rewrite imap_cons.
    destruct (IH (fun k => S (f 0) + k) (textStep rnd data config r st cell (f 0)))
      as (es & Hrun & Hshown).
    rewrite Nat.add_0_r in Hrun, Hshown.
    rewrite (imap_ext ((fun i cell0 => if hidden cell0 then None
                                       else Some (r, f 0 + i, cell0)) ∘ S)
                      (fun i cell0 => if hidden cell0 then None
                                      else Some (r, S (f 0) + i, cell0)))
      by (intros i x _; simpl; destruct (hidden x); [done|];
          do 3 f_equal; lia).
    rewrite Hrun. unfold textStep at 1 2. rewrite Nat.add_0_r.
    destruct (hidden cell) eqn:Hh.
    + exists es. cbn [omap list_omap]. done.
    + destruct (textOf_spec r (f 0) cell st.2) as [H1 H2].
      destruct (textOf rnd data config r (f 0) cell st.2) as [e n'].
      cbn [fst snd] in *. exists (e :: es). cbn [omap list_omap].
      rewrite !fmap_cons. cbn [sum_list_with sum_list]. split.
      * rewrite <- app_assoc. simpl. f_equal. rewrite H2.
        unfold drawsOf at 1. cbn [fst snd]. lia.
      * by rewrite H1, Hshown.
Qed.

Lemma textRows_spec (rows : list (list TableCell)) :
  ∀ (r0 : nat) (st : textState),
    ∃ es,
      forEachFrom r0
        (fun st row rowIndex => forEachFrom 0 (textStep rnd data config rowIndex) row st)
        rows st
      = (st.1 ++ es,
         st.2 + sum_list (drawsOf data config <$>
                  concat (imap (fun i row => visibleInRow (r0 + i) row) rows))) ∧
      shown <$> es
      = shownOf data config <$>
          concat (imap (fun i row => visibleInRow (r0 + i) row) rows).
Proof.
  induction rows as [|row rows IH]; intros r0 st.
  - exists []. simpl. rewrite app_nil_r, Nat.add_0_r. by destruct st.
  - cbn [forEachFrom]. rewrite imap_cons. cbn [concat].
    rewrite Nat.add_0_r.
    destruct (textRow_spec r0 row (fun k => k) st) as (es1 & Hrun1 & Hshown1).
    cbn beta in Hrun1, Hshown1. cbn [Nat.add] in Hrun1, Hshown1.
    rewrite Hrun1.
    destruct (IH (S r0) (st.1 ++ es1,
                st.2 + sum_list (drawsOf data config <$> visibleInRow r0 row)))
      as (es2 & Hrun2 & Hshown2).
    rewrite (imap_ext ((fun i row0 => visibleInRow (r0 + i) row0) ∘ S)
                      (fun i row0 => visibleInRow (S r0 + i) row0))
      by (intros i x _; simpl; f_equal; lia).
    unfold visibleInRow at 1 2 in Hrun2.
    unfold visibleInRow at 1 3.
    rewrite Hrun2. cbn [fst snd]. exists (es1 ++ es2).
    rewrite !fmap_app, sum_list_with_app, Hshown1, Hshown2, <- app_assoc.
    split; [f_equal; unfold visibleInRow; lia|done].
Qed.

End TextContent.

(** X17.  [textElements] makes one [<text>] element for each visible cell
    and none for a hidden one, row by row and from the left to the right
    in a row.  The element has the id of its cell as key, the font size
    of its row, is bold in the first row only, and holds the lines of the
    wrapped text of the cell, the first at [dy] 0 and each other one line
    height below; none of this depends on the random draws.  The pass
    takes two draws for every visible cell and one for each of its
    lines. *)
Theorem textElements_content (rnd : nat → number) (data : TableData)
        (config : TableConfig) (n : nat) :
  shown <$> (textElements rnd data config n).1
  = shownOf data config <$> visibleCells data ∧
  (textElements rnd data config n).2
  = n + sum_list (drawsOf data config <$> visibleCells data).
Proof.
  unfold textElements, forEach.
  destruct (textRows_spec rnd data config data 0 ([], n)) as (es & Hrun & Hshown).
  rewrite Hrun. cbn [fst snd app]. unfold visibleCells. done.
Qed.

Section PathKeys.

Variable data : TableData.
Variable config : TableConfig.
Context {M : JsMath number}.
Variable rnd : nat → number.

Lemma getRoughPath_draws (x1 y1 x2 y2 ro bo : number) (n : nat) :
  (Sketch.getRoughPath rnd x1 y1 x2 y2 ro bo n).2 = n + 5.
Proof.
  unfold Sketch.getRoughPath, Sketch.centred, Sketch.bind, Sketch.Math_random,
    Sketch.ret. cbn [snd]. lia.
Qed.

Lemma strokes_draws k line seg x1 y1 x2 y2 n :
  (strokes rnd config k line seg x1 y1 x2 y2 n).2
  = n + 5 * length (strokes rnd config k line seg x1 y1 x2 y2 n).1.
Proof.
  unfold strokes. rewrite bind_run.
  rewrite getRoughPath_draws.
  destruct (negb (Qle_bool (roughness config) (1 # 2))).
  - rewrite bind_run, getRoughPath_draws. unfold Sketch.ret. cbn [fst snd length].
    lia.
  - unfold Sketch.ret. cbn [fst snd length]. lia.
Qed.

Lemma renderSegments_draws (n0 : nat) (segs : list segment) :
  ∀ st, st.2 = n0 + 5 * length st.1 →
        (renderSegments config rnd st segs).2
        = n0 + 5 * length (renderSegments config rnd st segs).1.
Proof.
  induction segs as [|s segs IH]; intros st Hst; [done|].
  cbn [renderSegments foldl]. apply IH. unfold renderSegment.
  pose proof (strokes_draws (sDir s) (sLine s) (sSeg s)
                (sX1 s) (sY1 s) (sX2 s) (sY2 s) st.2) as H.
  destruct (strokes rnd config _ _ _ _ _ _ _ st.2) as [new n'].
  cbn [fst snd] in *. rewrite length_app. lia.
Qed.

Lemma NoDup_rectCoords (rlo rhi clo chi : nat) :
  NoDup (rectCoords rlo rhi clo chi).
Proof.
  unfold rectCoords. apply NoDup_bind.
  - intros r1 r2 [r c] _ _ H1 H2.
    apply list_elem_of_bind in H1 as (c1 & H1 & _).
    apply list_elem_of_bind in H2 as (c2 & H2 & _).
    apply list_elem_of_singleton in H1, H2. congruence.
  - intros r _. apply NoDup_bind.
    + intros c1 c2 rc _ _ H1 H2.
      apply list_elem_of_singleton in H1, H2. congruence.
    + intros c _. apply NoDup_singleton.
    + apply NoDup_seq.
  - apply NoDup_seq.
Qed.

Lemma decided_places (f : nat * nat → option (option segment)) (k : dir)
      (coords : list (nat * nat)) :
  (∀ rc s, f rc = Some (Some s) → placeOf s = (k, rc.1, rc.2)) →
  ∀ os, mapM f coords = Some os →
        placeOf <$> omap (fun o : option segment => o) os
        `sublist_of` (fun rc : nat * nat => (k, rc.1, rc.2)) <$> coords.
Proof.
  intros Hf os Hos. apply mapM_Some_1 in Hos.
  induction Hos as [|rc o coords os Ho _ IH]; [constructor|].
  cbn [omap list_omap]. rewrite fmap_cons. destruct o as [s|].
  - rewrite fmap_cons, (Hf rc s Ho). by apply sublist_skip.
  - by apply sublist_cons.
Qed.

Lemma horizontalAt_place rc s :
  horizontalAt data config rc = Some (Some s) → placeOf s = (Horizontal, rc.1, rc.2).
Proof.
  unfold horizontalAt. destruct (shouldDrawH data rc.1 rc.2) as [[|]|]; simpl;
    [|done|done]. by intros [= <-].
Qed.

Lemma verticalAt_place cr s :
  verticalAt data config cr = Some (Some s) → placeOf s = (Vertical, cr.1, cr.2).
Proof.
  unfold verticalAt. destruct (shouldDrawV data cr.1 cr.2) as [[|]|]; simpl;
    [|done|done]. by intros [= <-].
Qed.

Lemma segmentsOf_places segs :
  segmentsOf data config = Some segs → NoDup (placeOf <$> segs).
Proof.
  unfold segmentsOf.
  destruct (mapM (horizontalAt data config) _) as [hs|] eqn:Hh; [|done].
  destruct (mapM (verticalAt data config) _) as [vs|] eqn:Hv; [|done].
  cbn [mbind option_bind]. intros [= <-]. rewrite omap_app, fmap_app.
  pose proof (decided_places _ Horizontal _ horizontalAt_place hs Hh) as Sh.
  pose proof (decided_places _ Vertical _ verticalAt_place vs Hv) as Sv.
  assert (Hinj : ∀ k : dir, Inj (=) (=) (fun rc : nat * nat => (k, rc.1, rc.2))).
  { intros k [a b] [a' b']. cbn [fst snd]. congruence. }
  apply NoDup_app. split; [|split].
  - eapply sublist_NoDup; [|exact Sh].
    apply NoDup_fmap_2; [apply Hinj|apply NoDup_rectCoords].
  - intros p Hp Hp'.
    apply (elem_of_sublist _ _ _ Hp) in Sh. apply (elem_of_sublist _ _ _ Hp') in Sv.
    apply list_elem_of_fmap in Sh as (rc & -> & _).
    apply list_elem_of_fmap in Sv as (rc' & E & _). discriminate.
  - eapply sublist_NoDup; [|exact Sv].
    apply NoDup_fmap_2; [apply Hinj|apply NoDup_rectCoords].
Qed.

Lemma elem_of_keysOf (q : pathKey) (s : segment) :
  q ∈ keysOf config s → (kDir q, kLine q, kSeg q) = placeOf s.
Proof.
  unfold keysOf. intros H. apply elem_of_cons in H as [->|H]; [done|].
  destruct (negb _); [|by apply elem_of_nil in H].
  apply list_elem_of_singleton in H. by subst.
Qed.

Lemma NoDup_keysOf (s : segment) : NoDup (keysOf config s).
Proof.
  unfold keysOf. destruct (negb _); [|apply NoDup_singleton].
  apply NoDup_cons. split; [|apply NoDup_singleton].
  intros H. apply list_elem_of_singleton in H. discriminate.
Qed.

Lemma NoDup_keys (segs : list segment) :
  NoDup (placeOf <$> segs) → NoDup (flat_map (keysOf config) segs).
Proof.
  induction segs as [|s segs IH]; [constructor|].
  rewrite fmap_cons. intros Hnd. apply NoDup_cons in Hnd as [Hs Hnd].
  cbn [flat_map]. apply NoDup_app. split; [apply NoDup_keysOf|].
  split; [|by apply IH].
  intros q Hq Hq'. apply Hs. apply elem_of_keysOf in Hq. rewrite <- Hq.
  apply list_elem_of_In, in_flat_map in Hq' as (s' & Hs' & Hq').
  apply list_elem_of_In in Hs', Hq'. apply elem_of_keysOf in Hq'. rewrite Hq'.
  by apply list_elem_of_fmap_2.
Qed.

End PathKeys.

(** X18.  The elements of a pass of the grid lines have keys that differ
    from one another: no two [<path>] elements of a pass have the same
    direction, grid line, segment and stroke.  The pass takes five random
    draws for each element it makes. *)
Theorem paths_keys_distinct {M : JsMath number} (rnd : nat → number)
        (data : TableData) (config : TableConfig) (n : nat) (st : drawState) :
  paths rnd data config n = Some st →
  NoDup (key <$> st.1) ∧ st.2 = n + 5 * length st.1.
Proof.
  rewrite paths_factor.
  destruct (segmentsOf data config) as [segs|] eqn:Hsegs; [|done].
  cbn [mbind option_bind]. intros [= <-]. split.
  - rewrite renderSegments_keys. cbn [fst fmap list_fmap app].
    apply NoDup_keys. by apply (segmentsOf_places data config).
  - apply renderSegments_draws. cbn [fst snd length]. lia.
Qed.

Lemma paths_keys_distinct_witness :
  NoDup (key <$> (default ([], 0)
                    (paths (M := exampleMath) (fun _ => Num (1 # 2))
                           mergedCorner defaultConfig 0)).1).
Proof.
  eapply proj1.
  apply (paths_keys_distinct (M := exampleMath) (fun _ => Num (1 # 2))
           mergedCorner defaultConfig 0).
  vm_compute. reflexivity.
Defined.

Section RemoveUnmerged.

Implicit Types (g : list (list TableCell)).

Lemma colCountOf_row0 g r row :
  g !! r = Some row → ∃ row0, g !! 0 = Some row0 ∧ colCountOf g = length row0.
Proof.
  intros Hr. destruct g as [|row0 rest]; [done|]. by exists row0.
Qed.

Lemma wf_removeRow g k :
  wf g → (∀ r c cell, cellAt g r c = Some cell → unmergedCell cell) →
  wf (removeAt k g) ∧
  ∀ r c cell, cellAt (removeAt k g) r c = Some cell → unmergedCell cell.
Proof.
  intros Hwf Hplain.
  assert (Hcells : ∀ r c, cellAt (removeAt k g) r c = cellAt g (oldIndex k r) c).
  { intros r c. unfold cellAt, oldIndex. rewrite removeAt_lookup. by case_decide. }
  assert (Hall : ∀ r c cell, cellAt (removeAt k g) r c = Some cell → unmergedCell cell).
  { intros r c cell. rewrite Hcells. apply Hplain. }
  split; [|done]. apply wf_unmerged; [|done].
  assert (Hrows : ∀ r row, removeAt k g !! r = Some row → length row = colCountOf g).
  { intros r row. rewrite removeAt_lookup.
    case_decide; apply (wf_rect g Hwf). }
  intros r row Hr. rewrite (Hrows r row Hr).
  destruct (colCountOf_row0 _ r row Hr) as (row0 & H0 & ->).
  symmetry. by apply (Hrows 0).
Qed.

Lemma wf_removeCol g k :
  wf g → (∀ r c cell, cellAt g r c = Some cell → unmergedCell cell) →
  wf (removeAt k <$> g) ∧
  ∀ r c cell, cellAt (removeAt k <$> g) r c = Some cell → unmergedCell cell.
Proof.
  intros Hwf Hplain.
  assert (Hcells : ∀ r c, cellAt (removeAt k <$> g) r c = cellAt g r (oldIndex k c)).
  { intros r c. unfold cellAt, oldIndex. rewrite list_lookup_fmap.
    destruct (g !! r) as [row|]; [|done]. simpl. rewrite removeAt_lookup.
    by case_decide. }
  assert (Hall : ∀ r c cell,
            cellAt (removeAt k <$> g) r c = Some cell → unmergedCell cell).
  { intros r c cell. rewrite Hcells. apply Hplain. }
  split; [|done]. apply wf_unmerged; [|done].
  assert (Hrows : ∀ r row, (removeAt k <$> g) !! r = Some row →
            length row = if decide (k < colCountOf g)
                         then colCountOf g - 1 else colCountOf g).
  { intros r row. rewrite list_lookup_fmap.
    destruct (g !! r) as [row'|] eqn:E; [|done]. simpl. intros [= <-].
    by rewrite removeAt_length, (wf_rect g Hwf r row' E). }
  intros r row Hr. rewrite (Hrows r row Hr).
  destruct (colCountOf_row0 _ r row Hr) as (row0 & H0 & ->).
  symmetry. by apply (Hrows 0).
Qed.

Lemma wf_empty : wf [].
Proof.
  apply wf_unmerged; [intros r row H; by rewrite lookup_nil in H|].
  intros r c cell H. unfold cellAt in H. by rewrite lookup_nil in H.
Qed.

Lemma autoWidthSpec_bounds (data : TableData) (i : nat) :
  120 ≤ autoWidthSpec data i ≤ 250.
Proof.
  unfold autoWidthSpec.
  induction (filter _ (columnCells data i)) as [|cell cells IH].
  - cbn [fmap list_fmap foldr]. unfold baseCellWidth. lia.
  - rewrite fmap_cons. cbn [foldr].
    assert (120 ≤ estimated cell ≤ 250) by (unfold estimated, baseCellWidth; lia).
    lia.
Qed.

End RemoveUnmerged.

(** X19.  On a grid without merged cells [removeRow] and [removeCol]
    keep the invariants of the data model, and leave a grid without
    merged cells. *)
Theorem remove_keeps_invariants (st : state) (k : nat) :
  wf (data st) →
  (∀ r c cell, cellAt (data st) r c = Some cell → unmergedCell cell) →
  wf (data (removeRow k st)) ∧
  wf (data (removeCol k st)) ∧
  (∀ r c cell, cellAt (data (removeRow k st)) r c = Some cell → unmergedCell cell) ∧
  (∀ r c cell, cellAt (data (removeCol k st)) r c = Some cell → unmergedCell cell).
Proof.
  intros Hwf Hplain.
  destruct (wf_removeRow (data st) k Hwf Hplain) as [Hr1 Hr2].
  destruct (wf_removeCol (data st) k Hwf Hplain) as [Hc1 Hc2].
  cbn [removeRow removeCol data].
  split; [done|].
  destruct (removeAt k <$> data st) as [|row0 rest] eqn:E.
  - split; [apply wf_empty|]. split; [done|]. done.
  - destruct (length row0 =? 0).
    + split; [apply wf_empty|]. split; [done|]. done.
    + done.
Qed.

Lemma remove_keeps_invariants_witness :
  wf (data (removeRow 0 (mkState grid2x2 defaultConfig None))) ∧
  wf (data (removeCol 1 (mkState grid2x2 defaultConfig None))).
Proof.
  destruct (remove_keeps_invariants (mkState grid2x2 defaultConfig None) 0)
    as (H1 & _).
  - apply gridOk_wf. vm_compute. reflexivity.
  - intros r c cell.
    destruct r as [|[|r]], c as [|[|c]]; cbn; intros [= <-] || discriminate; done.
  - destruct (remove_keeps_invariants (mkState grid2x2 defaultConfig None) 1)
      as (_ & H2 & _).
    + apply gridOk_wf. vm_compute. reflexivity.
    + intros r c cell.
      destruct r as [|[|r]], c as [|[|c]]; cbn; intros [= <-] || discriminate; done.
    + split; [exact H1|exact H2].
Defined.

(** X20.  A column without width override is drawn between 120 and 250
    wide, times the width scale, whatever the text of its cells. *)
Theorem auto_width_bounds (data : TableData) (config : TableConfig) (i : nat) :
  i < colCountOf data →
  customColumnWidths config !! i = None →
  ∃ w : nat,
    120 ≤ w ≤ 250 ∧
    colWidths data config !! i
    = Some (Some (Num (inject_Z (Z.of_nat w) * scaleFactor config))).
Proof.
  intros Hi Hno. exists (autoWidthSpec data i).
  split; [apply autoWidthSpec_bounds|].
  rewrite colWidths_lookup by done. unfold chosenBase. by rewrite Hno.
Qed.

Lemma auto_width_bounds_witness :
  ∃ w : nat,
    120 ≤ w ≤ 250 ∧
    colWidths threeColumns defaultConfig !! 1
    = Some (Some (Num (inject_Z (Z.of_nat w) * scaleFactor defaultConfig))).
Proof.
  apply (auto_width_bounds threeColumns defaultConfig 1).
  - vm_compute. lia.
  - reflexivity.
Defined.
